(** * ha-live-voice: the browser audio core

    A shallow embedding of the audio streaming, playback-queue,
    chunk-deduplication, voice-activity, capture and message-handling
    code of the frontend ([frontend/src/composables]) and of its store
    ([frontend/src/store]), the properties its specification states
    about them, and further properties the code has.

    Conventions.
    - JavaScript numbers that hold times, volumes and gains are rationals
      ([Q]); comparisons, [Math.max] and [Math.min] are the exact ones.
    - A [Uint8Array] is a [list byte]; a [Float32Array] is a [list Q]
      (every PCM16 sample divided by 32768 is exactly representable).
    - The audio clock ([AudioContext.currentTime]) is constant during one
      event-loop task, so every operation takes the clock value [now] of the
      task that runs it.
    - Callbacks ([onComplete], [onError], [onVoiceStart], ...) are recorded
      in logs kept in the state, in call order; so is an exception that
      leaves a method of [AudioStreamer].
    - [setTimeout]/[setInterval] register pending timers in the state; the
      environment decides when a pending timer fires (an event of the
      trace). *)

From Stdlib Require Import String Ascii DecimalString DecimalNat.
From Stdlib Require Import Strings.Byte.
From Stdlib Require Import List ZArith NArith QArith Qminmax Qround Lqa Lia Bool
  Sorted.
Import ListNotations.

(** ** Small helpers shared by the components *)

(** [x < y] on JavaScript numbers, as a boolean. *)
Definition Qltb (x y : Q) : bool := negb (Qle_bool y x).

(** [Math.max(0, Math.min(1, v))], the clamp both [setVolume]s use. *)
Definition clampVolume (v : Q) : Q := Qmax 0 (Qmin 1 v).

(** Typed-array element store: [a[i] = v]; a write outside the array is
    dropped. *)
Fixpoint array_set {A : Type} (a : list A) (i : nat) (v : A) : list A :=
  match a, i with
  | [], _ => []
  | _ :: t, O => v :: t
  | h :: t, S j => h :: array_set t j v
  end.

(** * AudioStreamer

    [class AudioStreamer] of useAudioStreamer: PCM16 chunks are decoded,
    cut into blocks of [bufferSize] samples and scheduled back to back on
    the audio clock. *)
Module Streamer.

Open Scope Q_scope.

(** [DataView.getInt16(offset, true)] over the chunk's buffer: the
    little-endian signed 16-bit value, or [None] for the [RangeError] the
    view raises when the two bytes are not both inside the buffer.  The
    chunk covers its whole buffer, as the [new Uint8Array(pcmData)] that
    [processPCMChunk] hands to [addPCM16] does. *)
Definition int16LE (lo hi : byte) : Z :=
  let u := (Z.of_N (Byte.to_N lo) + 256 * Z.of_N (Byte.to_N hi))%Z in
  if (u <? 32768)%Z then u else (u - 65536)%Z.

Definition getInt16 (buf : list byte) (offset : nat) : option Z :=
  match nth_error buf offset, nth_error buf (S offset) with
  | Some lo, Some hi => Some (int16LE lo hi)
  | _, _ => None
  end.

(** [int16 / 32768]. *)
Definition normalize (int16 : Z) : Q := int16 # 32768.

(** The [for] loop of [_processPCM16Chunk]: [i] runs while
    [i < chunk.length / 2] (a real-number comparison, so an odd length
    gives one more iteration than there are whole samples); a failing
    [getInt16] is caught and reported through [onError], the loop goes
    on.  [errs] collects the sample indices reported. *)
Fixpoint pcmLoop (fuel i : nat) (chunk : list byte) (arr : list Q)
    (errs : list nat) : list Q * list nat :=
  match fuel with
  | O => (arr, errs)
  | S fuel' =>
      if (2 * i <? length chunk)%nat then
        match getInt16 chunk (i * 2) with
        | Some int16 =>
            pcmLoop fuel' (S i) chunk (array_set arr i (normalize int16)) errs
        | None => pcmLoop fuel' (S i) chunk arr (errs ++ [i])
        end
      else (arr, errs)
  end.

(** [_processPCM16Chunk]: [new Float32Array(chunk.length / 2)] truncates a
    fractional length; the loop never needs more than [chunk.length]
    rounds. *)
Definition _processPCM16Chunk (chunk : list byte) : list Q * list nat :=
  pcmLoop (length chunk) 0 chunk (repeat 0 (length chunk / 2)) [].

(** The samples a chunk holds, read off its bytes: one per complete
    little-endian byte pair; a single trailing byte holds none.  (What
    the loop above computes is compared with this.) *)
Fixpoint wellFormedSamples (chunk : list byte) : list Q :=
  match chunk with
  | lo :: hi :: rest => normalize (int16LE lo hi) :: wellFormedSamples rest
  | _ => []
  end.

(** One [source.start(startTime)] call, with the values the scheduler saw
    when it made it. *)
Record Scheduled := mkScheduled {
  blk_source : nat;        (* the AudioBufferSourceNode created for it *)
  blk_data : list Q;       (* the samples copied into its AudioBuffer *)
  blk_cursor : Q;          (* this.scheduledTime before the call *)
  blk_clock : Q;           (* context.currentTime *)
  blk_start : Q;           (* startTime *)
  blk_duration : Q;        (* audioBuffer.duration *)
  blk_cursor_after : Q     (* this.scheduledTime after the call *)
}.

(** One [onComplete()] call, with what held when it was made. *)
Record Completion := mkCompletion {
  cpl_clock : Q;
  cpl_flag : bool;             (* isStreamComplete *)
  cpl_queued : nat;            (* audioQueue.length *)
  cpl_lastEnded : bool         (* the last block started has ended *)
}.

Record State := mkState {
  sampleRate : Q;
  bufferSize : nat;
  audioQueue : list (list Q);
  isPlaying : bool;
  isStreamComplete : bool;
  checkInterval : bool;                 (* a setInterval handle is held *)
  scheduledTime : Q;
  initialBufferTime : Q;
  endOfQueueAudioSource : option nat;
  gain : Q;                             (* gainNode.gain value *)
  gainRamp : option (Q * Q);            (* pending linear ramp: target, end *)
  (* the environment, as far as the class drives it *)
  nextSource : nat;                     (* sources created so far *)
  scheduled : list Scheduled;           (* source.start calls, in order *)
  ended : list nat;                     (* sources whose ended event fired *)
  timeouts : list Q;                    (* pending scheduleNextBuffer timers *)
  rebuilds : nat;                       (* pending gain-rebuild timers *)
  completions : list Completion;        (* onComplete calls *)
  errors : list nat;                    (* onError calls (sample index) *)
  rateAccepted : bool;                  (* context.createBuffer takes
                                           this.sampleRate *)
  uncaught : list Q                     (* exceptions that left a method of
                                           the class: the clock *)
}.

(** [new AudioStreamer(context, sampleRate)]; [accepted] is what the
    context answers when [createBuffer] asks it for a buffer at this
    rate (a browser takes at least 8000 to 96000 Hz and no rate that is
    not positive; the rate comes with the server's message). *)
Definition newStreamer (accepted : bool) (rate : Q) : State :=
  mkState rate (N.to_nat 7680) [] false false false 0 (1 # 10) None 1 None
          0 [] [] [] 0 [] [] accepted [].

Definition SCHEDULE_AHEAD_TIME : Q := 2 # 10.

(** [audioBuffer.duration] of a buffer of [n] frames. *)
Definition duration (rate : Q) (n : nat) : Q := inject_Z (Z.of_nat n) / rate.

(** The block started last (if any) has fired its ended event. *)
Definition lastEnded (s : State) : bool :=
  match rev (scheduled s) with
  | [] => true
  | b :: _ => existsb (Nat.eqb (blk_source b)) (ended s)
  end.

(** [this.onComplete()]. *)
Definition fireComplete (now : Q) (s : State) : State :=
  mkState (sampleRate s) (bufferSize s) (audioQueue s) (isPlaying s)
    (isStreamComplete s) (checkInterval s) (scheduledTime s)
    (initialBufferTime s) (endOfQueueAudioSource s) (gain s) (gainRamp s)
    (nextSource s) (scheduled s) (ended s) (timeouts s) (rebuilds s)
    (completions s ++
       [mkCompletion now (isStreamComplete s) (length (audioQueue s))
                     (lastEnded s)])
    (errors s) (rateAccepted s) (uncaught s).

(** [createAudioBuffer(audioData)] asks the context for a buffer:
    [context.createBuffer(1, audioData.length, this.sampleRate)] raises a
    [NotSupportedError] for a buffer of no frames and for a sample rate
    the context does not take.  Nothing in the class catches it. *)
Definition createBufferThrows (s : State) (audioData : list Q) : bool :=
  negb (rateAccepted s) || Nat.eqb (length audioData) 0.

(** The [while] loop of [scheduleNextBuffer], by recursion on the queue it
    shifts blocks from; the result tells whether the loop was left by an
    exception.  The block that empties the queue becomes
    [endOfQueueAudioSource] (and only that source keeps an [onended]
    handler).  When [createBuffer] throws, the block is already shifted
    off the queue and is lost. *)
Fixpoint scheduleLoop (now : Q) (queue : list (list Q)) (s : State)
    : State * bool :=
  match queue with
  | [] =>
      (mkState (sampleRate s) (bufferSize s) [] (isPlaying s)
         (isStreamComplete s) (checkInterval s) (scheduledTime s)
         (initialBufferTime s) (endOfQueueAudioSource s) (gain s) (gainRamp s)
         (nextSource s) (scheduled s) (ended s) (timeouts s) (rebuilds s)
         (completions s) (errors s) (rateAccepted s) (uncaught s),
       false)
  | audioData :: rest =>
      if Qltb (scheduledTime s) (now + SCHEDULE_AHEAD_TIME) then
        if createBufferThrows s audioData then
          (mkState (sampleRate s) (bufferSize s) rest (isPlaying s)
             (isStreamComplete s) (checkInterval s) (scheduledTime s)
             (initialBufferTime s) (endOfQueueAudioSource s) (gain s)
             (gainRamp s)
             (nextSource s) (scheduled s) (ended s) (timeouts s) (rebuilds s)
             (completions s) (errors s) (rateAccepted s) (uncaught s ++ [now]),
           true)
        else
          let source := nextSource s in
          let dur := duration (sampleRate s) (length audioData) in
          let startTime := Qmax (scheduledTime s) now in
          scheduleLoop now rest
            (mkState (sampleRate s) (bufferSize s) rest (isPlaying s)
               (isStreamComplete s) (checkInterval s) (startTime + dur)
               (initialBufferTime s)
               (match rest with
                | [] => Some source
                | _ => endOfQueueAudioSource s
                end)
               (gain s) (gainRamp s)
               (S source)
               (scheduled s ++
                  [mkScheduled source audioData (scheduledTime s) now
                               startTime dur (startTime + dur)])
               (ended s) (timeouts s) (rebuilds s) (completions s) (errors s)
               (rateAccepted s) (uncaught s))
      else
        (mkState (sampleRate s) (bufferSize s) queue (isPlaying s)
           (isStreamComplete s) (checkInterval s) (scheduledTime s)
           (initialBufferTime s) (endOfQueueAudioSource s) (gain s) (gainRamp s)
           (nextSource s) (scheduled s) (ended s) (timeouts s) (rebuilds s)
           (completions s) (errors s) (rateAccepted s) (uncaught s),
         false)
  end.

(** [scheduleNextBuffer]: the loop, then either the end of the stream, the
    100 ms polling interval, or a timer for the next round.  An exception
    in the loop leaves the method at once: none of the three happens. *)
Definition scheduleNextBuffer (now : Q) (s0 : State) : State :=
  let s := fst (scheduleLoop now (audioQueue s0) s0) in
  if snd (scheduleLoop now (audioQueue s0) s0) then s
  else
  match audioQueue s with
  | [] =>
      if isStreamComplete s then
        mkState (sampleRate s) (bufferSize s) (audioQueue s) false
          (isStreamComplete s) false (scheduledTime s)
          (initialBufferTime s) (endOfQueueAudioSource s) (gain s) (gainRamp s)
          (nextSource s) (scheduled s) (ended s) (timeouts s) (rebuilds s)
          (completions s) (errors s) (rateAccepted s) (uncaught s)
      else
        mkState (sampleRate s) (bufferSize s) (audioQueue s) (isPlaying s)
          (isStreamComplete s) true (scheduledTime s)
          (initialBufferTime s) (endOfQueueAudioSource s) (gain s) (gainRamp s)
          (nextSource s) (scheduled s) (ended s) (timeouts s) (rebuilds s)
          (completions s) (errors s) (rateAccepted s) (uncaught s)
  | _ :: _ =>
      let nextCheckTime := (scheduledTime s - now) * 1000 in
      let delay := Qmax 0 (nextCheckTime - 50) in
      mkState (sampleRate s) (bufferSize s) (audioQueue s) (isPlaying s)
        (isStreamComplete s) (checkInterval s) (scheduledTime s)
        (initialBufferTime s) (endOfQueueAudioSource s) (gain s) (gainRamp s)
        (nextSource s) (scheduled s) (ended s)
        (timeouts s ++ [now + delay / 1000]) (rebuilds s)
        (completions s) (errors s) (rateAccepted s) (uncaught s)
  end.

(** The slicing loop of [addPCM16]: full blocks of [size] samples are
    pushed while the rest is at least [size] long. *)
Fixpoint sliceLoop (fuel size : nat) (processingBuffer : list Q)
    (queue : list (list Q)) : list (list Q) * list Q :=
  match fuel with
  | O => (queue, processingBuffer)
  | S fuel' =>
      if (size <=? length processingBuffer)%nat then
        sliceLoop fuel' size (skipn size processingBuffer)
                  (queue ++ [firstn size processingBuffer])
      else (queue, processingBuffer)
  end.

(** [addPCM16(chunk)] up to the point where the blocks are in the queue:
    the completion flag is reset, the chunk decoded and cut, every decode
    error reported. *)
Definition pushPCM16 (chunk : list byte) (s : State) : State :=
  let '(samples, errs) := _processPCM16Chunk chunk in
  let '(queue1, rest) :=
    sliceLoop (length samples) (bufferSize s) samples (audioQueue s) in
  let queue2 :=
    match rest with
    | [] => queue1
    | _ :: _ => queue1 ++ [rest]
    end in
  mkState (sampleRate s) (bufferSize s) queue2 (isPlaying s)
    false (checkInterval s) (scheduledTime s)
    (initialBufferTime s) (endOfQueueAudioSource s) (gain s) (gainRamp s)
    (nextSource s) (scheduled s) (ended s) (timeouts s) (rebuilds s)
    (completions s) (errors s ++ errs) (rateAccepted s) (uncaught s).

(** The end of [addPCM16]: playback starts unless it is already running;
    only then is the cursor set, one initial buffering latency ahead of
    the clock. *)
Definition startIfIdle (now : Q) (s : State) : State :=
  if isPlaying s then s
  else
    scheduleNextBuffer now
      (mkState (sampleRate s) (bufferSize s) (audioQueue s) true
         (isStreamComplete s) (checkInterval s)
         (now + initialBufferTime s)
         (initialBufferTime s) (endOfQueueAudioSource s) (gain s)
         (gainRamp s)
         (nextSource s) (scheduled s) (ended s) (timeouts s) (rebuilds s)
         (completions s) (errors s) (rateAccepted s) (uncaught s)).

(** [addPCM16(chunk)]. *)
Definition addPCM16 (now : Q) (chunk : list byte) (s : State) : State :=
  startIfIdle now (pushPCM16 chunk s).

(** [complete()]. *)
Definition complete (now : Q) (s : State) : State :=
  let s1 :=
    mkState (sampleRate s) (bufferSize s) (audioQueue s) (isPlaying s)
      true (checkInterval s) (scheduledTime s)
      (initialBufferTime s) (endOfQueueAudioSource s) (gain s) (gainRamp s)
      (nextSource s) (scheduled s) (ended s) (timeouts s) (rebuilds s)
      (completions s) (errors s) (rateAccepted s) (uncaught s) in
  match audioQueue s1 with
  | [] => fireComplete now s1
  | _ :: _ => s1
  end.

(** The [onended] handler installed on the source that emptied the queue;
    on any other source no handler is left, so its ended event only
    records that the source finished. *)
Definition onended (now : Q) (source : nat) (s : State) : State :=
  let s1 :=
    mkState (sampleRate s) (bufferSize s) (audioQueue s) (isPlaying s)
      (isStreamComplete s) (checkInterval s) (scheduledTime s)
      (initialBufferTime s) (endOfQueueAudioSource s) (gain s) (gainRamp s)
      (nextSource s) (scheduled s) (ended s ++ [source]) (timeouts s)
      (rebuilds s) (completions s) (errors s) (rateAccepted s) (uncaught s) in
  match audioQueue s1, endOfQueueAudioSource s1 with
  | [], Some e =>
      if Nat.eqb e source then
        let s2 :=
          mkState (sampleRate s1) (bufferSize s1) (audioQueue s1)
            (isPlaying s1) (isStreamComplete s1) (checkInterval s1)
            (scheduledTime s1) (initialBufferTime s1) None (gain s1)
            (gainRamp s1) (nextSource s1) (scheduled s1) (ended s1)
            (timeouts s1) (rebuilds s1) (completions s1) (errors s1) (rateAccepted s1) (uncaught s1) in
        if isStreamComplete s2 then fireComplete now s2 else s2
      else s1
  | _, _ => s1
  end.

(** [stop()]: the queue is dropped, the gain ramps to zero within 100 ms
    and a timer rebuilds the gain node 200 ms later. *)
Definition stop (now : Q) (s : State) : State :=
  mkState (sampleRate s) (bufferSize s) [] false
    true false now
    (initialBufferTime s) (endOfQueueAudioSource s) (gain s)
    (Some (0, now + (1 # 10)))
    (nextSource s) (scheduled s) (ended s) (timeouts s) (S (rebuilds s))
    (completions s) (errors s) (rateAccepted s) (uncaught s).

(** The 200 ms timer of [stop()]: a fresh gain node (default gain 1). *)
Definition rebuildGain (s : State) : State :=
  mkState (sampleRate s) (bufferSize s) (audioQueue s) (isPlaying s)
    (isStreamComplete s) (checkInterval s) (scheduledTime s)
    (initialBufferTime s) (endOfQueueAudioSource s) 1 None
    (nextSource s) (scheduled s) (ended s) (timeouts s) (pred (rebuilds s))
    (completions s) (errors s) (rateAccepted s) (uncaught s).

(** [resume()] (the context is taken as running). *)
Definition resume (now : Q) (s : State) : State :=
  mkState (sampleRate s) (bufferSize s) (audioQueue s) (isPlaying s)
    false (checkInterval s) (now + initialBufferTime s)
    (initialBufferTime s) (endOfQueueAudioSource s) 1 (gainRamp s)
    (nextSource s) (scheduled s) (ended s) (timeouts s) (rebuilds s)
    (completions s) (errors s) (rateAccepted s) (uncaught s).

(** [setVolume(volume)]. *)
Definition setVolume (volume : Q) (s : State) : State :=
  mkState (sampleRate s) (bufferSize s) (audioQueue s) (isPlaying s)
    (isStreamComplete s) (checkInterval s) (scheduledTime s)
    (initialBufferTime s) (endOfQueueAudioSource s) (clampVolume volume)
    (gainRamp s)
    (nextSource s) (scheduled s) (ended s) (timeouts s) (rebuilds s)
    (completions s) (errors s) (rateAccepted s) (uncaught s).

(** What can happen to a streamer. *)
Inductive Event :=
| EvAdd (chunk : list byte)      (* addPCM16(chunk) *)
| EvTimeout                      (* a setTimeout of scheduleNextBuffer fires *)
| EvInterval                     (* the 100 ms polling interval fires *)
| EvEnded (source : nat)         (* the ended event of a started source *)
| EvComplete                     (* complete() *)
| EvSetVolume (volume : Q)       (* setVolume(volume) *)
| EvStop                         (* stop() *)
| EvRebuild                      (* the rebuild timer of stop() fires *)
| EvResume.                      (* resume() *)

(** The oldest pending timer is the one that fires. *)
Definition popTimeout (s : State) : State :=
  mkState (sampleRate s) (bufferSize s) (audioQueue s) (isPlaying s)
    (isStreamComplete s) (checkInterval s) (scheduledTime s)
    (initialBufferTime s) (endOfQueueAudioSource s) (gain s) (gainRamp s)
    (nextSource s) (scheduled s) (ended s) (tl (timeouts s)) (rebuilds s)
    (completions s) (errors s) (rateAccepted s) (uncaught s).

Definition step (s : State) (e : Q * Event) : State :=
  let now := fst e in
  match snd e with
  | EvAdd chunk => addPCM16 now chunk s
  | EvTimeout => scheduleNextBuffer now (popTimeout s)
  | EvInterval =>
      match audioQueue s with
      | [] => s
      | _ :: _ => scheduleNextBuffer now s
      end
  | EvEnded source => onended now source s
  | EvComplete => complete now s
  | EvSetVolume v => setVolume v s
  | EvStop => stop now s
  | EvRebuild => rebuildGain s
  | EvResume => resume now s
  end.

Definition run (s : State) (trace : list (Q * Event)) : State :=
  fold_left step trace s.

(** An event the environment can really deliver in state [s] at clock
    [now]: timers fire only when pending and due, a source ends only once,
    after it was started and not before its buffer has played out. *)
Definition deliverable (s : State) (e : Q * Event) : bool :=
  let now := fst e in
  match snd e with
  | EvTimeout =>
      match timeouts s with
      | due :: _ => Qle_bool due now
      | [] => false
      end
  | EvInterval => checkInterval s
  | EvEnded source =>
      negb (existsb (Nat.eqb source) (ended s)) &&
      existsb (fun b => Nat.eqb (blk_source b) source &&
                        Qle_bool (blk_start b + blk_duration b) now)
              (scheduled s)
  | EvRebuild => negb (Nat.eqb (rebuilds s) 0)
  | _ => true
  end.

(** A trace the environment can produce from [s]: every event is
    deliverable when it arrives and the clock never runs backwards. *)
Fixpoint feasible (s : State) (clock : Q) (trace : list (Q * Event)) : bool :=
  match trace with
  | [] => true
  | e :: rest =>
      Qle_bool clock (fst e) && deliverable s e && feasible (step s e) (fst e) rest
  end.

(** The events of the life of one stream: chunks, timers and ended
    events, then [complete()] with no chunk after it.  [stop()] and
    [resume()] end or restart a stream and are not among them. *)
Fixpoint oneStream (completed : bool) (trace : list (Q * Event)) : bool :=
  match trace with
  | [] => true
  | e :: rest =>
      match snd e with
      | EvAdd _ => negb completed && oneStream completed rest
      | EvComplete => oneStream true rest
      | EvStop | EvResume => false
      | _ => oneStream completed rest
      end
  end.

(** Each block sees the cursor the block before it left. *)
Fixpoint chained (blocks : list Scheduled) : Prop :=
  match blocks with
  | b1 :: (b2 :: _) as rest =>
      blk_cursor b2 = blk_cursor_after b1 /\ chained rest
  | _ => True
  end.

(** What the specification asks of [onComplete]: called exactly once,
    with the stream marked complete, nothing queued and the last block
    played out. *)
Definition completesOnce (s : State) : Prop :=
  length (completions s) = 1%nat /\
  Forall (fun c => cpl_flag c = true /\ cpl_queued c = 0%nat /\
                   cpl_lastEnded c = true) (completions s).

(** When the code calls [onComplete]: inside [complete()] if the queue is
    empty at that moment, and in the ended handler of the block that
    emptied the queue, if the queue is still empty and the stream is
    marked complete. *)
Definition firesOn (s : State) (e : Q * Event) : bool :=
  match snd e with
  | EvComplete =>
      match audioQueue s with [] => true | _ :: _ => false end
  | EvEnded source =>
      match audioQueue s, endOfQueueAudioSource s with
      | [], Some last => Nat.eqb last source && isStreamComplete s
      | _, _ => false
      end
  | _ => false
  end.

(** The facts recorded with one block fit together: it starts at the
    later of cursor and clock, never before the clock, and leaves the
    cursor one block duration after its start. *)
Definition blockOk (b : Scheduled) : Prop :=
  blk_start b = Qmax (blk_cursor b) (blk_clock b) /\
  blk_cursor_after b = blk_start b + blk_duration b /\
  blk_clock b <= blk_start b.

(** The last block of a schedule left the cursor at [c]. *)
Fixpoint endsAt (c : Q) (blocks : list Scheduled) : Prop :=
  match blocks with
  | [] => True
  | b :: rest =>
      match rest with
      | [] => blk_cursor_after b = c
      | _ :: _ => endsAt c rest
      end
  end.

(** The invariant of a schedule built with sample rate [rate] whose
    cursor stands at [cursor]. *)
Definition wellScheduled (rate : Q) (blocks : list Scheduled) (cursor : Q) : Prop :=
  0 < rate /\
  Forall blockOk blocks /\
  StronglySorted Qle (map blk_start blocks) /\
  Forall (fun b => blk_start b <= cursor) blocks /\
  chained blocks /\
  endsAt cursor blocks.

Definition core (s : State) : Prop :=
  wellScheduled (sampleRate s) (scheduled s) (scheduledTime s).

(** While [complete()] has not been called the stream is either running
    or has not scheduled anything yet. *)
Definition phase (completed : bool) (s : State) : Prop :=
  completed = false ->
  isStreamComplete s = false /\
  (isPlaying s = true \/ (scheduled s = [] /\ audioQueue s = [])).

(** No [createBuffer] call of the scheduler can throw: the context takes
    the rate and no queued block is empty. *)
Definition ready (s : State) : Prop :=
  rateAccepted s = true /\ (0 < bufferSize s)%nat /\
  Forall (fun block => block <> []) (audioQueue s).

(** A stream of one four-byte chunk whose [complete()] arrives while the
    only block is still waiting to be played. *)
Definition earlyComplete : list (Q * Event) :=
  [(0, EvAdd [x01; x02; x03; x04]);
   ((5 # 100), EvComplete);
   ((2 # 10), EvEnded 0%nat)].

End Streamer.

(** * Playback queue manager

    [useAudioPlayback]: a FIFO of fully buffered audio items, played one at
    a time, with the error classification, retry and recovery policy of
    [processQueue] and [recoverFromErrors].

    Granularity: [processQueue] with its [await playAudioBuffer(...)] is
    one step; how the browser answers (context creation, suspension,
    decoding, starting the source) is the [Env] the step is given.
    [recoverFromErrors] is split at its [await audioContext.close()].
    Item ids ([generateId]: time stamp plus random suffix) are taken to be
    distinct and are numbered in creation order; the [timestamp] field,
    which no decision reads, is left out. *)
Module Playback.

Open Scope string_scope.
Open Scope Z_scope.

Inductive ErrorType :=
| DECODE_ERROR | CONTEXT_ERROR | PLAYBACK_ERROR | QUEUE_ERROR | UNKNOWN_ERROR.

Record AudioError := mkAudioError {
  err_type : ErrorType;
  err_message : string;
  err_itemId : option nat
}.

(** The keys of an item's [metadata] object that the queue reads:
    [source], [streaming] (does it hold the boolean [true]?) and
    [retryCount] ([None]: the key is absent). *)
Record Metadata := mkMetadata {
  md_source : option string;
  md_streaming : bool;
  md_retryCount : option Z
}.

Definition emptyMetadata : Metadata := mkMetadata None false None.

Record AudioQueueItem := mkItem {
  item_id : nat;
  item_audioData : list byte;
  item_source : string;
  item_metadata : Metadata
}.

(** [nextItem.metadata?.retryCount || 0]. *)
Definition retryCountOf (item : AudioQueueItem) : Z :=
  match md_retryCount (item_metadata item) with
  | Some n => n
  | None => 0
  end.

(** [nextItem.source === 'websocket-streaming' ||
     nextItem.metadata?.streaming === true]. *)
Definition isStreamingChunk (item : AudioQueueItem) : bool :=
  String.eqb (item_source item) "websocket-streaming" ||
  md_streaming (item_metadata item).

(** What the branches of [processQueue] and [playAudioBuffer] report on
    the console, per item. *)
Inductive Action :=
| Played (id : nat)            (* "Playing audio buffer" *)
| Skipped (id : nat)           (* "Skipping corrupted item" *)
| StreamSkipped (id : nat)     (* "Skipping streaming chunk (no retry)" *)
| Retried (id : nat)           (* "Retrying item" *)
| GaveUp (id : nat)            (* "Giving up on item" *)
| Halted.                      (* "Muitos erros, pausando processamento" *)

(** How the browser answers during one step; [Some msg] is an exception
    (or rejected promise) with that message. *)
Record Env := mkEnv {
  env_newContext : option string;   (* new AudioContext() *)
  env_suspended : bool;             (* context.state === 'suspended' *)
  env_resume : option string;       (* context.resume() *)
  env_decode : option string;       (* context.decodeAudioData(...) *)
  env_start : option string;        (* creating and starting the source *)
  env_close : option string         (* audioContext.close() *)
}.

(** The browser raises nothing and the context is running. *)
Definition quiet : Env := mkEnv None false None None None None.

Record State := mkState {
  audioContext : bool;                       (* audioContext.value != null *)
  gainNode : option Q;                       (* gainNode.value.gain.value *)
  currentSource : option nat;
  audioQueue : list AudioQueueItem;
  currentPlayingItem : option AudioQueueItem;
  (* the reactive [state] object *)
  isPlaying : bool;
  currentItem : option AudioQueueItem;
  queueLength : nat;
  volume : Q;
  isMuted : bool;
  lastError : option AudioError;
  errorCount : Z;
  isRecovering : bool;
  (* the environment, as far as the composable drives it *)
  nextId : nat;                              (* ids generated so far *)
  nextSource : nat;                          (* source nodes created so far *)
  audible : list nat;                        (* started, not stopped or ended *)
  awaitingEnded : list nat;                  (* ended event still to come *)
  timers : list Z;                           (* pending processQueue timers *)
  closing : nat;                             (* recoveries awaiting close() *)
  enqueued : list AudioQueueItem;            (* items accepted, in order *)
  actions : list Action                      (* the console trail *)
}.

Definition init : State :=
  mkState false None None [] None false None 0%nat 1%Q false None 0 false
          0%nat 0%nat [] [] [] 0%nat [] [].

(** Field updates. *)
Definition withContext (c : bool) (g : option Q) (s : State) : State :=
  mkState c g (currentSource s) (audioQueue s) (currentPlayingItem s)
    (isPlaying s) (currentItem s) (queueLength s) (volume s) (isMuted s)
    (lastError s) (errorCount s) (isRecovering s) (nextId s) (nextSource s)
    (audible s) (awaitingEnded s) (timers s) (closing s) (enqueued s)
    (actions s).

Definition withQueue (q : list AudioQueueItem) (s : State) : State :=
  mkState (audioContext s) (gainNode s) (currentSource s) q
    (currentPlayingItem s) (isPlaying s) (currentItem s) (length q)
    (volume s) (isMuted s) (lastError s) (errorCount s) (isRecovering s)
    (nextId s) (nextSource s) (audible s) (awaitingEnded s) (timers s)
    (closing s) (enqueued s) (actions s).

Definition withPlaying (p : bool) (s : State) : State :=
  mkState (audioContext s) (gainNode s) (currentSource s) (audioQueue s)
    (currentPlayingItem s) p (currentItem s) (queueLength s)
    (volume s) (isMuted s) (lastError s) (errorCount s) (isRecovering s)
    (nextId s) (nextSource s) (audible s) (awaitingEnded s) (timers s)
    (closing s) (enqueued s) (actions s).

Definition withCurrentItem (i : option AudioQueueItem) (s : State) : State :=
  mkState (audioContext s) (gainNode s) (currentSource s) (audioQueue s)
    (currentPlayingItem s) (isPlaying s) i (queueLength s)
    (volume s) (isMuted s) (lastError s) (errorCount s) (isRecovering s)
    (nextId s) (nextSource s) (audible s) (awaitingEnded s) (timers s)
    (closing s) (enqueued s) (actions s).

Definition withCurrentPlayingItem (i : option AudioQueueItem) (s : State)
    : State :=
  mkState (audioContext s) (gainNode s) (currentSource s) (audioQueue s)
    i (isPlaying s) (currentItem s) (queueLength s)
    (volume s) (isMuted s) (lastError s) (errorCount s) (isRecovering s)
    (nextId s) (nextSource s) (audible s) (awaitingEnded s) (timers s)
    (closing s) (enqueued s) (actions s).

Definition withCurrentSource (c : option nat) (s : State) : State :=
  mkState (audioContext s) (gainNode s) c (audioQueue s)
    (currentPlayingItem s) (isPlaying s) (currentItem s) (queueLength s)
    (volume s) (isMuted s) (lastError s) (errorCount s) (isRecovering s)
    (nextId s) (nextSource s) (audible s) (awaitingEnded s) (timers s)
    (closing s) (enqueued s) (actions s).

Definition withErrors (e : option AudioError) (n : Z) (s : State) : State :=
  mkState (audioContext s) (gainNode s) (currentSource s) (audioQueue s)
    (currentPlayingItem s) (isPlaying s) (currentItem s) (queueLength s)
    (volume s) (isMuted s) e n (isRecovering s)
    (nextId s) (nextSource s) (audible s) (awaitingEnded s) (timers s)
    (closing s) (enqueued s) (actions s).

Definition withRecovering (r : bool) (s : State) : State :=
  mkState (audioContext s) (gainNode s) (currentSource s) (audioQueue s)
    (currentPlayingItem s) (isPlaying s) (currentItem s) (queueLength s)
    (volume s) (isMuted s) (lastError s) (errorCount s) r
    (nextId s) (nextSource s) (audible s) (awaitingEnded s) (timers s)
    (closing s) (enqueued s) (actions s).

Definition withVolume (v : Q) (m : bool) (s : State) : State :=
  mkState (audioContext s) (gainNode s) (currentSource s) (audioQueue s)
    (currentPlayingItem s) (isPlaying s) (currentItem s) (queueLength s)
    v m (lastError s) (errorCount s) (isRecovering s)
    (nextId s) (nextSource s) (audible s) (awaitingEnded s) (timers s)
    (closing s) (enqueued s) (actions s).

Definition withSources (n : nat) (a w : list nat) (s : State) : State :=
  mkState (audioContext s) (gainNode s) (currentSource s) (audioQueue s)
    (currentPlayingItem s) (isPlaying s) (currentItem s) (queueLength s)
    (volume s) (isMuted s) (lastError s) (errorCount s) (isRecovering s)
    (nextId s) n a w (timers s) (closing s) (enqueued s) (actions s).

Definition withTimers (t : list Z) (s : State) : State :=
  mkState (audioContext s) (gainNode s) (currentSource s) (audioQueue s)
    (currentPlayingItem s) (isPlaying s) (currentItem s) (queueLength s)
    (volume s) (isMuted s) (lastError s) (errorCount s) (isRecovering s)
    (nextId s) (nextSource s) (audible s) (awaitingEnded s) t
    (closing s) (enqueued s) (actions s).

Definition withClosing (c : nat) (s : State) : State :=
  mkState (audioContext s) (gainNode s) (currentSource s) (audioQueue s)
    (currentPlayingItem s) (isPlaying s) (currentItem s) (queueLength s)
    (volume s) (isMuted s) (lastError s) (errorCount s) (isRecovering s)
    (nextId s) (nextSource s) (audible s) (awaitingEnded s) (timers s)
    c (enqueued s) (actions s).

Definition withEnqueued (i : AudioQueueItem) (s : State) : State :=
  mkState (audioContext s) (gainNode s) (currentSource s) (audioQueue s)
    (currentPlayingItem s) (isPlaying s) (currentItem s) (queueLength s)
    (volume s) (isMuted s) (lastError s) (errorCount s) (isRecovering s)
    (S (nextId s)) (nextSource s) (audible s) (awaitingEnded s) (timers s)
    (closing s) (enqueued s ++ [i]) (actions s).

Definition report (a : Action) (s : State) : State :=
  mkState (audioContext s) (gainNode s) (currentSource s) (audioQueue s)
    (currentPlayingItem s) (isPlaying s) (currentItem s) (queueLength s)
    (volume s) (isMuted s) (lastError s) (errorCount s) (isRecovering s)
    (nextId s) (nextSource s) (audible s) (awaitingEnded s) (timers s)
    (closing s) (enqueued s) (actions s ++ [a]).

(** [setTimeout(() => processQueue(), delay)]. *)
Definition setTimeout (delay : Z) (s : State) : State :=
  withTimers (timers s ++ [delay]) s.

(** The computed properties. *)
Definition hasItemsInQueue (s : State) : bool :=
  negb (Nat.eqb (length (audioQueue s)) 0%nat).
Definition isQueueEmpty (s : State) : bool :=
  Nat.eqb (length (audioQueue s)) 0%nat.
Definition hasErrors (s : State) : bool := 0 <? errorCount s.
Definition isHealthy (s : State) : bool :=
  (errorCount s <? 3) && negb (isRecovering s).

(** [logError]: the error becomes [lastError] and the counter goes up by
    one. *)
Definition logError (type : ErrorType) (message : string)
    (itemId : option nat) (s : State) : State :=
  withErrors (Some (mkAudioError type message itemId)) (errorCount s + 1) s.

Definition clearErrors (s : State) : State :=
  withRecovering false (withErrors None 0 s).

Definition shouldSkipItem (error : AudioError) : bool :=
  match err_type error with
  | DECODE_ERROR => true
  | _ => false
  end.

Definition shouldRetryItem (error : AudioError) : bool :=
  match err_type error with
  | CONTEXT_ERROR | PLAYBACK_ERROR => true
  | _ => false
  end.

(** [haystack.includes(needle)]. *)
Fixpoint includes (needle haystack : string) : bool :=
  if String.prefix needle haystack then true
  else match haystack with
       | EmptyString => false
       | String _ rest => includes needle rest
       end.

(** The error categories of the [catch] block of [playAudioBuffer]. *)
Definition categorize (errorMsg : string) : ErrorType :=
  if includes "decode" errorMsg || includes "Encoding" errorMsg
  then DECODE_ERROR
  else if includes "context" errorMsg || includes "suspended" errorMsg
  then CONTEXT_ERROR
  else PLAYBACK_ERROR.

(** [initAudioContext]: the state and the message of the exception it
    throws, if any. *)
Definition initAudioContext (env : Env) (s : State) : State * option string :=
  if audioContext s then (s, None)
  else match env_newContext env with
       | Some msg =>
           (logError CONTEXT_ERROR "Failed to initialize audio context" None s,
            Some msg)
       | None =>
           (withContext true (Some (if isMuted s then 0%Q else volume s)) s,
            None)
       end.

(** [source.stop(); source.disconnect()] on the current source, if any:
    it falls silent at once, its ended event is still delivered. *)
Definition silenceCurrent (s : State) : State :=
  match currentSource s with
  | Some c =>
      withCurrentSource None
        (withSources (nextSource s)
           (filter (fun x => negb (Nat.eqb x c)) (audible s))
           (awaitingEnded s) s)
  | None => s
  end.

(** The [catch] block of [playAudioBuffer]. *)
Definition playCatch (errorMsg : string) (itemId : option nat) (s : State)
    : State * option string :=
  let s1 := logError (categorize errorMsg) ("Playback failed: " ++ errorMsg)
                     itemId s in
  (withCurrentSource None (withCurrentItem None (withPlaying false s1)),
   Some errorMsg).

(** [playAudioBuffer(audioData, itemId)]: the state and, when the promise
    is rejected, the message of the error. *)
Definition playAudioBuffer (env : Env) (audioData : list byte)
    (itemId : option nat) (s : State) : State * option string :=
  match initAudioContext env s with
  | (s1, Some msg) => playCatch msg itemId s1
  | (s1, None) =>
      if env_suspended env then
        playCatch
          "AudioContext is suspended - must be prepared first via user interaction"
          itemId s1
      else
        let s2 :=
          if isPlaying s1 ||
             match currentSource s1 with Some _ => true | None => false end
          then withPlaying false (silenceCurrent s1)
          else s1 in
        let s3 := withPlaying true s2 in
        match audioData with
        | [] => playCatch "Invalid audio data: empty or null buffer" itemId s3
        | _ :: _ =>
            match env_decode env with
            | Some msg => playCatch ("Audio decode failed: " ++ msg) itemId s3
            | None =>
                let s4 := silenceCurrent s3 in
                let source := nextSource s4 in
                let s5 :=
                  withCurrentSource (Some source)
                    (withSources (S source) (audible s4) (awaitingEnded s4)
                                 s4) in
                match env_start env with
                | Some msg => playCatch msg itemId s5
                | None =>
                    let s6 :=
                      withSources (nextSource s5) (audible s5 ++ [source])
                                  (awaitingEnded s5 ++ [source]) s5 in
                    (match itemId with
                     | Some id => report (Played id) s6
                     | None => s6
                     end, None)
                end
            end
        end
  end.

(** [dequeueAudio]. *)
Definition dequeueAudio (s : State) : State * option AudioQueueItem :=
  match audioQueue s with
  | [] => (withQueue [] s, None)
  | item :: rest => (withQueue rest s, Some item)
  end.

(** The retry branch: the item goes back to the front of the queue with
    its retry count raised by one. *)
Definition bumpRetry (item : AudioQueueItem) : AudioQueueItem :=
  let m := item_metadata item in
  mkItem (item_id item) (item_audioData item) (item_source item)
    (mkMetadata (md_source m) (md_streaming m) (Some (retryCountOf item + 1))).

Definition requeue (item : AudioQueueItem) (s : State) : State :=
  withQueue (bumpRetry item :: audioQueue s) s.

(** [processQueue]. *)
Definition processQueue (env : Env) (s : State) : State :=
  if isPlaying s || isQueueEmpty s then s
  else if 5 <=? errorCount s then report Halted (withRecovering true s)
  else
    match dequeueAudio s with
    | (s1, None) => s1
    | (s1, Some nextItem) =>
        let s2 :=
          withCurrentPlayingItem (Some nextItem)
            (withCurrentItem (Some nextItem) s1) in
        match playAudioBuffer env (item_audioData nextItem)
                (Some (item_id nextItem)) s2 with
        | (s3, None) =>
            if 0 <? errorCount s3
            then withErrors (lastError s3) (Z.max 0 (errorCount s3 - 1)) s3
            else s3
        | (s3, Some _) =>
            let idle := fun st => withCurrentItem None (withPlaying false st) in
            match lastError s3 with
            | None => s3
            | Some audioError =>
                if shouldSkipItem audioError then
                  setTimeout 100 (idle (report (Skipped (item_id nextItem)) s3))
                else if shouldRetryItem audioError && (retryCountOf nextItem <? 2)
                then
                  if isStreamingChunk nextItem then
                    setTimeout 100
                      (idle (report (StreamSkipped (item_id nextItem)) s3))
                  else
                    setTimeout 1000
                      (idle (requeue nextItem
                               (report (Retried (item_id nextItem)) s3)))
                else
                  setTimeout 500 (idle (report (GaveUp (item_id nextItem)) s3))
            end
        end
    end.

(** [prepareAudioContext]: a failure is logged; the exception it then
    rethrows is the caller's to handle ([enqueueAudio] swallows it). *)
Definition prepareAudioContext (env : Env) (s : State) : State :=
  match initAudioContext env s with
  | (s1, Some _) =>
      logError CONTEXT_ERROR "Failed to prepare audio context" None s1
  | (s1, None) =>
      if env_suspended env then
        match env_resume env with
        | Some _ =>
            logError CONTEXT_ERROR "Failed to prepare audio context" None s1
        | None => s1
        end
      else s1
  end.

(** [enqueueAudio(audioData, metadata)]: the state and the id returned
    ([None]: the call threw).  The resume that [prepareAudioContext]
    awaits settles after the synchronous part of [processQueue], so its
    outcome is applied last. *)
Definition enqueueAudio (env : Env) (audioData : list byte)
    (metadata : option Metadata) (s : State) : State * option nat :=
  match audioData with
  | [] => (logError QUEUE_ERROR "Failed to enqueue audio" None s, None)
  | _ :: _ =>
      let md := match metadata with Some m => m | None => emptyMetadata end in
      let source :=
        match md_source md with
        | Some "" | None => "websocket"
        | Some src => src
        end in
      let item := mkItem (nextId s) audioData source md in
      let s1 := withEnqueued item (withQueue (audioQueue s ++ [item]) s) in
      let s2 :=
        if negb (isPlaying s1) && negb (isRecovering s1)
        then processQueue env s1 else s1 in
      let s3 :=
        if audioContext s && env_suspended env
        then prepareAudioContext env s2 else s2 in
      (s3, Some (item_id item))
  end.

Definition clearQueue (s : State) : State := clearErrors (withQueue [] s).

Definition peekNext (s : State) : option AudioQueueItem := hd_error (audioQueue s).

(** [removeFromQueue(itemId)]: only the first item with that id goes. *)
Fixpoint removeFirst (itemId : nat) (q : list AudioQueueItem)
    : list AudioQueueItem :=
  match q with
  | [] => []
  | item :: rest =>
      if Nat.eqb (item_id item) itemId then rest
      else item :: removeFirst itemId rest
  end.

Definition removeFromQueue (itemId : nat) (s : State) : State :=
  if existsb (fun item => Nat.eqb (item_id item) itemId) (audioQueue s)
  then withQueue (removeFirst itemId (audioQueue s)) s
  else s.

(** The [onended] handler [playAudioBuffer] installs. *)
Definition onended (s : State) : State :=
  setTimeout 100
    (withCurrentSource None (withCurrentItem None (withPlaying false s))).

Definition stopPlayback (s : State) : State :=
  withCurrentPlayingItem None
    (withCurrentItem None (withPlaying false (silenceCurrent s))).

Definition pauseQueue (s : State) : State := stopPlayback s.

Definition resumeQueue (env : Env) (s : State) : State :=
  if negb (isPlaying s) && hasItemsInQueue s && negb (isRecovering s)
  then processQueue env s else s.

(** [recoverFromErrors] up to its [await audioContext.close()]. *)
Definition recoverBegin (s : State) : State :=
  stopPlayback (withRecovering true s).

(** [recoverFromErrors] from the point where [close()] has settled (or
    from the [if] when there is no context) to the end of [finally]. *)
Definition recoverEnd (env : Env) (s : State) : State :=
  let failed := fun st =>
    logError CONTEXT_ERROR "Recovery failed" None st in
  let tried :=
    match (if audioContext s then env_close env else None) with
    | Some _ => failed s
    | None =>
        let s1 :=
          clearErrors (if audioContext s then withContext false None s else s) in
        match initAudioContext env s1 with
        | (s2, Some _) => failed s2
        | (s2, None) =>
            if hasItemsInQueue s2 then setTimeout 500 s2 else s2
        end
    end in
  withRecovering false tried.


(** [setVolume(volume)]. *)
Definition setVolume (v : Q) (s : State) : State :=
  let clampedVolume := clampVolume v in
  let s1 := withVolume clampedVolume (isMuted s) s in
  match gainNode s1 with
  | Some _ =>
      if negb (isMuted s1)
      then withContext (audioContext s1) (Some clampedVolume) s1
      else s1
  | None => s1
  end.

Definition toggleMute (s : State) : State :=
  let s1 := withVolume (volume s) (negb (isMuted s)) s in
  match gainNode s1 with
  | Some _ =>
      withContext (audioContext s1)
        (Some (if isMuted s1 then 0%Q else volume s1)) s1
  | None => s1
  end.

Definition cleanup (s : State) : State :=
  clearErrors (withContext false None (clearQueue (stopPlayback s))).

(** What can happen to the queue manager. *)
Inductive Event :=
| EvEnqueue (env : Env) (audioData : list byte) (metadata : option Metadata)
| EvTimer (env : Env) (k : nat)     (* the k-th pending timer fires *)
| EvEnded (source : nat)            (* ended event of a started source *)
| EvRecover (env : Env)             (* recoverFromErrors() is called *)
| EvClosed (env : Env)              (* its audioContext.close() settles *)
| EvClearQueue
| EvClearErrors
| EvRemove (itemId : nat)
| EvSetVolume (v : Q)
| EvToggleMute
| EvStop                            (* stopPlayback() *)
| EvPause                           (* pauseQueue() *)
| EvResume (env : Env)              (* resumeQueue() *)
| EvPrepare (env : Env)             (* prepareAudioContext() *)
| EvCleanup.

Fixpoint dropNth {A : Type} (k : nat) (l : list A) : list A :=
  match l, k with
  | [], _ => []
  | _ :: t, O => t
  | h :: t, S j => h :: dropNth j t
  end.

Definition step (s : State) (e : Event) : State :=
  match e with
  | EvEnqueue env audioData metadata =>
      fst (enqueueAudio env audioData metadata s)
  | EvTimer env k =>
      if (k <? length (timers s))%nat
      then processQueue env (withTimers (dropNth k (timers s)) s)
      else s
  | EvEnded source =>
      if existsb (Nat.eqb source) (awaitingEnded s)
      then onended
             (withSources (nextSource s)
                (filter (fun x => negb (Nat.eqb x source)) (audible s))
                (filter (fun x => negb (Nat.eqb x source)) (awaitingEnded s))
                s)
      else s
  | EvRecover env =>
      let s1 := recoverBegin s in
      if audioContext s1 then withClosing (S (closing s1)) s1
      else recoverEnd env s1
  | EvClosed env =>
      match closing s with
      | O => s
      | S n => recoverEnd env (withClosing n s)
      end
  | EvClearQueue => clearQueue s
  | EvClearErrors => clearErrors s
  | EvRemove itemId => removeFromQueue itemId s
  | EvSetVolume v => setVolume v s
  | EvToggleMute => toggleMute s
  | EvStop => stopPlayback s
  | EvPause => pauseQueue s
  | EvResume env => resumeQueue env s
  | EvPrepare env => prepareAudioContext env s
  | EvCleanup => cleanup s
  end.

Definition run (s : State) (trace : list Event) : State :=
  fold_left step trace s.

(** The browser lets [playAudioBuffer] start a source for [audioData]:
    a context is there or can be created, it is not suspended, the data
    is not empty, decoding and starting the source raise nothing. *)
Definition playSucceeds (env : Env) (s : State) (audioData : list byte) : bool :=
  (audioContext s || match env_newContext env with None => true | Some _ => false end)
  && negb (env_suspended env)
  && match audioData with [] => false | _ :: _ => true end
  && match env_decode env with None => true | Some _ => false end
  && match env_start env with None => true | Some _ => false end.

(** How often the retry branch was taken for item [id]. *)
Definition retries (id : nat) (log : list Action) : nat :=
  length (filter (fun a => match a with
                           | Retried i => Nat.eqb i id
                           | _ => false
                           end) log).

(** The items played, in the order their playback started. *)
Definition played (log : list Action) : list nat :=
  flat_map (fun a => match a with Played i => [i] | _ => [] end) log.

(** An [enqueueAudio] call whose metadata carries no (or no negative)
    [retryCount] of its own, as every caller in the repository does. *)
Definition freshMetadata (e : Event) : Prop :=
  match e with
  | EvEnqueue _ _ (Some md) =>
      match md_retryCount md with
      | Some n => 0 <= n
      | None => True
      end
  | _ => True
  end.

(** The queue at work without failures: items are enqueued with valid
    data, timers fire, sources end, and the browser raises nothing. *)
Definition calm (env : Env) : bool :=
  match env_newContext env, env_decode env, env_start env with
  | None, None, None => negb (env_suspended env)
  | _, _, _ => false
  end.

Definition smooth (e : Event) : bool :=
  match e with
  | EvEnqueue env (_ :: _) _ => calm env
  | EvTimer env _ => calm env
  | EvResume env => calm env
  | EvEnded _ => true
  | _ => false
  end.

(** The events that turn [isRecovering] on: a [processQueue] run that
    finds the error counter at 5 or more (with something queued and
    nothing playing), and [recoverFromErrors] itself, which holds the flag
    while it waits for the context to close. *)
Definition setsRecovering (s : State) (e : Event) : bool :=
  match e with
  | EvEnqueue _ (_ :: _) _ => negb (isPlaying s) && (5 <=? errorCount s)
  | EvTimer _ k =>
      (k <? length (timers s))%nat && negb (isPlaying s) &&
      negb (isQueueEmpty s) && (5 <=? errorCount s)
  | EvResume _ =>
      negb (isPlaying s) && negb (isQueueEmpty s) && (5 <=? errorCount s)
  | EvRecover _ => audioContext s
  | _ => false
  end.

(** The events that turn [isRecovering] off: the end of
    [recoverFromErrors], and [clearErrors()], also when it is reached
    through [clearQueue()] or [cleanup()]. *)
Definition clearsRecovering (s : State) (e : Event) : bool :=
  match e with
  | EvRecover _ => negb (audioContext s)
  | EvClosed _ => negb (Nat.eqb (closing s) 0)
  | EvClearQueue | EvClearErrors | EvCleanup => true
  | _ => false
  end.

(** What the specification asks of [isRecovering]: only a crossed failure
    threshold sets it, only the recovery action clears it. *)
Definition recoveringDiscipline : Prop :=
  forall (s : State) (e : Event),
    (isRecovering s = false -> isRecovering (step s e) = true ->
     5 <= errorCount s) /\
    (isRecovering s = true -> isRecovering (step s e) = false ->
     exists env, e = EvRecover env \/ e = EvClosed env).

(** The bookkeeping invariant behind the retry bound, on the queue [q],
    the items accepted so far [enq], the console trail [acts] and the
    number [nid] of ids handed out:
    queued items carry distinct ids that were handed out, a queued item's
    retry count is at least the number of times it was retried, nobody
    was retried more than twice, ids not yet handed out were never
    retried, a queued item is a streaming chunk exactly if it was one
    when accepted, and no streaming chunk was ever retried. *)
Definition books (q enq : list AudioQueueItem) (acts : list Action) (nid : nat)
    : Prop :=
  (forall x, In x q -> (item_id x < nid)%nat) /\
  NoDup (map item_id q) /\
  (forall x, In x q ->
     Z.of_nat (retries (item_id x) acts) <= retryCountOf x) /\
  (forall id, (retries id acts <= 2)%nat) /\
  (forall id, (nid <= id)%nat -> retries id acts = 0%nat) /\
  (forall e, In e enq -> (item_id e < nid)%nat) /\
  (forall x e, In x q -> In e enq -> item_id x = item_id e ->
     isStreamingChunk x = isStreamingChunk e) /\
  (forall e, In e enq -> isStreamingChunk e = true ->
     retries (item_id e) acts = 0%nat).

Definition bookkeeping (s : State) : Prop :=
  books (audioQueue s) (enqueued s) (actions s) (nextId s).

(** The invariant of a queue at work without failures: no error counted,
    not recovering, [queueLength] in step with the queue, only valid
    items queued, the items played so far followed by the waiting ones
    are the accepted ones in order, and the one source that sounds is the
    current one, which is there exactly while [isPlaying]. *)
Definition orderly (s : State) : Prop :=
  errorCount s = 0 /\ isRecovering s = false /\
  queueLength s = length (audioQueue s) /\
  (forall q, In q (audioQueue s) -> item_audioData q <> []) /\
  (played (actions s) ++ map item_id (audioQueue s))%list =
    map item_id (enqueued s) /\
  match currentSource s with
  | Some src => isPlaying s = true /\ audible s = [src] /\ awaitingEnded s = [src]
  | None => isPlaying s = false /\ audible s = [] /\ awaitingEnded s = []
  end.

End Playback.

(** * Chunk deduplication

    The duplicate filter at the head of [processPCMChunk] in
    [useWebSocketAudio], in front of the streamer. *)
Module Dedup.

(** One hexadecimal digit of [Number.prototype.toString(16)]. *)
Definition hexDigit (n : N) : ascii :=
  match n with
  | 0%N => "0" | 1%N => "1" | 2%N => "2" | 3%N => "3" | 4%N => "4"
  | 5%N => "5" | 6%N => "6" | 7%N => "7" | 8%N => "8" | 9%N => "9"
  | 10%N => "a" | 11%N => "b" | 12%N => "c" | 13%N => "d" | 14%N => "e"
  | _ => "f"
  end%char.

(** [b.toString(16).padStart(2, '0')]. *)
Definition hexByte (b : byte) : string :=
  let n := Byte.to_N b in
  String (hexDigit (n / 16)) (String (hexDigit (n mod 16)) EmptyString).

(** The [chunkFingerprint]: [`${pcmData.byteLength}_${firstBytes}`], the
    hex of the first 16 bytes. *)
Definition fingerprint (pcmData : list byte) : string :=
  (NilEmpty.string_of_uint (Nat.to_uint (length pcmData)) ++ "_" ++
   String.concat "" (map hexByte (firstn 16 pcmData)))%string.

(** A JavaScript [Set<string>]: its members in insertion order. *)
Definition StringSet := list string.

Definition set_has (x : string) (m : StringSet) : bool :=
  existsb (String.eqb x) m.

Definition set_add (x : string) (m : StringSet) : StringSet :=
  if set_has x m then m else m ++ [x].

Definition set_delete (x : string) (m : StringSet) : StringSet :=
  filter (fun y => negb (String.eqb x y)) m.

Record State := mkState {
  processedChunks : StringSet;
  audioStreamer : option Streamer.State;
  currentStreamMetadata : bool;           (* a metadata object is stored *)
  isStreamingActive : bool;
  forwarded : list (list byte)            (* chunks handed to addPCM16 *)
}.

Definition init : State := mkState [] None false false [].

(** [processPCMChunk(pcmData, metadata)] at audio clock [now];
    [metadata] tells whether the argument is a metadata object. *)
Definition processPCMChunk (now : Q) (pcmData : list byte) (metadata : bool)
    (s : State) : State :=
  let chunkFingerprint := fingerprint pcmData in
  if set_has chunkFingerprint (processedChunks s) then s
  else
    let added := set_add chunkFingerprint (processedChunks s) in
    let kept :=
      if (100 <? length added)%nat then
        match added with
        | firstItem :: _ =>
            if String.eqb firstItem ""%string then added
            else set_delete firstItem added
        | [] => added
        end
      else added in
    match audioStreamer s with
    | None =>
        mkState kept None (currentStreamMetadata s) (isStreamingActive s)
                (forwarded s)
    | Some streamer =>
        let starts := negb (currentStreamMetadata s) && metadata in
        mkState kept
          (Some (Streamer.addPCM16 now pcmData streamer))
          (currentStreamMetadata s || starts)
          (isStreamingActive s || starts)
          (forwarded s ++ [pcmData])
    end.

(** Chunks arriving one after the other, each with its clock value. *)
Definition feed (s : State) (chunks : list (Q * list byte)) : State :=
  fold_left (fun st c => processPCMChunk (fst c) (snd c) true st) chunks s.

(** Two chunks hold the same bytes. *)
Fixpoint sameBytes (x y : list byte) : bool :=
  match x, y with
  | [], [] => true
  | a :: x', b :: y' => Byte.eqb a b && sameBytes x' y'
  | _, _ => false
  end.

(** How often the bytes [x] were handed to the streamer. *)
Definition forwardedTimes (x : list byte) (s : State) : nat :=
  length (filter (sameBytes x) (forwarded s)).

Definition submittedTimes (x : list byte) (chunks : list (Q * list byte)) : nat :=
  length (filter (fun c => sameBytes x (snd c)) chunks).

(** A cache as the filter builds it: fingerprints, each once, at most
    100 of them. *)
Definition wellFormedCache (cache : StringSet) : Prop :=
  NoDup cache /\ (length cache <= 100)%nat /\
  Forall (fun f => f <> ""%string) cache.

(** What the specification asks of the filter: bytes submitted twice
    within the window are forwarded exactly once. *)
Definition forwardsOnce : Prop :=
  forall (streamer : Streamer.State) (x : list byte)
         (chunks : list (Q * list byte)),
    (length chunks <= 100)%nat -> submittedTimes x chunks = 2%nat ->
    forwardedTimes x
      (feed (mkState [] (Some streamer) true true []) chunks) = 1%nat.

(** Two different chunks with one fingerprint: 17 bytes each, equal in
    the first 16. *)
Definition silence17 : list byte := repeat x00 17.
Definition click17 : list byte := repeat x00 16 ++ [x01].

(** A fingerprint with at most [k] entries behind it in the cache. *)
Definition cachedWithin (f : string) (k : nat) (cache : StringSet) : Prop :=
  exists older newer, cache = older ++ f :: newer /\ (length newer <= k)%nat.

End Dedup.

(** * Voice activity detection

    [useVoiceActivityDetection]: the volume of every analysis round either
    counts as voice or as silence; two timers debounce the switch between
    speaking and not speaking.  Times are [Date.now()] milliseconds. *)
Module VAD.

Open Scope Q_scope.

Record VADConfig := mkConfig {
  volumeThreshold : Q;
  silenceTimeout : Z;
  voiceTimeout : Z;
  analysisInterval : Z
}.

Definition defaultConfig : VADConfig := mkConfig (1 # 100) 1500 200 100.

Inductive Emitted :=
| VoiceStart                 (* onVoiceStart() *)
| VoiceEnd                   (* onVoiceEnd() *)
| VolumeChange (v : Q).      (* onVolumeChange(v) *)

Record State := mkState {
  vadConfig : VADConfig;
  isListening : bool;
  isSpeaking : bool;
  currentVolume : Q;
  lastVoiceActivity : Z;
  analyser : bool;                 (* analyser and dataArray are set *)
  silenceTimer : option Z;         (* pending timer: the time it is due *)
  voiceTimer : option Z;
  onVoiceStart : bool;             (* a callback is registered *)
  onVoiceEnd : bool;
  onVolumeChange : bool;
  emitted : list Emitted           (* callback calls, in order *)
}.

Definition init (config : VADConfig) : State :=
  mkState config false false 0 0 false None None false false false [].

Definition withSpeaking (b : bool) (s : State) : State :=
  mkState (vadConfig s) (isListening s) b (currentVolume s)
    (lastVoiceActivity s) (analyser s) (silenceTimer s) (voiceTimer s)
    (onVoiceStart s) (onVoiceEnd s) (onVolumeChange s) (emitted s).

Definition withSilenceTimer (t : option Z) (s : State) : State :=
  mkState (vadConfig s) (isListening s) (isSpeaking s) (currentVolume s)
    (lastVoiceActivity s) (analyser s) t (voiceTimer s)
    (onVoiceStart s) (onVoiceEnd s) (onVolumeChange s) (emitted s).

Definition withVoiceTimer (t : option Z) (s : State) : State :=
  mkState (vadConfig s) (isListening s) (isSpeaking s) (currentVolume s)
    (lastVoiceActivity s) (analyser s) (silenceTimer s) t
    (onVoiceStart s) (onVoiceEnd s) (onVolumeChange s) (emitted s).

Definition emit (e : Emitted) (s : State) : State :=
  mkState (vadConfig s) (isListening s) (isSpeaking s) (currentVolume s)
    (lastVoiceActivity s) (analyser s) (silenceTimer s) (voiceTimer s)
    (onVoiceStart s) (onVoiceEnd s) (onVolumeChange s) (emitted s ++ [e]).

(** [handleVoiceActivity]. *)
Definition handleVoiceActivity (now : Z) (s : State) : State :=
  let s1 :=
    mkState (vadConfig s) (isListening s) (isSpeaking s) (currentVolume s)
      now (analyser s) None (voiceTimer s)
      (onVoiceStart s) (onVoiceEnd s) (onVolumeChange s) (emitted s) in
  match isSpeaking s1, voiceTimer s1 with
  | false, None =>
      withVoiceTimer (Some (now + voiceTimeout (vadConfig s1))%Z) s1
  | _, _ => s1
  end.

(** The callback of the voice timer. *)
Definition voiceTimerFired (s : State) : State :=
  let s1 :=
    if isSpeaking s then s
    else
      let s2 := withSpeaking true s in
      if onVoiceStart s2 then emit VoiceStart s2 else s2 in
  withVoiceTimer None s1.

(** [handleSilence]. *)
Definition handleSilence (now : Z) (s : State) : State :=
  let s1 := withVoiceTimer None s in
  match isSpeaking s1, silenceTimer s1 with
  | true, None =>
      withSilenceTimer (Some (now + silenceTimeout (vadConfig s1))%Z) s1
  | _, _ => s1
  end.

(** The callback of the silence timer. *)
Definition silenceTimerFired (s : State) : State :=
  let s1 :=
    if isSpeaking s then
      let s2 := withSpeaking false s in
      if onVoiceEnd s2 then emit VoiceEnd s2 else s2
    else s in
  withSilenceTimer None s1.

(** [sum / dataArray.length / 255]. *)
Definition averageVolume (dataArray : list byte) : Q :=
  inject_Z (fold_left (fun sum b => (sum + Z.of_N (Byte.to_N b))%Z) dataArray 0%Z)
  / inject_Z (Z.of_nat (length dataArray)) / 255.

(** [analyzeVolume], one round of the analysis interval; [suspended]:
    the shared context is suspended, [dataArray]: what the analyser
    delivers. *)
Definition analyzeVolume (now : Z) (suspended : bool) (dataArray : list byte)
    (s : State) : State :=
  if negb (analyser s) then s
  else if suspended then s
  else
    let v := averageVolume dataArray in
    let s1 :=
      mkState (vadConfig s) (isListening s) (isSpeaking s) v
        (lastVoiceActivity s) (analyser s) (silenceTimer s) (voiceTimer s)
        (onVoiceStart s) (onVoiceEnd s) (onVolumeChange s) (emitted s) in
    let s2 := if onVolumeChange s1 then emit (VolumeChange v) s1 else s1 in
    if Qltb (volumeThreshold (vadConfig s2)) v
    then handleVoiceActivity now s2
    else handleSilence now s2.

(** [startVAD], microphone and context granted. *)
Definition startVAD (s : State) : State :=
  mkState (vadConfig s) true (isSpeaking s) (currentVolume s)
    (lastVoiceActivity s) true (silenceTimer s) (voiceTimer s)
    (onVoiceStart s) (onVoiceEnd s) (onVolumeChange s) (emitted s).

Definition stopVAD (s : State) : State :=
  mkState (vadConfig s) false false 0
    (lastVoiceActivity s) false None None
    (onVoiceStart s) (onVoiceEnd s) (onVolumeChange s) (emitted s).

Definition setCallbacks (voiceStart voiceEnd volumeChange : bool) (s : State)
    : State :=
  mkState (vadConfig s) (isListening s) (isSpeaking s) (currentVolume s)
    (lastVoiceActivity s) (analyser s) (silenceTimer s) (voiceTimer s)
    voiceStart voiceEnd volumeChange (emitted s).

Definition forceSpeaking (speaking : bool) (s : State) : State :=
  let s1 := withSpeaking speaking s in
  if speaking then (if onVoiceStart s1 then emit VoiceStart s1 else s1)
  else (if onVoiceEnd s1 then emit VoiceEnd s1 else s1).

(** What can happen to a running detector. *)
Inductive Event :=
| EvAnalyze (suspended : bool) (dataArray : list byte)
| EvVoiceTimer            (* the pending voice timer fires *)
| EvSilenceTimer.         (* the pending silence timer fires *)

Definition step (s : State) (e : Z * Event) : State :=
  match snd e with
  | EvAnalyze suspended dataArray => analyzeVolume (fst e) suspended dataArray s
  | EvVoiceTimer =>
      match voiceTimer s with
      | Some _ => voiceTimerFired s
      | None => s
      end
  | EvSilenceTimer =>
      match silenceTimer s with
      | Some _ => silenceTimerFired s
      | None => s
      end
  end.

Definition run (s : State) (trace : list (Z * Event)) : State :=
  fold_left step trace s.

(** A timer fires only when it is pending and due. *)
Definition deliverable (s : State) (e : Z * Event) : bool :=
  match snd e with
  | EvAnalyze _ _ => true
  | EvVoiceTimer =>
      match voiceTimer s with
      | Some due => (due <=? fst e)%Z
      | None => false
      end
  | EvSilenceTimer =>
      match silenceTimer s with
      | Some due => (due <=? fst e)%Z
      | None => false
      end
  end.

Fixpoint feasible (s : State) (clock : Z) (trace : list (Z * Event)) : bool :=
  match trace with
  | [] => true
  | e :: rest =>
      (clock <=? fst e)%Z && deliverable s e && feasible (step s e) (fst e) rest
  end.

(** Number of [onVoiceStart] calls in a callback log. *)
Definition voiceStarts (log : list Emitted) : nat :=
  length (filter (fun e => match e with VoiceStart => true | _ => false end) log).

(** An analysis round whose volume counts as voice under [cfg]. *)
Definition loud (cfg : VADConfig) (e : Z * Event) : Prop :=
  match snd e with
  | EvAnalyze false dataArray => volumeThreshold cfg < averageVolume dataArray
  | _ => False
  end.

(** An analysis round whose volume is at or below the threshold. *)
Definition faint (cfg : VADConfig) (e : Z * Event) : Prop :=
  match snd e with
  | EvAnalyze false dataArray => averageVolume dataArray <= volumeThreshold cfg
  | _ => False
  end.

End VAD.

(** * Audio capture

    The microphone side of [useAudioCapture]: the recorder worklet that
    turns the float samples of every render quantum into 16-bit PCM and
    posts them in chunks of 2048 samples, and the two other float to
    PCM16 conversions of the composable. *)
Module Capture.

Open Scope Z_scope.

(** The integer part of a number, rounding toward zero. *)
Definition truncate (x : Q) : Z := Z.quot (Qnum x) (Z.pos (Qden x)).

(** What an [Int16Array] element holds after [a[i] = x] (ToInt16 of
    ECMAScript): the integer part of [x], wrapped modulo 2^16 into
    [-32768, 32767]. *)
Definition toInt16 (x : Q) : Z :=
  let int16bit := truncate x mod 65536 in
  if int16bit <? 32768 then int16bit else int16bit - 65536.

(** The byte holding the low eight bits of [n]. *)
Definition byteOf (n : Z) : byte :=
  match Byte.of_N (Z.to_N (n mod 256)) with
  | Some b => b
  | None => x00
  end.

(** The bytes of the [ArrayBuffer] behind an [Int16Array]: two per
    element, two's complement, low byte first (the byte order of the
    platforms browsers run on). *)
Definition bufferBytes (a : list Z) : list byte :=
  flat_map (fun v => [byteOf v; byteOf (v / 256)]) a.

(** [class AudioProcessingWorklet]. *)
Record Worklet := mkWorklet {
  buffer : list Z;              (* Int16Array(2048) *)
  bufferWriteIndex : nat;
  posted : list (list Z)        (* the "chunk" messages posted, in order *)
}.

Definition newWorklet : Worklet :=
  mkWorklet (repeat 0 (N.to_nat 2048)) 0 [].

(** [sendAndClearBuffer]. *)
Definition sendAndClearBuffer (w : Worklet) : Worklet :=
  mkWorklet (buffer w) 0
    (posted w ++ [firstn (bufferWriteIndex w) (buffer w)]).

Definition sendIfFull (w : Worklet) : Worklet :=
  if (length (buffer w) <=? bufferWriteIndex w)%nat
  then sendAndClearBuffer w else w.

(** [processChunk(float32Array)]: the loop over the samples, then the
    check after it. *)
Fixpoint processChunk (float32Array : list Q) (w : Worklet) : Worklet :=
  match float32Array with
  | [] => sendIfFull w
  | sample :: rest =>
      let int16Value := (sample * 32768)%Q in
      processChunk rest
        (sendIfFull
           (mkWorklet
              (array_set (buffer w) (bufferWriteIndex w) (toInt16 int16Value))
              (S (bufferWriteIndex w)) (posted w)))
  end.

(** [process(inputs)]; [input0] is [inputs[0]], the channels of the one
    input of the node. *)
Definition process (input0 : list (list Q)) (w : Worklet) : Worklet :=
  match input0 with
  | [] => w
  | channel0 :: _ => processChunk channel0 w
  end.

(** The render quanta of a recording, one after the other. *)
Definition record (quanta : list (list (list Q))) : Worklet :=
  fold_left (fun w input0 => process input0 w) quanta newWorklet.

(** The samples the worklet is given: channel 0 of every quantum that has
    a channel. *)
Definition channel0Samples (quanta : list (list (list Q))) : list Q :=
  flat_map (fun input0 => match input0 with
                          | [] => []
                          | channel0 :: _ => channel0
                          end) quanta.

(** The conversion loop of the [onaudioprocess] handler (the script
    processor recorder): [Math.max(-32768, Math.min(32767, x * 32768))]
    stored into an [Int16Array]. *)
Definition onaudioprocess (inputBuffer : list Q) : list Z :=
  map (fun x => toInt16 (Qmax (-32768) (Qmin 32767 (x * 32768)))) inputBuffer.

(** [convertFloat32ToInt16(buffer)], as the elements of its
    [Int16Array]. *)
Definition convertFloat32ToInt16 (buffer : list Q) : list Z :=
  map (fun x => let sample := Qmin 1 (Qmax (-1) x) in
                toInt16 (sample * 32767)) buffer.

End Capture.

(** * Application store

    [useAppStore] of store/appStore.ts, the store the audio composables
    report to: connection and audio flags, the message list (the last
    100), the current error and the error history (the last 20), and the
    notifications, each removed by its own timer after five seconds.
    Every action takes the [Date.now()] value of the moment it runs. *)
Module Store.

Open Scope string_scope.
Open Scope list_scope.
Open Scope Z_scope.

Inductive MessageType := Transcription | Response | Error | Status.

Record SystemMessage := mkMessage {
  msg_type : MessageType;
  msg_content : string;
  msg_timestamp : Z
}.

Record AppError := mkAppError {
  app_code : string;
  app_message : string;
  app_details : option string;
  app_timestamp : Z
}.

Record State := mkState {
  isConnected : bool;
  isRecording : bool;
  isPlaying : bool;
  volume : Q;
  isMuted : bool;
  transcription : string;
  systemResponse : string;
  messages : list SystemMessage;
  isConnecting : bool;
  isInitializing : bool;
  currentView : string;
  error : option AppError;
  errorHistory : list AppError;
  notifications : list SystemMessage;
  (* the environment: the pending auto-remove timers, oldest first, each
     with the time stamp it will remove *)
  removals : list Z
}.

Definition init : State :=
  mkState false false false 1%Q false EmptyString EmptyString [] false false
          "home" None [] [] [].

(** [a.slice(-n)]: the last [n] elements. *)
Definition lastN {A : Type} (n : nat) (a : list A) : list A :=
  skipn (length a - n) a.

(** The computed properties. *)
Definition hasError (s : State) : bool :=
  match error s with Some _ => true | None => false end.
Definition hasMessages (s : State) : bool :=
  (0 <? length (messages s))%nat.
Definition hasNotifications (s : State) : bool :=
  (0 <? length (notifications s))%nat.
Definition canRecord (s : State) : bool := isConnected s && negb (isRecording s).
Definition canConnect (s : State) : bool :=
  negb (isConnected s) && negb (isConnecting s).
Definition latestMessage (s : State) : option SystemMessage :=
  if (0 <? length (messages s))%nat
  then nth_error (messages s) (length (messages s) - 1)
  else None.

Definition clearError (s : State) : State :=
  mkState (isConnected s) (isRecording s) (isPlaying s) (volume s) (isMuted s)
    (transcription s) (systemResponse s) (messages s) (isConnecting s)
    (isInitializing s) (currentView s) None (errorHistory s)
    (notifications s) (removals s).

Definition setConnectionStatus (status : bool) (s : State) : State :=
  let s1 :=
    mkState status (isRecording s) (isPlaying s) (volume s) (isMuted s)
      (transcription s) (systemResponse s) (messages s) (isConnecting s)
      (isInitializing s) (currentView s) (error s) (errorHistory s)
      (notifications s) (removals s) in
  if status then
    clearError
      (mkState (isConnected s1) (isRecording s1) (isPlaying s1) (volume s1)
         (isMuted s1) (transcription s1) (systemResponse s1) (messages s1)
         false (isInitializing s1) (currentView s1) (error s1)
         (errorHistory s1) (notifications s1) (removals s1))
  else s1.

Definition setConnectingStatus (status : bool) (s : State) : State :=
  let s1 :=
    mkState (isConnected s) (isRecording s) (isPlaying s) (volume s)
      (isMuted s) (transcription s) (systemResponse s) (messages s) status
      (isInitializing s) (currentView s) (error s) (errorHistory s)
      (notifications s) (removals s) in
  if status then clearError s1 else s1.

Definition setRecordingStatus (status : bool) (s : State) : State :=
  mkState (isConnected s) status (isPlaying s) (volume s) (isMuted s)
    (transcription s) (systemResponse s) (messages s) (isConnecting s)
    (isInitializing s) (currentView s) (error s) (errorHistory s)
    (notifications s) (removals s).

Definition setPlayingStatus (status : bool) (s : State) : State :=
  mkState (isConnected s) (isRecording s) status (volume s) (isMuted s)
    (transcription s) (systemResponse s) (messages s) (isConnecting s)
    (isInitializing s) (currentView s) (error s) (errorHistory s)
    (notifications s) (removals s).

(** [setVolume(newVolume)]: the clamped value is stored; a positive
    argument also unmutes. *)
Definition setVolume (newVolume : Q) (s : State) : State :=
  mkState (isConnected s) (isRecording s) (isPlaying s) (clampVolume newVolume)
    (if Qltb 0 newVolume then false else isMuted s)
    (transcription s) (systemResponse s) (messages s) (isConnecting s)
    (isInitializing s) (currentView s) (error s) (errorHistory s)
    (notifications s) (removals s).

Definition toggleMute (s : State) : State :=
  mkState (isConnected s) (isRecording s) (isPlaying s) (volume s)
    (negb (isMuted s))
    (transcription s) (systemResponse s) (messages s) (isConnecting s)
    (isInitializing s) (currentView s) (error s) (errorHistory s)
    (notifications s) (removals s).

Definition withMessages (m : list SystemMessage) (s : State) : State :=
  mkState (isConnected s) (isRecording s) (isPlaying s) (volume s) (isMuted s)
    (transcription s) (systemResponse s) m (isConnecting s)
    (isInitializing s) (currentView s) (error s) (errorHistory s)
    (notifications s) (removals s).

(** [addMessage(type, content)]: only the last 100 messages are kept. *)
Definition addMessage (now : Z) (type : MessageType) (content : string)
    (s : State) : State :=
  let pushed := messages s ++ [mkMessage type content now] in
  withMessages
    (if (100 <? length pushed)%nat then lastN 100 pushed else pushed) s.

Definition clearMessages (s : State) : State := withMessages [] s.

Definition withTexts (t r : string) (s : State) : State :=
  mkState (isConnected s) (isRecording s) (isPlaying s) (volume s) (isMuted s)
    t r (messages s) (isConnecting s)
    (isInitializing s) (currentView s) (error s) (errorHistory s)
    (notifications s) (removals s).

Definition updateTranscription (now : Z) (text : string) (s : State) : State :=
  addMessage now Transcription text (withTexts text (systemResponse s) s).

(** The text shown for a [Blob], "[Dados de audio recebidos]" with its
    accented a (two bytes in UTF-8). *)
Definition blobText : string :=
  ("[Dados de " ++
   String "195"%char (String "161"%char "udio recebidos]"))%string.

(** The argument of [updateSystemResponse]: a string, a [Blob], or any
    other value, which [String(text)] renders as [shown]. *)
Inductive ResponseText :=
| AString (text : string)
| ABlob
| AnyOther (shown : string).

Definition updateSystemResponse (now : Z) (text : ResponseText) (s : State)
    : State :=
  let responseText :=
    match text with
    | AString t => t
    | ABlob => blobText
    | AnyOther shown => shown
    end in
  addMessage now Response responseText
    (withTexts (transcription s) responseText s).

Definition appendTranscription (text : string) (s : State) : State :=
  withTexts (transcription s ++ text)%string (systemResponse s) s.

Definition clearTranscription (s : State) : State :=
  withTexts EmptyString (systemResponse s) s.

Definition clearSystemResponse (s : State) : State :=
  withTexts (transcription s) EmptyString s.

(** [addNotification(type, content)]: the notification is pushed and a
    five-second timer is set that removes it by its time stamp. *)
Definition addNotification (now : Z) (type : MessageType) (content : string)
    (s : State) : State :=
  mkState (isConnected s) (isRecording s) (isPlaying s) (volume s) (isMuted s)
    (transcription s) (systemResponse s) (messages s) (isConnecting s)
    (isInitializing s) (currentView s) (error s) (errorHistory s)
    (notifications s ++ [mkMessage type content now])
    (removals s ++ [now]).

(** [notifications.splice(index, 1)] at the first index whose time stamp
    is [timestamp]. *)
Fixpoint spliceFirst (timestamp : Z) (l : list SystemMessage)
    : list SystemMessage :=
  match l with
  | [] => []
  | n :: rest =>
      if msg_timestamp n =? timestamp then rest
      else n :: spliceFirst timestamp rest
  end.

Definition removeNotification (timestamp : Z) (s : State) : State :=
  mkState (isConnected s) (isRecording s) (isPlaying s) (volume s) (isMuted s)
    (transcription s) (systemResponse s) (messages s) (isConnecting s)
    (isInitializing s) (currentView s) (error s) (errorHistory s)
    (spliceFirst timestamp (notifications s)) (removals s).

Definition clearNotifications (s : State) : State :=
  mkState (isConnected s) (isRecording s) (isPlaying s) (volume s) (isMuted s)
    (transcription s) (systemResponse s) (messages s) (isConnecting s)
    (isInitializing s) (currentView s) (error s) (errorHistory s)
    [] (removals s).

(** [setError(code, message, details)]: the error becomes the current
    one, joins the history (the last 20 are kept) and is announced as a
    notification. *)
Definition setError (now : Z) (code message : string) (details : option string)
    (s : State) : State :=
  let newError := mkAppError code message details now in
  let pushed := errorHistory s ++ [newError] in
  addNotification now Error (code ++ ": " ++ message)%string
    (mkState (isConnected s) (isRecording s) (isPlaying s) (volume s)
       (isMuted s) (transcription s) (systemResponse s) (messages s)
       (isConnecting s) (isInitializing s) (currentView s) (Some newError)
       (if (20 <? length pushed)%nat then lastN 20 pushed else pushed)
       (notifications s) (removals s)).

Definition setInitializingStatus (status : bool) (s : State) : State :=
  mkState (isConnected s) (isRecording s) (isPlaying s) (volume s) (isMuted s)
    (transcription s) (systemResponse s) (messages s) (isConnecting s)
    status (currentView s) (error s) (errorHistory s)
    (notifications s) (removals s).

Definition setCurrentView (view : string) (s : State) : State :=
  mkState (isConnected s) (isRecording s) (isPlaying s) (volume s) (isMuted s)
    (transcription s) (systemResponse s) (messages s) (isConnecting s)
    (isInitializing s) view (error s) (errorHistory s)
    (notifications s) (removals s).

(** [resetState]: everything goes back to its initial value, except the
    error history, which it does not touch. *)
Definition resetState (s : State) : State :=
  mkState false false false 1%Q false EmptyString EmptyString [] false false
    "home" None (errorHistory s) [] (removals s).

Definition resetAudioState (s : State) : State :=
  mkState (isConnected s) false false (volume s) (isMuted s)
    EmptyString EmptyString (messages s) (isConnecting s)
    (isInitializing s) (currentView s) (error s) (errorHistory s)
    (notifications s) (removals s).

(** The callback of the oldest auto-remove timer (all timers run five
    seconds, so they fire in the order they were set). *)
Definition removalTimerFired (s : State) : State :=
  match removals s with
  | [] => s
  | timestamp :: rest =>
      removeNotification timestamp
        (mkState (isConnected s) (isRecording s) (isPlaying s) (volume s)
           (isMuted s) (transcription s) (systemResponse s) (messages s)
           (isConnecting s) (isInitializing s) (currentView s) (error s)
           (errorHistory s) (notifications s) rest)
  end.

(** What can happen to the store. *)
Inductive Event :=
| EvSetConnectionStatus (status : bool)
| EvSetConnectingStatus (status : bool)
| EvSetRecordingStatus (status : bool)
| EvSetPlayingStatus (status : bool)
| EvSetVolume (newVolume : Q)
| EvToggleMute
| EvUpdateTranscription (text : string)
| EvUpdateSystemResponse (text : ResponseText)
| EvAppendTranscription (text : string)
| EvClearTranscription
| EvClearSystemResponse
| EvAddMessage (type : MessageType) (content : string)
| EvClearMessages
| EvSetError (code message : string) (details : option string)
| EvClearError
| EvAddNotification (type : MessageType) (content : string)
| EvRemoveNotification (timestamp : Z)
| EvClearNotifications
| EvSetInitializingStatus (status : bool)
| EvSetCurrentView (view : string)
| EvResetState
| EvResetAudioState
| EvRemovalTimer.

Definition step (s : State) (e : Z * Event) : State :=
  let now := fst e in
  match snd e with
  | EvSetConnectionStatus status => setConnectionStatus status s
  | EvSetConnectingStatus status => setConnectingStatus status s
  | EvSetRecordingStatus status => setRecordingStatus status s
  | EvSetPlayingStatus status => setPlayingStatus status s
  | EvSetVolume newVolume => setVolume newVolume s
  | EvToggleMute => toggleMute s
  | EvUpdateTranscription text => updateTranscription now text s
  | EvUpdateSystemResponse text => updateSystemResponse now text s
  | EvAppendTranscription text => appendTranscription text s
  | EvClearTranscription => clearTranscription s
  | EvClearSystemResponse => clearSystemResponse s
  | EvAddMessage type content => addMessage now type content s
  | EvClearMessages => clearMessages s
  | EvSetError code message details => setError now code message details s
  | EvClearError => clearError s
  | EvAddNotification type content => addNotification now type content s
  | EvRemoveNotification timestamp => removeNotification timestamp s
  | EvClearNotifications => clearNotifications s
  | EvSetInitializingStatus status => setInitializingStatus status s
  | EvSetCurrentView view => setCurrentView view s
  | EvResetState => resetState s
  | EvResetAudioState => resetAudioState s
  | EvRemovalTimer => removalTimerFired s
  end.

Definition run (s : State) (trace : list (Z * Event)) : State :=
  fold_left step trace s.

(** The messages a trace hands to [addMessage] after the last
    [clearMessages] or [resetState], in order. *)
Fixpoint logged (acc : list SystemMessage) (trace : list (Z * Event))
    : list SystemMessage :=
  match trace with
  | [] => acc
  | (now, e) :: rest =>
      match e with
      | EvAddMessage type content =>
          logged (acc ++ [mkMessage type content now]) rest
      | EvUpdateTranscription text =>
          logged (acc ++ [mkMessage Transcription text now]) rest
      | EvUpdateSystemResponse text =>
          logged (acc ++ [mkMessage Response
                            (match text with
                             | AString t => t
                             | ABlob => blobText
                             | AnyOther shown => shown
                             end) now]) rest
      | EvClearMessages | EvResetState => logged [] rest
      | _ => logged acc rest
      end
  end.

(** The errors a trace reports through [setError], in order. *)
Fixpoint reported (trace : list (Z * Event)) : list AppError :=
  match trace with
  | [] => []
  | (now, EvSetError code message details) :: rest =>
      mkAppError code message details now :: reported rest
  | _ :: rest => reported rest
  end.

End Store.

(** * WebSocket message handler

    [handleWebSocketMessage] of [useWebSocketAudio] with
    [initializeAudioStreamerForNewStream] and [finalizePCMStream], and
    the stream resets of [onopen], [onclose], [disconnect] and
    [cleanup]: how the messages of the server drive the PCM stream state
    ([currentStreamMetadata], [isStreamingActive], [currentResponseId],
    the streamer and the duplicate cache).

    Granularity.  A handler runs to its first wait.  The [audio_chunk]
    handler that needs a new streamer waits for the shared audio
    context; it is split there, and any other event may come in between.
    What follows the wait (the streamer is created, then, back in the
    handler, the metadata is stored) runs in consecutive microtasks, so
    no message, timer or ended event comes in between: it is one step.
    What the handler tells the store is recorded as a list of calls; the
    callbacks of the streamer are the streamer's own logs. *)
Module Socket.

Open Scope string_scope.
Open Scope list_scope.

Inductive MessageKind :=
| Msg_transcription | Msg_response | Msg_audio_chunk | Msg_audio_complete
| Msg_connection_established | Msg_error | Msg_status | Msg_audio_received
| Msg_other.

(** The fields of a parsed message the handler reads; [format],
    [channels], [bits_per_sample] and [streaming] are only copied into
    the metadata and read nowhere.  [None] is [undefined]. *)
Record WebSocketMessage := mkMessage {
  msg_type : MessageKind;
  msg_content : option string;
  msg_timestamp : option string;     (* message.timestamp?.toString() *)
  msg_sample_rate : option Q
}.

(** [JSON.parse(event.data)]: the message, or the text of the exception
    raised before the [switch] is reached. *)
Inductive Parsed :=
| Parsed_ok (message : WebSocketMessage)
| Parsed_error (text : string).

Inductive StoreCall :=
| AddMessage (type : Store.MessageType) (content : string)
| SetError (code message details : string)
| AddNotification (type : Store.MessageType) (content : string).

Record State := mkState {
  pcm : Dedup.State;                (* cache, streamer, metadata stored?, active *)
  metadataSampleRate : option Q;    (* currentStreamMetadata.value.sample_rate *)
  currentResponseId : option string;
  (* the environment *)
  pendingInits : list (option Q);   (* audio_chunk handlers waiting for the
                                       audio context: their sample_rate *)
  retired : list Streamer.State;    (* streamers this composable let go of *)
  storeCalls : list StoreCall
}.

Definition init : State := mkState Dedup.init None None [] [] [].

Definition removeAt {A : Type} (k : nat) (a : list A) : list A :=
  firstn k a ++ skipn (S k) a.

(** A string is truthy unless it is empty or absent. *)
Definition truthy (content : option string) : option string :=
  match content with
  | Some EmptyString | None => None
  | Some text => Some text
  end.

Definition orElse (content : option string) (fallback : string) : string :=
  match truthy content with
  | Some text => text
  | None => fallback
  end.

(** The texts of two notifications, "Reproducao de audio finalizada"
    and "Conexao estabelecida"; their accented letters (c with cedilla,
    a with tilde, a with acute) are spelled as UTF-8 bytes. *)
Definition playbackFinishedText : string :=
  "Reprodu" ++ String "195" (String "167" (String "195" (String "163"
  ("o de " ++ String "195" (String "161" "udio finalizada"))))).

Definition connectionEstablishedText : string :=
  "Conex" ++ String "195" (String "163" "o estabelecida").

Definition withPcm (p : Dedup.State) (s : State) : State :=
  mkState p (metadataSampleRate s) (currentResponseId s) (pendingInits s)
          (retired s) (storeCalls s).

Definition tell (call : StoreCall) (s : State) : State :=
  mkState (pcm s) (metadataSampleRate s) (currentResponseId s)
          (pendingInits s) (retired s) (storeCalls s ++ [call]).

(** [currentStreamMetadata.value = null; isStreamingActive.value = false]. *)
Definition dropMetadata (p : Dedup.State) : Dedup.State :=
  Dedup.mkState (Dedup.processedChunks p) (Dedup.audioStreamer p) false false
                (Dedup.forwarded p).

(** [if (audioStreamer) { audioStreamer.stop(); audioStreamer = null }]. *)
Definition stopStreamer (now : Q) (s : State) : State :=
  match Dedup.audioStreamer (pcm s) with
  | None => s
  | Some streamer =>
      mkState
        (Dedup.mkState (Dedup.processedChunks (pcm s)) None
           (Dedup.currentStreamMetadata (pcm s))
           (Dedup.isStreamingActive (pcm s)) (Dedup.forwarded (pcm s)))
        (metadataSampleRate s) (currentResponseId s) (pendingInits s)
        (retired s ++ [Streamer.stop now streamer]) (storeCalls s)
  end.

(** The stream reset of [disconnect] and of [onclose]: the metadata is
    dropped, the streamer stopped and let go. *)
Definition resetStream (now : Q) (s : State) : State :=
  let s1 := stopStreamer now s in
  mkState (dropMetadata (pcm s1)) None (currentResponseId s1)
          (pendingInits s1) (retired s1) (storeCalls s1).

(** [finalizePCMStream]. *)
Definition finalizePCMStream (now : Q) (s : State) : State :=
  let completed :=
    match Dedup.audioStreamer (pcm s) with
    | None => pcm s
    | Some streamer =>
        Dedup.mkState (Dedup.processedChunks (pcm s))
          (Some (Streamer.complete now streamer))
          (Dedup.currentStreamMetadata (pcm s))
          (Dedup.isStreamingActive (pcm s)) (Dedup.forwarded (pcm s))
    end in
  mkState (dropMetadata completed) None None (pendingInits s) (retired s)
          (storeCalls s).

(** [a !== b] on two [sample_rate] values. *)
Definition differentRate (a b : option Q) : bool :=
  match a, b with
  | Some x, Some y => negb (Qeq_bool x y)
  | None, None => false
  | _, _ => true
  end.

(** [message.sample_rate || 24000]. *)
Definition rateOr24000 (rate : option Q) : Q :=
  match rate with
  | Some r => if Qeq_bool r 0 then 24000 else r
  | None => 24000
  end.

(** The [audio_chunk] case up to the wait in
    [initializeAudioStreamerForNewStream], or to its end when the stream
    goes on with the streamer it has. *)
Definition audioChunk (now : Q) (message : WebSocketMessage) (s : State)
    : State :=
  let p := pcm s in
  let needsNewStreamer :=
    negb (Dedup.isStreamingActive p) ||
    match Dedup.audioStreamer p with None => true | Some _ => false end ||
    (Dedup.currentStreamMetadata p &&
     differentRate (metadataSampleRate s) (msg_sample_rate message)) in
  if needsNewStreamer then
    let s1 := stopStreamer now s in
    mkState (pcm s1) (metadataSampleRate s1) (currentResponseId s1)
            (pendingInits s1 ++ [msg_sample_rate message]) (retired s1)
            (storeCalls s1)
  else
    mkState
      (Dedup.mkState (Dedup.processedChunks p) (Dedup.audioStreamer p) true true
                     (Dedup.forwarded p))
      (msg_sample_rate message) (currentResponseId s) (pendingInits s)
      (retired s) (storeCalls s).

(** The rest of the [audio_chunk] case once the wait is over: the new
    streamer takes the place of whatever is there, gets the playback
    volume, and the metadata of the message is stored.  With [failure]
    the wait ended in an exception, which the handler reports;
    [accepted] tells whether the context takes the rate of the new
    streamer. *)
Definition initSettled (sample_rate : option Q) (failure : option string)
    (volume : Q) (accepted : bool) (s : State) : State :=
  match failure with
  | Some text =>
      tell (SetError "WEBSOCKET_MESSAGE_ERROR" "Erro ao processar mensagem" text) s
  | None =>
      let streamer :=
        Streamer.setVolume volume
          (Streamer.newStreamer accepted (rateOr24000 sample_rate)) in
      mkState
        (Dedup.mkState (Dedup.processedChunks (pcm s)) (Some streamer) true true
                       (Dedup.forwarded (pcm s)))
        sample_rate (currentResponseId s) (pendingInits s)
        (match Dedup.audioStreamer (pcm s) with
         | Some old => retired s ++ [old]
         | None => retired s
         end)
        (storeCalls s)
  end.

(** The [switch] over the type of a parsed message; [date] is
    [Date.now()]. *)
Definition handleJSON (now : Q) (date : Z) (message : WebSocketMessage)
    (s : State) : State :=
  match msg_type message with
  | Msg_transcription =>
      match truthy (msg_content message) with
      | Some text => tell (AddMessage Store.Transcription text) s
      | None => s
      end
  | Msg_response =>
      let s1 :=
        match truthy (msg_content message) with
        | Some text => tell (AddMessage Store.Response text) s
        | None => s
        end in
      let responseId :=
        orElse (msg_timestamp message)
               (NilEmpty.string_of_int (Z.to_int date)) in
      let known :=
        match currentResponseId s1 with
        | Some id => String.eqb id responseId
        | None => false
        end in
      if known then s1
      else
        mkState (dropMetadata (pcm s1)) None (Some responseId)
                (pendingInits s1) (retired s1) (storeCalls s1)
  | Msg_audio_chunk => audioChunk now message s
  | Msg_audio_complete =>
      let s1 := finalizePCMStream now s in
      tell (AddNotification Store.Status playbackFinishedText)
        (mkState (pcm s1) (metadataSampleRate s1) None (pendingInits s1)
                 (retired s1) (storeCalls s1))
  | Msg_connection_established =>
      tell (AddNotification Store.Status connectionEstablishedText) s
  | Msg_error =>
      tell (SetError "SERVER_ERROR" "Erro do servidor"
              (orElse (msg_content message) "Erro desconhecido do servidor")) s
  | Msg_status =>
      tell (AddNotification Store.Status
              (orElse (msg_content message) "Status atualizado")) s
  | Msg_audio_received => s
  | Msg_other => s
  end.

(** Binary data: it goes to [processPCMChunk] if metadata is stored, and
    is ignored otherwise. *)
Definition handleBinary (now : Q) (data : list byte) (s : State) : State :=
  if Dedup.currentStreamMetadata (pcm s)
  then withPcm (Dedup.processPCMChunk now data true (pcm s)) s
  else s.

(** The events of the streamer that come from outside this composable:
    its timers, the ended events of its sources, and the [setVolume] of
    the volume watchers. *)
Definition fromOutside (e : Streamer.Event) : bool :=
  match e with
  | Streamer.EvTimeout | Streamer.EvInterval | Streamer.EvEnded _
  | Streamer.EvRebuild | Streamer.EvSetVolume _ => true
  | _ => false
  end.

Inductive Event :=
| EvText (parsed : Parsed) (date : Z)      (* a string message *)
| EvBinary (data : list byte)              (* an ArrayBuffer *)
| EvBlob (read : list byte + string)       (* a Blob; its arrayBuffer() has
                                              settled, with bytes or an error *)
| EvUnknownData                            (* any other data *)
| EvInitSettled (k : nat) (failure : option string) (volume : Q)
                (accepted : bool)
                                           (* the k-th waiting handler goes on *)
| EvOpen                                   (* the stream reset of onopen *)
| EvDisconnect                             (* the stream reset of onclose and
                                              of disconnect *)
| EvCleanup (failure : bool)               (* cleanup; with [failure] an
                                              exception ends it after its
                                              disconnect() *)
| EvStreamer (e : Streamer.Event).         (* an event of the current streamer *)

Definition step (s : State) (e : Q * Event) : State :=
  let now := fst e in
  match snd e with
  | EvText (Parsed_ok message) date => handleJSON now date message s
  | EvText (Parsed_error text) _ =>
      tell (SetError "WEBSOCKET_MESSAGE_ERROR" "Erro ao processar mensagem" text) s
  | EvBinary data => handleBinary now data s
  | EvBlob (inl data) => handleBinary now data s
  | EvBlob (inr text) =>
      tell (SetError "WEBSOCKET_MESSAGE_ERROR" "Erro ao processar mensagem" text) s
  | EvUnknownData => s
  | EvInitSettled k failure volume accepted =>
      match nth_error (pendingInits s) k with
      | None => s
      | Some sample_rate =>
          initSettled sample_rate failure volume accepted
            (mkState (pcm s) (metadataSampleRate s) (currentResponseId s)
                     (removeAt k (pendingInits s)) (retired s) (storeCalls s))
      end
  | EvOpen =>
      let s1 := stopStreamer now s in
      mkState
        (Dedup.mkState [] (Dedup.audioStreamer (pcm s1)) false false
                       (Dedup.forwarded (pcm s1)))
        None (currentResponseId s1) (pendingInits s1) (retired s1)
        (storeCalls s1)
  | EvDisconnect => resetStream now s
  | EvCleanup failure =>
      let s1 := resetStream now s in
      if failure then s1
      else
        mkState
          (Dedup.mkState [] (Dedup.audioStreamer (pcm s1)) false false
                         (Dedup.forwarded (pcm s1)))
          None None (pendingInits s1) (retired s1) (storeCalls s1)
  | EvStreamer ev =>
      match Dedup.audioStreamer (pcm s) with
      | Some streamer =>
          if fromOutside ev then
            withPcm
              (Dedup.mkState (Dedup.processedChunks (pcm s))
                 (Some (Streamer.step streamer (now, ev)))
                 (Dedup.currentStreamMetadata (pcm s))
                 (Dedup.isStreamingActive (pcm s)) (Dedup.forwarded (pcm s))) s
          else s
      | None => s
      end
  end.

Definition run (s : State) (trace : list (Q * Event)) : State :=
  fold_left step trace s.

(** The current streamer plays at the rate the stored metadata
    announces (24000 Hz when it announces none). *)
Definition announcedRate (s : State) : Prop :=
  match Dedup.audioStreamer (pcm s) with
  | Some streamer =>
      Dedup.currentStreamMetadata (pcm s) = true ->
      Streamer.sampleRate streamer == rateOr24000 (metadataSampleRate s)
  | None => True
  end.

(** What every state of the handler satisfies. *)
Definition consistent (s : State) : Prop :=
  Dedup.isStreamingActive (pcm s) = Dedup.currentStreamMetadata (pcm s) /\
  Dedup.wellFormedCache (Dedup.processedChunks (pcm s)) /\
  announcedRate s.

(** [complete()] is among the calls of a history. *)
Definition completed (history : list (Q * Streamer.Event)) : bool :=
  existsb (fun e => match snd e with
                    | Streamer.EvComplete => true
                    | _ => false
                    end) history.

(** The current streamer has lived the life of one stream: it is what a
    new streamer becomes under a history of calls and events in which no
    chunk follows [complete()] and [stop()] and [resume()] do not occur;
    and while metadata is stored, [complete()] has not been called on
    it. *)
Definition drivenAsOneStream (s : State) : Prop :=
  match Dedup.audioStreamer (pcm s) with
  | Some streamer =>
      exists accepted rate history,
        streamer = Streamer.run (Streamer.newStreamer accepted rate) history /\
        Streamer.oneStream false history = true /\
        (Dedup.currentStreamMetadata (pcm s) = true ->
         completed history = false)
  | None => True
  end.

End Socket.

(** * AudioStreamer: whole runs

    Notions about the life of one [AudioStreamer] that span many
    calls. *)
Module StreamerRuns.
Import Streamer.

Open Scope Q_scope.

(** The samples the chunks of a trace hold, in arrival order. *)
Definition decoded (trace : list (Q * Event)) : list Q :=
  flat_map (fun e => match snd e with
                     | EvAdd chunk => wellFormedSamples chunk
                     | _ => []
                     end) trace.

(** Every event but [stop()], the one call that drops queued blocks. *)
Definition keepsQueue (e : Q * Event) : bool :=
  match snd e with
  | EvStop => false
  | _ => true
  end.

(** Every event but a new chunk. *)
Definition noChunk (e : Q * Event) : bool :=
  match snd e with
  | EvAdd _ => false
  | _ => true
  end.

(** Consecutive blocks do not overlap: a block starts no earlier than
    the block before it ends, and exactly at that end whenever it was
    scheduled before that end. *)
Fixpoint backToBack (blocks : list Scheduled) : Prop :=
  match blocks with
  | b1 :: (b2 :: _) as rest =>
      blk_start b1 + blk_duration b1 <= blk_start b2 /\
      (blk_clock b2 <= blk_start b1 + blk_duration b1 ->
       blk_start b2 == blk_start b1 + blk_duration b1) /\
      backToBack rest
  | _ => True
  end.

End StreamerRuns.

(** * Playback queue manager: whole runs and reports

    Invariants of [useAudioPlayback] over every sequence of calls and
    browser events, and the report functions [getRecommendations] and
    [getErrorReport]. *)
Module PlaybackRuns.
Import Playback.

Open Scope string_scope.
Open Scope list_scope.
Open Scope Z_scope.

(** The output stage is consistent: the volume lies in [0, 1], a gain
    node exists exactly while an audio context does, and its gain is 0
    when muted and the volume otherwise. *)
Definition mixerOk (s : State) : Prop :=
  (0 <= volume s)%Q /\ (volume s <= 1)%Q /\
  gainNode s =
    if audioContext s
    then Some (if isMuted s then 0%Q else volume s)
    else None.

(** The queue is consistent: [queueLength] is its length, no item holds
    empty audio data, and the error counter is not negative. *)
Definition queueOk (s : State) : Prop :=
  queueLength s = length (audioQueue s) /\
  Forall (fun item => item_audioData item <> []) (audioQueue s) /\
  0 <= errorCount s.

(** [getRecommendations]. *)
Definition getRecommendations (s : State) : list string :=
  (if 3 <? errorCount s
   then ["Consider clearing the queue and restarting"] else []) ++
  (match lastError s with
   | Some (mkAudioError DECODE_ERROR _ _) => ["Check audio format compatibility"]
   | _ => []
   end) ++
  (match lastError s with
   | Some (mkAudioError CONTEXT_ERROR _ _) =>
       ["Try refreshing the page to reset audio context"]
   | _ => []
   end) ++
  (if negb (isHealthy s)
   then ["Use the recovery function to reset the audio system"] else []).

(** [getErrorReport]. *)
Record ErrorReport := mkErrorReport {
  rep_errorCount : Z;
  rep_lastError : option AudioError;
  rep_isRecovering : bool;
  rep_isHealthy : bool;
  rep_recommendations : list string
}.

Definition getErrorReport (s : State) : ErrorReport :=
  mkErrorReport (errorCount s) (lastError s) (isRecovering s) (isHealthy s)
                (getRecommendations s).

End PlaybackRuns.

(** * Runs of the voice activity detector *)
Module VADRuns.
Import VAD.

(** The [onVoiceStart] and [onVoiceEnd] calls of a callback log. *)
Definition voiceEvents (log : list Emitted) : list Emitted :=
  filter (fun e => match e with VolumeChange _ => false | _ => true end) log.

(** The voice calls of a log take turns, [onVoiceStart] first when
    [speaking] is false and [onVoiceEnd] first when it is true; the
    result tells which call came last. *)
Fixpoint alternates (speaking : bool) (log : list Emitted) : option bool :=
  match log with
  | [] => Some speaking
  | VoiceStart :: rest => if speaking then None else alternates true rest
  | VoiceEnd :: rest => if speaking then alternates false rest else None
  | VolumeChange _ :: rest => alternates speaking rest
  end.

End VADRuns.

(** * Worklet voice detection

    The [VolumeProcessor] that [useAudioWorklet] loads into the audio
    thread, and [handleWorkletMessage], which turns its messages into
    callbacks on the main thread.  [Math.sqrt] is a parameter; a volume
    of [None] is [NaN]. *)
Module VolumeWorklet.

Open Scope Q_scope.

Record ProcessorOptions := mkOptions {
  opt_volumeThreshold : Q;
  opt_silenceTimeout : Q;
  opt_voiceTimeout : Q
}.

(** What the processor posts. *)
Inductive Message :=
| MsgVolume (volume : option Q) (timestamp : Z)
| MsgVoiceStart (timestamp : Z)
| MsgVoiceEnd (timestamp : Z).

Record Processor := mkProcessor {
  volumeThreshold : Q;
  silenceTimeout : Q;
  voiceTimeout : Q;
  lastVoiceTime : Z;
  isSpeaking : bool;
  silenceStart : Z;
  voiceStart : Z;
  posted : list Message            (* port.postMessage calls, in order *)
}.

(** [x || fallback] on a number. *)
Definition orDefault (x fallback : Q) : Q :=
  if Qeq_bool x 0 then fallback else x.

(** The constructor. *)
Definition newProcessor (options : ProcessorOptions) : Processor :=
  mkProcessor (orDefault (opt_volumeThreshold options) (1 # 100))
              (orDefault (opt_silenceTimeout options) 2500)
              (orDefault (opt_voiceTimeout options) 300)
              0 false 0 0 [].

Definition post (m : Message) (p : Processor) : Processor :=
  mkProcessor (volumeThreshold p) (silenceTimeout p) (voiceTimeout p)
    (lastVoiceTime p) (isSpeaking p) (silenceStart p) (voiceStart p)
    (posted p ++ [m]).

Section Process.

Variable sqrt : Q -> Q.

(** [Math.min(1.0, rms * 10)]; no samples give [0 / 0]. *)
Definition volumeOf (samples : list Q) : option Q :=
  match samples with
  | [] => None
  | _ :: _ =>
      let sum := fold_left (fun sum x => sum + x * x) samples 0 in
      let rms := sqrt (sum / inject_Z (Z.of_nat (length samples))) in
      Some (Qmin 1 (rms * 10))
  end.

(** [volume > this.volumeThreshold]. *)
Definition above (threshold : Q) (volume : option Q) : bool :=
  match volume with
  | Some v => Qltb threshold v
  | None => false
  end.

(** [process(inputs)]: [input] is [inputs[0]], [stamp] and [currentTime]
    are its two readings of [Date.now()]. *)
Definition process (input : option (list (list Q))) (stamp currentTime : Z)
    (p : Processor) : Processor :=
  match input with
  | Some (samples :: _) =>
      let volume := volumeOf samples in
      let p1 := post (MsgVolume volume stamp) p in
      if above (volumeThreshold p1) volume then
        let p2 :=
          if isSpeaking p1 then p1
          else if (voiceStart p1 =? 0)%Z then
            mkProcessor (volumeThreshold p1) (silenceTimeout p1)
              (voiceTimeout p1) (lastVoiceTime p1) (isSpeaking p1)
              (silenceStart p1) currentTime (posted p1)
          else if Qle_bool (voiceTimeout p1)
                    (inject_Z (currentTime - voiceStart p1)) then
            mkProcessor (volumeThreshold p1) (silenceTimeout p1)
              (voiceTimeout p1) (lastVoiceTime p1) true
              (silenceStart p1) 0%Z
              (posted p1 ++ [MsgVoiceStart currentTime])
          else p1 in
        mkProcessor (volumeThreshold p2) (silenceTimeout p2) (voiceTimeout p2)
          currentTime (isSpeaking p2) 0%Z (voiceStart p2) (posted p2)
      else
        let p2 :=
          mkProcessor (volumeThreshold p1) (silenceTimeout p1) (voiceTimeout p1)
            (lastVoiceTime p1) (isSpeaking p1) (silenceStart p1) 0%Z
            (posted p1) in
        if isSpeaking p2 then
          if (silenceStart p2 =? 0)%Z then
            mkProcessor (volumeThreshold p2) (silenceTimeout p2)
              (voiceTimeout p2) (lastVoiceTime p2) (isSpeaking p2)
              currentTime (voiceStart p2) (posted p2)
          else if Qle_bool (silenceTimeout p2)
                    (inject_Z (currentTime - silenceStart p2)) then
            mkProcessor (volumeThreshold p2) (silenceTimeout p2)
              (voiceTimeout p2) (lastVoiceTime p2) false
              0%Z (voiceStart p2)
              (posted p2 ++ [MsgVoiceEnd currentTime])
          else p2
        else p2
  | _ => p
  end.

(** One call of [process]: its input and its two clock readings. *)
Record Quantum := mkQuantum {
  q_input : option (list (list Q));
  q_stamp : Z;
  q_currentTime : Z
}.

Definition render (p : Processor) (quanta : list Quantum) : Processor :=
  fold_left (fun p q => process (q_input q) (q_stamp q) (q_currentTime q) p)
            quanta p.

(** A call whose volume is above the threshold of [p]. *)
Definition loudCall (p : Processor) (q : Quantum) : Prop :=
  exists samples rest,
    q_input q = Some (samples :: rest) /\
    above (volumeThreshold p) (volumeOf samples) = true.

(** A loud call that comes less than [voiceTimeout] after [since]. *)
Definition early (p : Processor) (since : Z) (q : Quantum) : Prop :=
  loudCall p q /\ inject_Z (q_currentTime q - since) < voiceTimeout p.

(** A call whose volume is not above the threshold of [p]. *)
Definition faintCall (p : Processor) (q : Quantum) : Prop :=
  exists samples rest,
    q_input q = Some (samples :: rest) /\
    above (volumeThreshold p) (volumeOf samples) = false.

End Process.

(** The main thread. *)
Inductive Called :=
| OnVolumeChange (volume : option Q)
| OnVoiceStart
| OnVoiceEnd.

Record State := mkState {
  st_isSpeaking : bool;
  st_currentVolume : option Q;
  st_onVoiceStart : bool;           (* a callback is registered *)
  st_onVoiceEnd : bool;
  st_onVolumeChange : bool;
  st_called : list Called           (* callback calls, in order *)
}.

Definition call (c : Called) (s : State) : State :=
  mkState (st_isSpeaking s) (st_currentVolume s) (st_onVoiceStart s)
          (st_onVoiceEnd s) (st_onVolumeChange s) (st_called s ++ [c]).

(** [handleWorkletMessage]. *)
Definition handleWorkletMessage (s : State) (m : Message) : State :=
  match m with
  | MsgVolume volume _ =>
      let s1 :=
        mkState (st_isSpeaking s) volume (st_onVoiceStart s) (st_onVoiceEnd s)
                (st_onVolumeChange s) (st_called s) in
      if st_onVolumeChange s1 then call (OnVolumeChange volume) s1 else s1
  | MsgVoiceStart _ =>
      let s1 :=
        mkState true (st_currentVolume s) (st_onVoiceStart s) (st_onVoiceEnd s)
                (st_onVolumeChange s) (st_called s) in
      if st_onVoiceStart s1 then call OnVoiceStart s1 else s1
  | MsgVoiceEnd _ =>
      let s1 :=
        mkState false (st_currentVolume s) (st_onVoiceStart s) (st_onVoiceEnd s)
                (st_onVolumeChange s) (st_called s) in
      if st_onVoiceEnd s1 then call OnVoiceEnd s1 else s1
  end.

(** The messages of the processor arrive in the order they were posted. *)
Definition deliver (s : State) (messages : list Message) : State :=
  fold_left handleWorkletMessage messages s.

(** The main thread after [startWorklet] and [setCallbacks]. *)
Definition listening (voiceStart voiceEnd volumeChange : bool) : State :=
  mkState false (Some 0) voiceStart voiceEnd volumeChange [].

(** The voice calls of a log take turns, [onVoiceStart] first when
    [speaking] is false; the result tells which call came last. *)
Fixpoint takeTurns (speaking : bool) (log : list Called) : option bool :=
  match log with
  | [] => Some speaking
  | OnVoiceStart :: rest => if speaking then None else takeTurns true rest
  | OnVoiceEnd :: rest => if speaking then takeTurns false rest else None
  | OnVolumeChange _ :: rest => takeTurns speaking rest
  end.

Definition isVolume (m : Message) : bool :=
  match m with MsgVolume _ _ => true | _ => false end.

End VolumeWorklet.

(** * Properties *)

(** ** Helpers *)

Lemma Qltb_true (x y : Q) : Qltb x y = true <-> (x < y)%Q.
Proof.
  unfold Qltb. rewrite negb_true_iff. split; intro H.
  - apply Qnot_le_lt. intro L. apply Qle_bool_iff in L. congruence.
  - destruct (Qle_bool y x) eqn:E; [|reflexivity].
    apply Qle_bool_iff in E. exfalso. apply (Qlt_not_le _ _ H E).
Qed.

Lemma Qltb_false (x y : Q) : Qltb x y = false <-> (y <= x)%Q.
Proof.
  unfold Qltb. rewrite negb_false_iff. apply Qle_bool_iff.
Qed.

Lemma clampVolume_range (v : Q) : (0 <= clampVolume v /\ clampVolume v <= 1)%Q.
Proof.
  unfold clampVolume. split.
  - apply Q.le_max_l.
  - apply Q.max_lub; [lra | apply Q.le_min_l].
Qed.

Lemma clampVolume_inside (v : Q) : (0 <= v <= 1)%Q -> (clampVolume v == v)%Q.
Proof.
  intros [H0 H1]. unfold clampVolume.
  rewrite (Q.min_r 1 v) by exact H1. apply Q.max_r. exact H0.
Qed.

Lemma array_set_length {A : Type} (a : list A) i (v : A) :
  length (array_set a i v) = length a.
Proof.
  revert i. induction a as [|h t IH]; intros [|j]; simpl; auto.
Qed.

Lemma StronglySorted_snoc {A : Type} (R : A -> A -> Prop) (l : list A) (x : A) :
  StronglySorted R l -> Forall (fun y => R y x) l ->
  StronglySorted R (l ++ [x]).
Proof.
  induction 1 as [|a l Hs IH Ha]; intro Hx; simpl.
  - constructor; constructor.
  - inversion Hx; subst. constructor.
    + apply IH; assumption.
    + apply Forall_app; split; [assumption | constructor; [assumption|constructor]].
Qed.

(** ** AudioStreamer: decoding *)
Module StreamerDecode.
Import Streamer.

(** Reading sample [i] through the view agrees with the byte pairs. *)
Lemma getInt16_wellFormed (chunk : list byte) (i : nat) :
  nth_error (wellFormedSamples chunk) i =
  option_map normalize (getInt16 chunk (i * 2)).
Proof.
  revert chunk. induction i as [|i IH]; intros [|lo [|hi rest]]; try reflexivity.
  simpl wellFormedSamples. simpl nth_error at 1. rewrite IH.
  unfold getInt16. reflexivity.
Qed.

Lemma wellFormed_length (chunk : list byte) :
  length (wellFormedSamples chunk) = (length chunk / 2)%nat.
Proof.
  assert (H : forall n (c : list byte), (length c < n)%nat ->
            length (wellFormedSamples c) = (length c / 2)%nat).
  { induction n as [|n IH]; intros c Hc; [lia|].
    destruct c as [|lo [|hi rest]]; try reflexivity.
    simpl wellFormedSamples. simpl length in *.
    rewrite IH by lia.
    change (S (S (length rest))) with (1 * 2 + length rest)%nat.
    rewrite Nat.div_add_l by lia. lia. }
  apply (H (S (length chunk))). lia.
Qed.

(** Storing sample [i] into an array whose first [i] cells are done. *)
Lemma array_set_next (w : list Q) (i : nat) (x : Q) :
  nth_error w i = Some x ->
  array_set (firstn i w ++ repeat 0%Q (length w - i)) i x =
  firstn (S i) w ++ repeat 0%Q (length w - S i).
Proof.
  revert i. induction w as [|h t IH]; intros [|i] H; simpl in *; try discriminate.
  - injection H as ->. rewrite Nat.sub_0_r. reflexivity.
  - f_equal. apply IH. exact H.
Qed.

(** The loop invariant of [_processPCM16Chunk]: with the first [i] samples
    stored, the loop stores the rest and reports the dangling byte. *)
Lemma pcmLoop_spec (chunk : list byte) (fuel i : nat) (errs : list nat) :
  let w := wellFormedSamples chunk in
  (i <= length w)%nat -> (length chunk <= 2 * i + 2 * fuel)%nat ->
  pcmLoop fuel i chunk (firstn i w ++ repeat 0%Q (length w - i)) errs =
  (w, errs ++ (if Nat.odd (length chunk) then [length w] else [])).
Proof.
  intros w. revert i errs.
  assert (Hlen : length w = (length chunk / 2)%nat) by apply wellFormed_length.
  assert (Hpar : length chunk = (2 * length w + (if Nat.odd (length chunk) then 1 else 0))%nat).
  { rewrite Hlen, <- Nat.div2_div.
    pose proof (Nat.div2_odd (length chunk)) as Hd.
    destruct (Nat.odd (length chunk)); simpl in Hd; lia. }
  assert (Hdone : firstn (length w) w ++ repeat 0%Q (length w - length w) = w).
  { rewrite firstn_all, Nat.sub_diag. apply app_nil_r. }
  induction fuel as [|fuel IH]; intros i errs Hi Hfuel.
  - (* no round left: the chunk is empty *)
    simpl. destruct (Nat.odd (length chunk)); [lia|].
    assert (i = length w) by lia. subst i. rewrite Hdone.
    rewrite app_nil_r. reflexivity.
  - cbn [pcmLoop].
    destruct (2 * i <? length chunk)%nat eqn:Hcond.
    + apply Nat.ltb_lt in Hcond.
      pose proof (getInt16_wellFormed chunk i) as Hget. fold w in Hget.
      destruct (Nat.eq_dec i (length w)) as [->|Hne].
      * (* the dangling byte *)
        rewrite (proj2 (nth_error_None w (length w))) in Hget by lia.
        destruct (getInt16 chunk (length w * 2)) as [z|]; [discriminate|].
        destruct (Nat.odd (length chunk)); [|lia].
        destruct fuel as [|fuel']; cbn [pcmLoop].
        -- rewrite Hdone. reflexivity.
        -- destruct (2 * S (length w) <? length chunk)%nat eqn:Hc2.
           ++ apply Nat.ltb_lt in Hc2. lia.
           ++ rewrite Hdone. reflexivity.
      * destruct (nth_error w i) as [x|] eqn:Hx.
        -- destruct (getInt16 chunk (i * 2)) as [z|]; [|discriminate].
           simpl in Hget. injection Hget as Hget. rewrite <- Hget.
           rewrite (array_set_next w i x Hx). apply IH; lia.
        -- apply nth_error_None in Hx. lia.
    + apply Nat.ltb_ge in Hcond.
      assert (i = length w) by (destruct (Nat.odd (length chunk)); lia).
      subst i. rewrite Hdone.
      destruct (Nat.odd (length chunk)); [lia|]. rewrite app_nil_r. reflexivity.
Qed.

(** What [_processPCM16Chunk] returns: the well-formed samples, and one
    error, for sample index [length / 2], exactly when the length is odd. *)
Lemma processPCM16Chunk_spec (chunk : list byte) :
  _processPCM16Chunk chunk =
  (wellFormedSamples chunk,
   if Nat.odd (length chunk) then [(length chunk / 2)%nat] else []).
Proof.
  unfold _processPCM16Chunk.
  pose proof (pcmLoop_spec chunk (length chunk) 0%nat []) as H.
  cbv zeta in H. rewrite wellFormed_length in H.
  rewrite Nat.sub_0_r in H. simpl firstn in H. simpl app in H.
  apply H; lia.
Qed.

(** The slicing loop only regroups: queue and rest together still hold
    the samples in order. *)
Lemma sliceLoop_concat (fuel size : nat) (buffer : list Q) (queue : list (list Q)) :
  let '(q, rest) := sliceLoop fuel size buffer queue in
  concat q ++ rest = concat queue ++ buffer.
Proof.
  revert buffer queue. induction fuel as [|fuel IH]; intros buffer queue; simpl.
  - reflexivity.
  - destruct (size <=? length buffer)%nat; [|reflexivity].
    specialize (IH (skipn size buffer) (queue ++ [firstn size buffer])).
    destruct (sliceLoop fuel size (skipn size buffer) (queue ++ [firstn size buffer]))
      as [q rest].
    rewrite IH, concat_app. simpl. rewrite app_nil_r, <- app_assoc.
    rewrite firstn_skipn. reflexivity.
Qed.

(** Scheduling moves blocks from the queue to the schedule, in order;
    on a context that takes the rate, a block is lost only if it is
    empty. *)
Lemma scheduleLoop_data (now : Q) (queue : list (list Q)) (s : State) :
  let s' := fst (scheduleLoop now queue s) in
  (rateAccepted s = true ->
   concat (map blk_data (scheduled s')) ++ concat (audioQueue s') =
   concat (map blk_data (scheduled s)) ++ concat queue) /\
  errors s' = errors s /\ isStreamComplete s' = isStreamComplete s /\
  isPlaying s' = isPlaying s /\ completions s' = completions s /\
  rateAccepted s' = rateAccepted s.
Proof.
  revert s. induction queue as [|block rest IH]; intro s; cbn [scheduleLoop].
  - simpl. auto 10.
  - destruct (Qltb (scheduledTime s) (now + SCHEDULE_AHEAD_TIME));
      [destruct (createBufferThrows s block) eqn:Ht|].
    + cbn [fst scheduled audioQueue errors isStreamComplete isPlaying
           completions rateAccepted].
      repeat split; auto. intro Ha.
      unfold createBufferThrows in Ht. rewrite Ha in Ht. cbn [negb orb] in Ht.
      apply Nat.eqb_eq in Ht. destruct block; [reflexivity|discriminate].
    + match goal with |- context [scheduleLoop now rest ?st] =>
        destruct (IH st) as (Hd & He & Hc & Hp & Hk & Ha) end.
      cbv zeta in *. rewrite He, Hc, Hp, Hk, Ha.
      cbn [scheduled errors isStreamComplete isPlaying completions
           rateAccepted] in *.
      repeat split; auto. intro Hacc. rewrite (Hd Hacc).
      rewrite map_app, concat_app. simpl. rewrite app_nil_r, <- app_assoc. auto.
    + simpl. auto 10.
Qed.

Lemma scheduleNextBuffer_data (now : Q) (s : State) :
  let s' := scheduleNextBuffer now s in
  (rateAccepted s = true ->
   concat (map blk_data (scheduled s')) ++ concat (audioQueue s') =
   concat (map blk_data (scheduled s)) ++ concat (audioQueue s)) /\
  errors s' = errors s /\ completions s' = completions s /\
  (isStreamComplete s = false -> isPlaying s' = isPlaying s) /\
  isStreamComplete s' = isStreamComplete s /\
  rateAccepted s' = rateAccepted s.
Proof.
  unfold scheduleNextBuffer.
  destruct (scheduleLoop_data now (audioQueue s) s)
    as (Hd & He & Hc & Hp & Hk & Ha).
  cbv zeta in *.
  destruct (snd (scheduleLoop now (audioQueue s) s)); [auto 10|].
  destruct (audioQueue (fst (scheduleLoop now (audioQueue s) s))) eqn:Hq.
  - destruct (isStreamComplete (fst (scheduleLoop now (audioQueue s) s))) eqn:Hf;
      cbn [scheduled audioQueue errors completions isPlaying isStreamComplete
           rateAccepted];
      rewrite ?Hq; repeat split; auto; congruence.
  - cbn [scheduled audioQueue errors completions isPlaying isStreamComplete
         rateAccepted].
    rewrite ?Hq. repeat split; auto.
Qed.

Lemma startIfIdle_data (now : Q) (s : State) :
  let s' := startIfIdle now s in
  (rateAccepted s = true ->
   concat (map blk_data (scheduled s')) ++ concat (audioQueue s') =
   concat (map blk_data (scheduled s)) ++ concat (audioQueue s)) /\
  errors s' = errors s /\ completions s' = completions s /\
  isStreamComplete s' = isStreamComplete s /\
  (isStreamComplete s = false -> isPlaying s' = true) /\
  rateAccepted s' = rateAccepted s.
Proof.
  unfold startIfIdle. destruct (isPlaying s) eqn:Hp.
  - cbv zeta. auto 10.
  - match goal with |- context [scheduleNextBuffer now ?st] =>
      destruct (scheduleNextBuffer_data now st)
        as (Hd & He & Hk & Hpl & Hc & Ha)
    end.
    cbv zeta in *.
    cbn [scheduled audioQueue errors completions isStreamComplete isPlaying
         rateAccepted] in *.
    repeat split; auto.
Qed.

Lemma pushPCM16_data (chunk : list byte) (s : State) :
  let s' := pushPCM16 chunk s in
  concat (audioQueue s') = concat (audioQueue s) ++ wellFormedSamples chunk /\
  scheduled s' = scheduled s /\ isStreamComplete s' = false /\
  isPlaying s' = isPlaying s /\ completions s' = completions s /\
  errors s' = errors s ++
    (if Nat.odd (length chunk) then [(length chunk / 2)%nat] else []).
Proof.
  unfold pushPCM16. rewrite processPCM16Chunk_spec.
  pose proof (sliceLoop_concat (length (wellFormedSamples chunk)) (bufferSize s)
                (wellFormedSamples chunk) (audioQueue s)) as Hs.
  destruct (sliceLoop (length (wellFormedSamples chunk)) (bufferSize s)
              (wellFormedSamples chunk) (audioQueue s)) as [q rest].
  cbv zeta. cbn [audioQueue scheduled isStreamComplete isPlaying completions errors].
  repeat split; auto.
  rewrite <- Hs. destruct rest as [|x rest].
  - rewrite app_nil_r. reflexivity.
  - rewrite concat_app. simpl. rewrite app_nil_r. reflexivity.
Qed.

(** *** No exception while the context takes the rate *)

Lemma sliceLoop_nonempty (fuel size : nat) (buffer : list Q)
    (queue : list (list Q)) :
  (0 < size)%nat -> Forall (fun block => block <> []) queue ->
  Forall (fun block => block <> [])
         (fst (sliceLoop fuel size buffer queue)).
Proof.
  intro Hsize. revert buffer queue.
  induction fuel as [|fuel IH]; intros buffer queue Hq; cbn [sliceLoop];
    [exact Hq|].
  destruct (size <=? length buffer)%nat eqn:Hle; [|exact Hq].
  apply IH. apply Forall_app. split; [exact Hq|].
  constructor; [|constructor].
  apply Nat.leb_le in Hle. intro E.
  apply (f_equal (@length Q)) in E. rewrite length_firstn in E.
  cbn in E. lia.
Qed.

Lemma pushPCM16_ready (chunk : list byte) (s : State) :
  ready s -> ready (pushPCM16 chunk s) /\
             uncaught (pushPCM16 chunk s) = uncaught s.
Proof.
  intros (Ha & Hb & Hq). unfold pushPCM16, ready.
  destruct (_processPCM16Chunk chunk) as [samples errs].
  pose proof (sliceLoop_nonempty (length samples) (bufferSize s) samples
                (audioQueue s) Hb Hq) as Hs.
  destruct (sliceLoop (length samples) (bufferSize s) samples (audioQueue s))
    as [q rest].
  cbn [fst] in Hs. cbn [rateAccepted bufferSize audioQueue uncaught].
  repeat split; auto.
  destruct rest as [|x rest]; [exact Hs|].
  apply Forall_app. split; [exact Hs|].
  constructor; [discriminate|constructor].
Qed.

Lemma scheduleLoop_ready (now : Q) (queue : list (list Q)) (s : State) :
  rateAccepted s = true -> Forall (fun block => block <> []) queue ->
  let r := scheduleLoop now queue s in
  snd r = false /\ uncaught (fst r) = uncaught s /\
  rateAccepted (fst r) = true /\ bufferSize (fst r) = bufferSize s /\
  Forall (fun block => block <> []) (audioQueue (fst r)).
Proof.
  revert s. induction queue as [|block rest IH]; intros s Ha Hq;
    cbn [scheduleLoop].
  - cbn. auto.
  - inversion Hq as [|? ? Hb Hrest]; subst.
    destruct (Qltb (scheduledTime s) (now + SCHEDULE_AHEAD_TIME));
      [|cbn; auto].
    unfold createBufferThrows. rewrite Ha. cbn [negb orb].
    destruct block as [|x block]; [contradiction|]. cbn [length Nat.eqb].
    match goal with |- context [scheduleLoop now rest ?st] =>
      destruct (IH st) as (H1 & H2 & H3 & H4 & H5);
        [reflexivity|exact Hrest|] end.
    cbv zeta in *. cbn [uncaught bufferSize] in *. auto.
Qed.

Lemma scheduleNextBuffer_ready (now : Q) (s : State) :
  ready s ->
  ready (scheduleNextBuffer now s) /\
  uncaught (scheduleNextBuffer now s) = uncaught s /\
  snd (scheduleLoop now (audioQueue s) s) = false.
Proof.
  intros (Ha & Hb & Hq). unfold scheduleNextBuffer, ready.
  destruct (scheduleLoop_ready now (audioQueue s) s Ha Hq)
    as (H1 & H2 & H3 & H4 & H5).
  cbv zeta in *. rewrite H1.
  destruct (audioQueue (fst (scheduleLoop now (audioQueue s) s))) eqn:Eq;
    [destruct (isStreamComplete (fst (scheduleLoop now (audioQueue s) s)))|];
    cbn [rateAccepted bufferSize audioQueue uncaught]; rewrite ?Eq;
    repeat split; auto; lia.
Qed.

Lemma addPCM16_ready (now : Q) (chunk : list byte) (s : State) :
  ready s ->
  ready (addPCM16 now chunk s) /\
  uncaught (addPCM16 now chunk s) = uncaught s.
Proof.
  intro Hr. unfold addPCM16, startIfIdle.
  destruct (pushPCM16_ready chunk s Hr) as (Hr1 & Hu1).
  destruct (isPlaying (pushPCM16 chunk s)); [auto|].
  match goal with |- context [scheduleNextBuffer now ?st] =>
    assert (Hr2 : ready st) by exact Hr1;
    destruct (scheduleNextBuffer_ready now st Hr2) as (Hr3 & Hu3 & _)
  end.
  split; [exact Hr3|]. rewrite Hu3. exact Hu1.
Qed.

(** While the context takes the rate, no call and no event lets an
    exception out of the class. *)
Lemma step_ready (s : State) (e : Q * Event) :
  ready s -> ready (step s e) /\ uncaught (step s e) = uncaught s.
Proof.
  intro Hr. destruct e as [now [chunk| | |source| |v| | |]]; unfold step;
    cbn [fst snd].
  - apply addPCM16_ready. exact Hr.
  - assert (Hp : ready (popTimeout s)) by exact Hr.
    destruct (scheduleNextBuffer_ready now _ Hp) as (H1 & H2 & _). auto.
  - destruct (audioQueue s) eqn:Eq; [auto|].
    destruct (scheduleNextBuffer_ready now s Hr) as (H1 & H2 & _). auto.
  - unfold onended, fireComplete.
    cbn [audioQueue endOfQueueAudioSource isStreamComplete].
    destruct Hr as (Ha & Hb & Hq).
    destruct (audioQueue s) eqn:Eq;
      [destruct (endOfQueueAudioSource s) as [last|];
       [destruct (Nat.eqb last source); [destruct (isStreamComplete s)|]|]|];
      unfold ready; cbn [rateAccepted bufferSize audioQueue uncaught];
      rewrite ?Eq; auto.
  - unfold complete, fireComplete. cbn [audioQueue].
    destruct Hr as (Ha & Hb & Hq).
    destruct (audioQueue s) eqn:Eq; unfold ready;
      cbn [rateAccepted bufferSize audioQueue uncaught]; rewrite ?Eq; auto.
  - split; [exact Hr|reflexivity].
  - destruct Hr as (Ha & Hb & Hq). unfold ready, stop.
    cbn [rateAccepted bufferSize audioQueue uncaught]. auto.
  - split; [exact Hr|reflexivity].
  - split; [exact Hr|reflexivity].
Qed.

Lemma run_ready (trace : list (Q * Event)) (s : State) :
  ready s -> ready (run s trace) /\ uncaught (run s trace) = uncaught s.
Proof.
  revert s. induction trace as [|e trace IH]; intros s Hr; [auto|].
  destruct (step_ready s e Hr) as (H1 & H2).
  destruct (IH _ H1) as (H3 & H4).
  change (run s (e :: trace)) with (run (step s e) trace).
  split; [exact H3|congruence].
Qed.

Lemma newStreamer_ready (rate : Q) : ready (newStreamer true rate).
Proof.
  unfold ready, newStreamer. cbn. repeat split; auto. lia.
Qed.

(** C9 fails as stated: an odd chunk on a streamer whose context refuses
    the sample rate (one million Hz here).  The decode error is reported, but
    [createBuffer] throws out of [scheduleNextBuffer] and [addPCM16];
    the one complete sample was already shifted off the queue and is
    neither scheduled nor queued, and the streamer is left marked as
    playing with no timer and no polling interval. *)
Example refused_rate_throws_out_of_addPCM16 :
  let s' := addPCM16 0 [x01; x02; x03] (newStreamer false 1000000) in
  Nat.odd (length [x01; x02; x03]) = true /\
  errors s' = [1%nat] /\
  uncaught s' = [0] /\
  scheduled s' = [] /\ audioQueue s' = [] /\
  isPlaying s' = true /\ timeouts s' = [] /\ checkInterval s' = false.
Proof. cbv zeta. repeat split; vm_compute; reflexivity. Qed.

(** C9. A chunk with an odd number of bytes, added to a streamer at any
    point of its life: the loop of [_processPCM16Chunk] catches the
    [RangeError] of the one incomplete sample and reports it through
    [onError] (exactly one call, for sample index [length / 2]); the
    complete samples are converted all the same and pushed on the queue,
    and the stream is playing and not marked complete.  On a context
    that takes the stream's sample rate, moreover, every one of these
    samples ends up, in order, in a scheduled block or in the queue, and
    [addPCM16] runs to its end: no exception leaves it. *)
Theorem odd_chunk_reports_and_continues (accepted : bool) (rate : Q)
    (trace : list (Q * Event)) (now : Q) (chunk : list byte) :
  Nat.odd (length chunk) = true ->
  let s := run (newStreamer accepted rate) trace in
  let s' := addPCM16 now chunk s in
  getInt16 chunk (length chunk / 2 * 2) = None /\
  _processPCM16Chunk chunk = (wellFormedSamples chunk, [(length chunk / 2)%nat]) /\
  errors s' = errors s ++ [(length chunk / 2)%nat] /\
  concat (audioQueue (pushPCM16 chunk s)) =
    concat (audioQueue s) ++ wellFormedSamples chunk /\
  isPlaying s' = true /\ isStreamComplete s' = false /\
  (accepted = true ->
   concat (map blk_data (scheduled s')) ++ concat (audioQueue s') =
     (concat (map blk_data (scheduled s)) ++ concat (audioQueue s)) ++
     wellFormedSamples chunk /\
   uncaught s' = uncaught s).
Proof.
  intros Hodd s s'.
  subst s'. unfold addPCM16 in *.
  destruct (pushPCM16_data chunk s) as (Hq & Hs & Hc & Hp & Hk & He).
  destruct (startIfIdle_data now (pushPCM16 chunk s))
    as (Hd & He' & Hk' & Hc' & Hp' & _).
  cbv zeta in *. rewrite Hodd in He.
  split; [|split; [|split; [|split; [|split; [|split]]]]].
  - pose proof (getInt16_wellFormed chunk (length chunk / 2)) as Hg.
    rewrite (proj2 (nth_error_None _ _)) in Hg
      by (rewrite wellFormed_length; lia).
    destruct (getInt16 chunk (length chunk / 2 * 2)); [discriminate|reflexivity].
  - rewrite processPCM16Chunk_spec, Hodd. reflexivity.
  - congruence.
  - exact Hq.
  - auto.
  - congruence.
  - intro Hacc. subst accepted.
    destruct (run_ready trace _ (newStreamer_ready rate)) as (Hr & _).
    fold s in Hr.
    destruct (addPCM16_ready now chunk s Hr) as (_ & Hu).
    destruct (pushPCM16_ready chunk s Hr) as ((Ha & _) & _).
    specialize (Hd Ha). unfold addPCM16 in Hu.
    split; [|exact Hu].
    rewrite Hd, Hs, Hq. rewrite app_assoc. reflexivity.
Qed.

Lemma odd_chunk_reports_and_continues_witness :
  let s := run (newStreamer true 24000) [(0, EvAdd [x01; x02; x03; x04])] in
  errors (addPCM16 (1 # 100) [x05; x06; x07] s) = [1%nat] /\
  uncaught (addPCM16 (1 # 100) [x05; x06; x07] s) = [].
Proof.
  destruct (odd_chunk_reports_and_continues true 24000
              [(0, EvAdd [x01; x02; x03; x04])] (1 # 100) [x05; x06; x07])
    as (_ & _ & He & _ & _ & _ & Hu); [reflexivity|].
  destruct (Hu eq_refl) as (_ & Hu').
  split; [exact He | exact Hu'].
Defined.

End StreamerDecode.

(** ** AudioStreamer: scheduling *)
Module StreamerSchedule.
Import Streamer.

Lemma duration_nonneg (rate : Q) (n : nat) : 0 < rate -> 0 <= duration rate n.
Proof.
  intro Hr. unfold duration. apply Qle_shift_div_l; [exact Hr|].
  setoid_replace (0 * rate) with 0 by ring.
  unfold Qle. simpl. lia.
Qed.

Lemma chained_snoc (c : Q) (blocks : list Scheduled) (b : Scheduled) :
  chained blocks -> endsAt c blocks -> blk_cursor b = c ->
  chained (blocks ++ [b]).
Proof.
  induction blocks as [|a [|a' rest] IH]; intros Hc He Hb.
  - exact I.
  - simpl in *. split; [congruence | exact I].
  - destruct Hc as [H1 H2]. split; [exact H1|].
    apply IH; assumption.
Qed.

Lemma endsAt_snoc (c : Q) (blocks : list Scheduled) (b : Scheduled) :
  blk_cursor_after b = c -> endsAt c (blocks ++ [b]).
Proof.
  intro Hb. induction blocks as [|a [|a' rest] IH]; simpl in *; auto.
Qed.

(** Scheduling one more block at the later of cursor and clock keeps the
    schedule well formed. *)
Lemma wellScheduled_snoc (rate cursor now : Q) (blocks : list Scheduled)
    (source : nat) (data : list Q) :
  wellScheduled rate blocks cursor ->
  let start := Qmax cursor now in
  let dur := duration rate (length data) in
  wellScheduled rate
    (blocks ++ [mkScheduled source data cursor now start dur (start + dur)])
    (start + dur).
Proof.
  intros (Hr & Hok & Hsort & Hle & Hch & Hend) start dur.
  assert (Hdur : 0 <= dur) by (apply duration_nonneg; exact Hr).
  assert (Hcs : cursor <= start) by apply Q.le_max_l.
  repeat split.
  - exact Hr.
  - apply Forall_app. split; [exact Hok|].
    constructor; [|constructor]. repeat split; simpl. apply Q.le_max_r.
  - rewrite map_app. simpl. apply StronglySorted_snoc; [exact Hsort|].
    apply Forall_map. eapply Forall_impl; [|exact Hle].
    intros b Hb. simpl in Hb. lra.
  - apply Forall_app. split.
    + eapply Forall_impl; [|exact Hle]. intros b Hb. simpl in Hb. lra.
    + constructor; [simpl; lra|constructor].
  - apply (chained_snoc cursor); auto.
  - apply endsAt_snoc. reflexivity.
Qed.

Lemma scheduleLoop_core (now : Q) (queue : list (list Q)) (s : State) :
  core s -> core (fst (scheduleLoop now queue s)).
Proof.
  revert s. induction queue as [|block rest IH]; intros s H; cbn [scheduleLoop].
  - exact H.
  - destruct (Qltb (scheduledTime s) (now + SCHEDULE_AHEAD_TIME));
      [destruct (createBufferThrows s block)|].
    + exact H.
    + apply IH. unfold core. cbn [sampleRate scheduled scheduledTime].
      apply wellScheduled_snoc. exact H.
    + exact H.
Qed.

Lemma scheduleLoop_fields (now : Q) (queue : list (list Q)) (s : State) :
  let s' := fst (scheduleLoop now queue s) in
  isStreamComplete s' = isStreamComplete s /\ isPlaying s' = isPlaying s /\
  completions s' = completions s /\
  (queue = [] -> scheduled s' = scheduled s /\ audioQueue s' = []).
Proof.
  revert s. induction queue as [|block rest IH]; intro s; cbn [scheduleLoop].
  - simpl. auto.
  - destruct (Qltb (scheduledTime s) (now + SCHEDULE_AHEAD_TIME));
      [destruct (createBufferThrows s block)|].
    + simpl. repeat split; auto; discriminate.
    + match goal with |- context [scheduleLoop now rest ?st] =>
        destruct (IH st) as (H1 & H2 & H3 & _) end.
      cbv zeta. rewrite H1, H2, H3. simpl. repeat split; auto; discriminate.
    + simpl. repeat split; auto; discriminate.
Qed.

Lemma scheduleNextBuffer_core (now : Q) (s : State) :
  core s -> core (scheduleNextBuffer now s).
Proof.
  intro H. unfold scheduleNextBuffer.
  pose proof (scheduleLoop_core now (audioQueue s) s H) as Hc.
  cbv zeta.
  destruct (snd (scheduleLoop now (audioQueue s) s)); [exact Hc|].
  destruct (audioQueue (fst (scheduleLoop now (audioQueue s) s)));
    [destruct (isStreamComplete (fst (scheduleLoop now (audioQueue s) s)))|];
    exact Hc.
Qed.

Lemma scheduleNextBuffer_fields (now : Q) (s : State) :
  let s' := scheduleNextBuffer now s in
  isStreamComplete s' = isStreamComplete s /\
  completions s' = completions s /\
  (isStreamComplete s = false -> isPlaying s' = isPlaying s) /\
  (audioQueue s = [] -> scheduled s' = scheduled s /\ audioQueue s' = []).
Proof.
  unfold scheduleNextBuffer.
  destruct (scheduleLoop_fields now (audioQueue s) s) as (H1 & H2 & H3 & H4).
  cbv zeta in *.
  destruct (snd (scheduleLoop now (audioQueue s) s)); [auto|].
  destruct (audioQueue (fst (scheduleLoop now (audioQueue s) s))) eqn:Hq;
    [destruct (isStreamComplete (fst (scheduleLoop now (audioQueue s) s))) eqn:Hf|];
    cbn [isStreamComplete completions isPlaying scheduled audioQueue];
    (split; [assumption|split; [assumption|split]]);
    try (intro Hfalse; congruence);
    intro Hnil; destruct (H4 Hnil); split; congruence.
Qed.

Lemma pushPCM16_fields (chunk : list byte) (s : State) :
  let s' := pushPCM16 chunk s in
  sampleRate s' = sampleRate s /\ scheduled s' = scheduled s /\
  scheduledTime s' = scheduledTime s /\ isPlaying s' = isPlaying s /\
  isStreamComplete s' = false /\ completions s' = completions s.
Proof.
  unfold pushPCM16. destruct (_processPCM16Chunk chunk) as [samples errs].
  destruct (sliceLoop (length samples) (bufferSize s) samples (audioQueue s))
    as [q rest].
  simpl. auto 10.
Qed.

Lemma onended_fields (now : Q) (source : nat) (s : State) :
  let s' := onended now source s in
  sampleRate s' = sampleRate s /\ scheduled s' = scheduled s /\
  scheduledTime s' = scheduledTime s /\ isPlaying s' = isPlaying s /\
  isStreamComplete s' = isStreamComplete s /\ audioQueue s' = audioQueue s.
Proof.
  unfold onended, fireComplete.
  cbn [audioQueue endOfQueueAudioSource isStreamComplete].
  destruct (audioQueue s) eqn:Hq; [destruct (endOfQueueAudioSource s) as [last|]|];
    [destruct (Nat.eqb last source); [destruct (isStreamComplete s) eqn:Hf|]| |];
    simpl; auto 10.
Qed.

(** One step of a stream keeps the schedule well formed. *)
Lemma step_invariant (completed : bool) (s : State) (e : Q * Event) :
  core s -> phase completed s ->
  oneStream completed [e] = true ->
  let completed' :=
    match snd e with EvComplete => true | _ => completed end in
  core (step s e) /\ phase completed' (step s e).
Proof.
  intros Hcore Hphase Hone. destruct e as [now ev].
  unfold step, oneStream in *. cbn [fst snd] in *.
  destruct ev as [chunk| | |source| |v| | |]; cbv zeta; try discriminate.
  - (* addPCM16 *)
    destruct completed; [discriminate|].
    destruct (Hphase eq_refl) as [Hflag Hrun].
    destruct (pushPCM16_fields chunk s) as (Hr & Hs & Ht & Hp & Hf & _).
    cbv zeta in *. unfold addPCM16, startIfIdle.
    destruct (isPlaying (pushPCM16 chunk s)) eqn:Hplay.
    + split.
      * unfold core. rewrite Hr, Hs, Ht. exact Hcore.
      * intros _. split; [exact Hf | left; exact Hplay].
    + assert (Hempty : scheduled s = []) by (destruct Hrun as [|[? ?]]; congruence).
      match goal with |- context [scheduleNextBuffer now ?st] =>
        pose proof (scheduleNextBuffer_core now st) as Hc;
        destruct (scheduleNextBuffer_fields now st) as (H1 & _ & H3 & _)
      end.
      cbv zeta in *. cbn [isStreamComplete isPlaying] in *.
      split.
      * apply Hc. unfold core. cbn [sampleRate scheduled scheduledTime].
        rewrite Hr, Hs, Hempty. destruct Hcore as (Hrate & _).
        repeat split; auto; constructor.
      * intros _. split; [congruence | left; auto].
  - (* a timer of scheduleNextBuffer *)
    assert (Hpop : core (popTimeout s)) by exact Hcore.
    split; [apply scheduleNextBuffer_core; exact Hpop|].
    intro Hc. destruct (Hphase Hc) as [Hflag Hrun].
    destruct (scheduleNextBuffer_fields now (popTimeout s)) as (H1 & _ & H3 & H4).
    cbv zeta in *. cbn [isStreamComplete isPlaying scheduled audioQueue popTimeout] in *.
    split; [congruence|].
    destruct Hrun as [Hp | [Hs Hq]].
    * left. rewrite H3; auto.
    * right. destruct (H4 Hq) as [Ha Hb]. split; congruence.
  - (* the polling interval *)
    destruct (audioQueue s) eqn:Hq; [split; assumption|].
    split; [apply scheduleNextBuffer_core; exact Hcore|].
    intro Hc. destruct (Hphase Hc) as [Hflag Hrun].
    destruct (scheduleNextBuffer_fields now s) as (H1 & _ & H3 & _).
    cbv zeta in *. split; [congruence|].
    destruct Hrun as [Hp | [Hs Hq']]; [left; rewrite H3; auto | congruence].
  - (* an ended event *)
    destruct (onended_fields now source s) as (Hr & Hs & Ht & Hp & Hf & Hq).
    cbv zeta in *. split.
    + unfold core. rewrite Hr, Hs, Ht. exact Hcore.
    + unfold phase. rewrite Hs, Hp, Hf, Hq. exact Hphase.
  - (* complete() *)
    unfold complete. cbn [audioQueue].
    destruct (audioQueue s); (split; [exact Hcore | discriminate]).
  - (* setVolume *)
    split; [exact Hcore | exact Hphase].
  - (* the gain rebuild timer *)
    split; [exact Hcore | exact Hphase].
Qed.

Lemma run_invariant (trace : list (Q * Event)) :
  forall (completed : bool) (s : State),
    core s -> phase completed s -> oneStream completed trace = true ->
    core (run s trace).
Proof.
  induction trace as [|e rest IH]; intros completed s Hcore Hphase Hone.
  - exact Hcore.
  - assert (Hsplit : oneStream completed [e] = true /\
                     oneStream (match snd e with EvComplete => true | _ => completed end)
                               rest = true).
    { simpl in *. destruct (snd e); try discriminate;
        try (split; [reflexivity | assumption]).
      apply andb_true_iff in Hone. destruct Hone as [H1 H2].
      rewrite H1. split; [reflexivity | assumption]. }
    destruct Hsplit as [H1 H2].
    destruct (step_invariant completed s e Hcore Hphase H1) as [Hc Hp].
    change (run s (e :: rest)) with (run (step s e) rest).
    exact (IH _ _ Hc Hp H2).
Qed.

(** C1. Blocks scheduled for one stream (chunks, timer rounds and ended
    events, [complete()] last among the calls): every block starts at
    [max(scheduledCursor, clock)], the cursor it leaves is its start plus
    its duration and is the cursor the next block sees, no block starts
    before the clock value of its scheduling, and start times never
    decrease. *)
Theorem blocks_start_in_order (accepted : bool) (rate : Q)
    (trace : list (Q * Event)) :
  0 < rate -> oneStream false trace = true ->
  let blocks := scheduled (run (newStreamer accepted rate) trace) in
  Forall (fun b =>
            blk_start b = Qmax (blk_cursor b) (blk_clock b) /\
            blk_cursor_after b = blk_start b + blk_duration b /\
            blk_clock b <= blk_start b) blocks /\
  chained blocks /\
  StronglySorted Qle (map blk_start blocks).
Proof.
  intros Hrate Hone blocks.
  assert (H : core (run (newStreamer accepted rate) trace)).
  { apply (run_invariant trace false); [| |exact Hone].
    - unfold core, newStreamer. cbn [sampleRate scheduled scheduledTime].
      repeat split; auto; constructor.
    - intros _. unfold newStreamer. cbn. auto. }
  destruct H as (_ & Hok & Hsort & _ & Hch & _).
  repeat split; assumption.
Qed.

Lemma blocks_start_in_order_witness :
  StronglySorted Qle
    (map blk_start
       (scheduled
          (run (newStreamer true 24000)
             [(0, EvAdd [x01; x02; x03; x04]); ((1 # 100), EvAdd [x05; x06]);
              ((1 # 10), EvInterval); ((2 # 10), EvComplete)]))).
Proof.
  destruct (blocks_start_in_order true 24000
              [(0, EvAdd [x01; x02; x03; x04]); ((1 # 100), EvAdd [x05; x06]);
               ((1 # 10), EvInterval); ((2 # 10), EvComplete)])
    as (_ & _ & H); [reflexivity | reflexivity | exact H].
Defined.

(** *** The completion callback *)

(** C2 fails as stated: on that stream [onComplete] is called twice, the
    first time inside [complete()], before the block has ended. *)
Lemma onComplete_early_and_twice :
  let s := run (newStreamer true 24000) earlyComplete in
  feasible (newStreamer true 24000) 0 earlyComplete = true /\
  oneStream false earlyComplete = true /\
  map blk_start (scheduled s) = [1 # 10] /\
  map cpl_clock (completions s) = [5 # 100; 2 # 10] /\
  map cpl_lastEnded (completions s) = [false; true] /\
  ~ completesOnce s.
Proof.
  cbv zeta. repeat split; try (vm_compute; reflexivity).
  intros [Hlen _]. vm_compute in Hlen. discriminate.
Qed.

Lemma startIfIdle_completions (now : Q) (s : State) :
  completions (startIfIdle now s) = completions s.
Proof.
  unfold startIfIdle. destruct (isPlaying s); [reflexivity|].
  match goal with |- context [scheduleNextBuffer now ?st] =>
    destruct (scheduleNextBuffer_fields now st) as (_ & H & _) end.
  exact H.
Qed.

(** C2, amended. [onComplete] is called in two places only, and one call
    at a time: by [complete()] when the queue is empty at that moment
    (whether or not scheduled blocks are still playing), and by the ended
    event of the block that emptied the queue, when the queue is still
    empty and the stream is marked complete.  At every call the stream is
    marked complete and nothing is queued. *)
Theorem onComplete_fires_on (s : State) (e : Q * Event) :
  completions (step s e) =
  completions s ++
    (if firesOn s e
     then [mkCompletion (fst e) true 0 (lastEnded (step s e))]
     else []).
Proof.
  destruct e as [now ev]. unfold step, firesOn. cbn [fst snd].
  destruct ev as [chunk| | |source| |v| | |].
  - unfold addPCM16. rewrite startIfIdle_completions.
    destruct (pushPCM16_fields chunk s) as (_ & _ & _ & _ & _ & H).
    rewrite H, app_nil_r. reflexivity.
  - destruct (scheduleNextBuffer_fields now (popTimeout s)) as (_ & H & _).
    rewrite H, app_nil_r. reflexivity.
  - rewrite app_nil_r. destruct (audioQueue s); [reflexivity|].
    destruct (scheduleNextBuffer_fields now s) as (_ & H & _). exact H.
  - unfold onended, fireComplete, lastEnded.
    cbn [audioQueue endOfQueueAudioSource isStreamComplete].
    destruct (audioQueue s) eqn:Hq; [destruct (endOfQueueAudioSource s) as [last|]|];
      [destruct (Nat.eqb last source); [destruct (isStreamComplete s) eqn:Hf|]| |];
      simpl; rewrite ?app_nil_r; reflexivity.
  - unfold complete, fireComplete, lastEnded. cbn [audioQueue].
    destruct (audioQueue s) eqn:Hq; simpl; rewrite ?app_nil_r; reflexivity.
  - rewrite app_nil_r. reflexivity.
  - rewrite app_nil_r. reflexivity.
  - rewrite app_nil_r. reflexivity.
  - rewrite app_nil_r. reflexivity.
Qed.

(** *** Volume *)

(** The streamer's gain after [setVolume(v)] is the clamped value. *)
Lemma setVolume_gain (v : Q) (s : State) :
  gain (setVolume v s) = clampVolume v.
Proof. reflexivity. Qed.

End StreamerSchedule.

(** ** Playback queue: what one call does *)
Module PlaybackSteps.
Import Playback.
Open Scope list_scope.
Open Scope Z_scope.

(** Reads a field through the field updates around a state. *)
Tactic Notation "fields" :=
  cbn [audioContext gainNode currentSource audioQueue currentPlayingItem
       isPlaying currentItem queueLength volume isMuted lastError errorCount
       isRecovering nextId nextSource audible awaitingEnded timers closing
       enqueued actions withContext withQueue withPlaying withCurrentItem
       withCurrentPlayingItem withCurrentSource withErrors withRecovering
       withVolume withSources withTimers withClosing withEnqueued report
       setTimeout requeue logError clearErrors fst snd].

Tactic Notation "fields" "in" hyp(H) :=
  cbn [audioContext gainNode currentSource audioQueue currentPlayingItem
       isPlaying currentItem queueLength volume isMuted lastError errorCount
       isRecovering nextId nextSource audible awaitingEnded timers closing
       enqueued actions withContext withQueue withPlaying withCurrentItem
       withCurrentPlayingItem withCurrentSource withErrors withRecovering
       withVolume withSources withTimers withClosing withEnqueued report
       setTimeout requeue logError clearErrors fst snd] in H.

Lemma silenceCurrent_fields (s : State) :
  let s' := silenceCurrent s in
  audioQueue s' = audioQueue s /\ enqueued s' = enqueued s /\
  nextId s' = nextId s /\ timers s' = timers s /\
  isRecovering s' = isRecovering s /\ queueLength s' = queueLength s /\
  actions s' = actions s /\ errorCount s' = errorCount s /\
  lastError s' = lastError s /\ currentSource s' = None /\
  nextSource s' = nextSource s /\ awaitingEnded s' = awaitingEnded s /\
  isPlaying s' = isPlaying s /\ closing s' = closing s /\
  gainNode s' = gainNode s /\ audioContext s' = audioContext s /\
  (currentSource s = None -> audible s' = audible s).
Proof.
  unfold silenceCurrent. destruct (currentSource s) eqn:Hc; simpl;
    repeat split; auto; discriminate.
Qed.

Lemma initAudioContext_spec (env : Env) (s : State) :
  let s' := fst (initAudioContext env s) in
  audioQueue s' = audioQueue s /\ enqueued s' = enqueued s /\
  nextId s' = nextId s /\ timers s' = timers s /\
  isRecovering s' = isRecovering s /\ queueLength s' = queueLength s /\
  closing s' = closing s /\ actions s' = actions s /\
  isPlaying s' = isPlaying s /\ currentSource s' = currentSource s /\
  nextSource s' = nextSource s /\ audible s' = audible s /\
  awaitingEnded s' = awaitingEnded s /\
  match snd (initAudioContext env s) with
  | None =>
      (audioContext s ||
       match env_newContext env with None => true | Some _ => false end) = true /\
      errorCount s' = errorCount s /\ lastError s' = lastError s
  | Some _ =>
      (audioContext s ||
       match env_newContext env with None => true | Some _ => false end) = false /\
      errorCount s' = errorCount s + 1
  end.
Proof.
  unfold initAudioContext, logError.
  destruct (audioContext s); [|destruct (env_newContext env)]; cbn;
    repeat split; auto.
Qed.

(** What [playAudioBuffer] does to the state: on success the item is
    reported as played, a new source is the only thing started, the error
    counter is untouched; on failure the error is logged (once, or twice
    when creating the context failed) and categorized by its message. *)
Lemma playAudioBuffer_spec (env : Env) (data : list byte) (id : nat) (s : State) :
  let s' := fst (playAudioBuffer env data (Some id) s) in
  audioQueue s' = audioQueue s /\ enqueued s' = enqueued s /\
  nextId s' = nextId s /\ timers s' = timers s /\
  isRecovering s' = isRecovering s /\ queueLength s' = queueLength s /\
  closing s' = closing s /\
  match snd (playAudioBuffer env data (Some id) s) with
  | None =>
      playSucceeds env s data = true /\
      actions s' = actions s ++ [Played id] /\
      errorCount s' = errorCount s /\ lastError s' = lastError s /\
      isPlaying s' = true /\ currentSource s' = Some (nextSource s) /\
      nextSource s' = S (nextSource s) /\
      audible s' = audible (silenceCurrent s) ++ [nextSource s] /\
      awaitingEnded s' = awaitingEnded s ++ [nextSource s]
  | Some msg =>
      playSucceeds env s data = false /\
      actions s' = actions s /\
      errorCount s < errorCount s' <= errorCount s + 2 /\
      (exists text, lastError s' =
                    Some (mkAudioError (categorize msg) text (Some id))) /\
      isPlaying s' = false /\ currentSource s' = None
  end.
Proof.
  unfold playAudioBuffer, playSucceeds.
  pose proof (initAudioContext_spec env s) as Hi. cbv zeta in Hi.
  destruct (initAudioContext env s) as [s1 r]. cbn [fst snd] in Hi.
  destruct Hi as (I1 & I2 & I3 & I4 & I5 & I6 & I7 & I8 & I9 & I10 & I11 & I12 & I13 & Hr).
  assert (Hsil : audible (silenceCurrent s1) = audible (silenceCurrent s)).
  { unfold silenceCurrent. rewrite I10. destruct (currentSource s); cbn; congruence. }
  unfold playCatch, logError.
  destruct r as [msg|].
  { destruct Hr as [Hr He]. rewrite Hr.
    cbn -[categorize Z.add]. repeat split; auto; try lia. eexists; reflexivity. }
  destruct Hr as (Hr & He & Hl). rewrite Hr.
  destruct (env_suspended env);
    [cbn -[categorize Z.add]; repeat split; auto; try lia; eexists; reflexivity|].
  set (s2 := if isPlaying s1 ||
                match currentSource s1 with Some _ => true | None => false end
             then withPlaying false (silenceCurrent s1) else s1).
  assert (H2 : audioQueue s2 = audioQueue s /\ enqueued s2 = enqueued s /\
               nextId s2 = nextId s /\ timers s2 = timers s /\
               isRecovering s2 = isRecovering s /\ queueLength s2 = queueLength s /\
               closing s2 = closing s /\ actions s2 = actions s /\
               errorCount s2 = errorCount s /\ lastError s2 = lastError s /\
               currentSource s2 = None /\ nextSource s2 = nextSource s /\
               audible s2 = audible (silenceCurrent s) /\
               awaitingEnded s2 = awaitingEnded s).
  { rewrite <- Hsil. subst s2. unfold silenceCurrent.
    destruct (isPlaying s1); destruct (currentSource s1) eqn:Hc; cbn;
      rewrite ?Hc; repeat split; auto. }
  clearbody s2.
  destruct H2 as (J1 & J2 & J3 & J4 & J5 & J6 & J7 & J8 & J9 & J10 & J11 & J12 & J13 & J14).
  remember (audible (silenceCurrent s)) as quiet_now eqn:Hquiet. clear Hquiet Hsil.
  unfold silenceCurrent. cbn [currentSource withPlaying]. rewrite J11.
  destruct data as [|b data];
    [cbn -[categorize Z.add]; repeat split; auto; try lia; eexists; reflexivity|].
  destruct (env_decode env);
    [cbn -[categorize Z.add]; repeat split; auto; try lia; eexists; reflexivity|].
  destruct (env_start env);
    cbn -[categorize Z.add]; repeat split; auto; try lia; try congruence.
  eexists; reflexivity.
Qed.

Lemma processQueue_idle (env : Env) (s : State) :
  isPlaying s = true \/ audioQueue s = [] -> processQueue env s = s.
Proof.
  unfold processQueue, isQueueEmpty. intros [H|H]; rewrite H.
  - reflexivity.
  - rewrite orb_true_r. reflexivity.
Qed.

Lemma processQueue_halt (env : Env) (s : State) :
  isPlaying s = false -> audioQueue s <> [] -> 5 <= errorCount s ->
  processQueue env s = report Halted (withRecovering true s).
Proof.
  unfold processQueue, isQueueEmpty. intros Hp Hq He. rewrite Hp.
  destruct (audioQueue s); [congruence|]. cbn [length Nat.eqb orb].
  rewrite (proj2 (Z.leb_le _ _) He). reflexivity.
Qed.

(** [processQueue] with something to do: the head of the queue is taken
    and played; depending on how that goes the error counter moves and
    the item is dropped, or put back for another try. *)
Lemma processQueue_play (env : Env) (s : State) (item : AudioQueueItem)
    (rest : list AudioQueueItem) :
  isPlaying s = false -> audioQueue s = item :: rest -> errorCount s < 5 ->
  let s' := processQueue env s in
  enqueued s' = enqueued s /\ nextId s' = nextId s /\
  isRecovering s' = isRecovering s /\ closing s' = closing s /\
  queueLength s' = length (audioQueue s') /\
  if playSucceeds env s (item_audioData item) then
    audioQueue s' = rest /\
    actions s' = actions s ++ [Played (item_id item)] /\
    errorCount s' =
      (if 0 <? errorCount s then Z.max 0 (errorCount s - 1) else errorCount s) /\
    isPlaying s' = true /\ currentSource s' = Some (nextSource s) /\
    nextSource s' = S (nextSource s) /\
    audible s' = audible (silenceCurrent s) ++ [nextSource s] /\
    awaitingEnded s' = awaitingEnded s ++ [nextSource s] /\
    timers s' = timers s
  else
    errorCount s < errorCount s' <= errorCount s + 2 /\
    isPlaying s' = false /\ currentSource s' = None /\
    exists err, lastError s' = Some err /\
      match err_type err with
      | DECODE_ERROR =>
          audioQueue s' = rest /\
          actions s' = actions s ++ [Skipped (item_id item)] /\
          timers s' = timers s ++ [100]
      | CONTEXT_ERROR | PLAYBACK_ERROR =>
          if retryCountOf item <? 2 then
            if isStreamingChunk item then
              audioQueue s' = rest /\
              actions s' = actions s ++ [StreamSkipped (item_id item)] /\
              timers s' = timers s ++ [100]
            else
              audioQueue s' = bumpRetry item :: rest /\
              actions s' = actions s ++ [Retried (item_id item)] /\
              timers s' = timers s ++ [1000]
          else
            audioQueue s' = rest /\
            actions s' = actions s ++ [GaveUp (item_id item)] /\
            timers s' = timers s ++ [500]
      | _ => False
      end.
Proof.
  intros Hp Hq He. unfold processQueue, isQueueEmpty, dequeueAudio.
  rewrite Hp, Hq. cbn [length Nat.eqb orb].
  rewrite (proj2 (Z.leb_gt _ _) He).
  set (s2 := withCurrentPlayingItem (Some item)
               (withCurrentItem (Some item) (withQueue rest s))).
  pose proof (playAudioBuffer_spec env (item_audioData item) (item_id item) s2) as P.
  cbv zeta in P.
  assert (Hsame : playSucceeds env s2 (item_audioData item) =
                  playSucceeds env s (item_audioData item)) by reflexivity.
  assert (Hsil : audible (silenceCurrent s2) = audible (silenceCurrent s)).
  { unfold silenceCurrent, s2. cbn. destruct (currentSource s); reflexivity. }
  rewrite Hsame, Hsil in P.
  change (audioQueue s2) with rest in P.
  change (enqueued s2) with (enqueued s) in P.
  change (nextId s2) with (nextId s) in P.
  change (timers s2) with (timers s) in P.
  change (isRecovering s2) with (isRecovering s) in P.
  change (queueLength s2) with (length rest) in P.
  change (closing s2) with (closing s) in P.
  change (actions s2) with (actions s) in P.
  change (errorCount s2) with (errorCount s) in P.
  change (lastError s2) with (lastError s) in P.
  change (nextSource s2) with (nextSource s) in P.
  change (awaitingEnded s2) with (awaitingEnded s) in P.
  clearbody s2.
  destruct (playAudioBuffer env (item_audioData item) (Some (item_id item)) s2)
    as [s3 r].
  cbn [fst snd] in P.
  destruct P as (P1 & P2 & P3 & P4 & P5 & P6 & P7 & P).
  destruct r as [msg|].
  - destruct P as (Hs & Ha & Hcnt & (text & Hl) & Hpl & Hcs).
    rewrite Hs, Hl. unfold shouldSkipItem, shouldRetryItem. cbn [err_type].
    assert (Hcat : categorize msg = DECODE_ERROR \/ categorize msg = CONTEXT_ERROR
                   \/ categorize msg = PLAYBACK_ERROR).
    { unfold categorize.
      destruct (includes "decode" msg || includes "Encoding" msg); auto.
      destruct (includes "context" msg || includes "suspended" msg); auto. }
    destruct Hcat as [Hcat|[Hcat|Hcat]]; rewrite Hcat; cbn [andb];
      try destruct (retryCountOf item <? 2); try destruct (isStreamingChunk item);
      fields; rewrite ?P1, ?Ha, ?Hl;
      (repeat split; auto; try lia);
      (eexists; split; [reflexivity|]); cbn [err_type]; rewrite ?Hcat, ?P4; auto.
  - destruct P as (Hs & Ha & Hcnt & Hl & Hpl & Hcs & Hns & Hau & Haw).
    rewrite Hs, Hcnt.
    destruct (0 <? errorCount s); fields; rewrite ?P1; repeat split; auto.
Qed.

End PlaybackSteps.

(** ** Volume *)
Module VolumeFacts.
Import Playback.
Open Scope list_scope.

(** C10 fails as stated on the queue path: after one item was played
    (the gain node exists) and the output was muted, [setVolume(0.5)]
    leaves the gain node at 0 instead of applying 0.5. *)
Lemma setVolume_muted_gain_untouched :
  let s := run init [EvEnqueue quiet [x01] None; EvToggleMute] in
  isMuted s = true /\ gainNode s = Some 0%Q /\
  gainNode (setVolume (1 # 2) s) = Some 0%Q /\
  volume (setVolume (1 # 2) s) = clampVolume (1 # 2) /\
  ~ (0 == clampVolume (1 # 2))%Q.
Proof.
  cbv zeta. repeat split; try (vm_compute; reflexivity).
  vm_compute. discriminate.
Qed.

(** C10, amended. [setVolume(v)] clamps: the streamer's gain node takes
    [max(0, min(1, v))]; the queue manager stores that value as its
    volume and applies it to its gain node when there is one and the
    output is not muted (a muted or absent gain node is left as it is);
    the value is always within [0,1]. *)
Theorem setVolume_clamps (v : Q) (streamer : Streamer.State) (s : State) :
  Streamer.gain (Streamer.setVolume v streamer) = clampVolume v /\
  volume (setVolume v s) = clampVolume v /\
  gainNode (setVolume v s) =
    match gainNode s with
    | Some g => Some (if isMuted s then g else clampVolume v)
    | None => None
    end /\
  (0 <= clampVolume v /\ clampVolume v <= 1)%Q.
Proof.
  split; [reflexivity|]. split.
  - unfold setVolume. cbn. destruct (gainNode s); [destruct (isMuted s)|]; reflexivity.
  - split; [|apply clampVolume_range].
    unfold setVolume. cbn. destruct (gainNode s) as [g|] eqn:Hg;
      [destruct (isMuted s)|]; cbn; congruence.
Qed.

End VolumeFacts.

(** ** Playback queue: health and recovery *)
Module PlaybackHealth.
Import Playback PlaybackSteps.
Open Scope list_scope.
Open Scope Z_scope.

Lemma processQueue_recovering (env : Env) (s : State) :
  isRecovering (processQueue env s) =
  isRecovering s ||
  (negb (isPlaying s) && negb (isQueueEmpty s) && (5 <=? errorCount s)).
Proof.
  destruct (isPlaying s) eqn:Hp.
  - rewrite processQueue_idle by auto. cbn. rewrite orb_false_r. reflexivity.
  - destruct (audioQueue s) as [|item rest] eqn:Hq.
    + rewrite processQueue_idle by auto. unfold isQueueEmpty. rewrite Hq.
      cbn. rewrite orb_false_r. reflexivity.
    + unfold isQueueEmpty. rewrite Hq. cbn [length Nat.eqb negb andb].
      destruct (5 <=? errorCount s) eqn:He.
      * rewrite processQueue_halt; auto; [|congruence|apply Z.leb_le; exact He].
        cbn. rewrite orb_true_r. reflexivity.
      * apply Z.leb_gt in He.
        destruct (processQueue_play env s item rest Hp Hq He) as (_ & _ & H & _).
        rewrite H, orb_false_r. reflexivity.
Qed.

Lemma prepareAudioContext_recovering (env : Env) (s : State) :
  isRecovering (prepareAudioContext env s) = isRecovering s.
Proof.
  unfold prepareAudioContext.
  pose proof (initAudioContext_spec env s) as H. cbv zeta in H.
  destruct (initAudioContext env s) as [s1 r]. cbn [fst snd] in H.
  destruct H as (_ & _ & _ & _ & H & _).
  destruct r; [|destruct (env_suspended env); [destruct (env_resume env)|]];
    fields; exact H.
Qed.

Lemma recoverEnd_recovering (env : Env) (s : State) :
  isRecovering (recoverEnd env s) = false.
Proof. reflexivity. Qed.

(** C8 fails as stated: with the queue halted after five failures
    ([isRecovering] set), [clearQueue()], which is no recovery, clears
    the flag; and [recoverFromErrors()] sets the flag on a healthy queue
    manager with no error counted, for as long as it waits for the
    context to close. *)
Lemma isRecovering_cleared_by_clearQueue :
  let bad := mkEnv None false None (Some "bad data"%string) None None in
  let s := run init (repeat (EvEnqueue bad [x01] None) 6) in
  let healthy := run init [EvEnqueue quiet [x01] None] in
  (isRecovering s = true /\ errorCount s = 5 /\
   isRecovering (step s EvClearQueue) = false) /\
  (isRecovering healthy = false /\ errorCount healthy = 0 /\
   isRecovering (step healthy (EvRecover quiet)) = true) /\
  ~ recoveringDiscipline.
Proof.
  cbv zeta.
  split; [repeat match goal with |- _ /\ _ => split end; vm_compute; reflexivity|].
  split; [repeat match goal with |- _ /\ _ => split end; vm_compute; reflexivity|].
  intro H.
  destruct (H (run init (repeat (EvEnqueue (mkEnv None false None (Some "bad data"%string) None None) [x01] None) 6))
              EvClearQueue) as [_ Hclear].
  destruct Hclear as [env [He|He]];
    [vm_compute; reflexivity | vm_compute; reflexivity | discriminate | discriminate].
Qed.

(** C8, amended. [isRecovering] changes in these ways only.  It turns on
    when [processQueue] runs (from [enqueueAudio], a timer or
    [resumeQueue]) with nothing playing, the queue not empty and the
    error counter at 5 or more, and when [recoverFromErrors] starts and
    has a context to close.  It turns off when [recoverFromErrors] ends
    and on [clearErrors()], [clearQueue()] and [cleanup()]. *)
Theorem isRecovering_changes (s : State) (e : Event) :
  isRecovering (step s e) =
  if isRecovering s then negb (clearsRecovering s e) else setsRecovering s e.
Proof.
  destruct e as [env data md|env k|source|env|env| | |itemId|v| | | |env|env|];
    unfold step, clearsRecovering, setsRecovering.
  - (* enqueueAudio *)
    unfold enqueueAudio. destruct data as [|b data].
    + fields. destruct (isRecovering s); reflexivity.
    + cbn [fst].
      match goal with |- isRecovering (if ?c then prepareAudioContext env ?x else ?x) = _ =>
        assert (Hprep : isRecovering (if c then prepareAudioContext env x else x) =
                        isRecovering x)
          by (destruct c; [apply prepareAudioContext_recovering | reflexivity]);
        rewrite Hprep; clear Hprep
      end.
      fields. destruct (isRecovering s) eqn:Hr.
      * rewrite andb_false_r. fields. exact Hr.
      * rewrite andb_true_r. destruct (isPlaying s) eqn:Hp; cbn [negb andb].
        -- fields. exact Hr.
        -- rewrite processQueue_recovering. fields. rewrite Hr, Hp.
           unfold isQueueEmpty. fields. rewrite length_app. cbn [length].
           replace (length (audioQueue s) + 1)%nat with (S (length (audioQueue s))) by lia.
           reflexivity.
  - (* a timer *)
    destruct (k <? length (timers s))%nat.
    + rewrite processQueue_recovering. unfold isQueueEmpty. fields.
      destruct (isRecovering s); reflexivity.
    + destruct (isRecovering s) eqn:Hr; cbn; auto.
  - (* an ended event *)
    destruct (existsb (Nat.eqb source) (awaitingEnded s)); unfold onended; fields;
      destruct (isRecovering s); reflexivity.
  - (* recoverFromErrors *)
    assert (Hctx : audioContext (recoverBegin s) = audioContext s).
    { unfold recoverBegin, stopPlayback. fields.
      destruct (silenceCurrent_fields (withRecovering true s)) as
        (_ & _ & _ & _ & _ & _ & _ & _ & _ & _ & _ & _ & _ & _ & _ & H & _).
      exact H. }
    rewrite Hctx. destruct (audioContext s).
    + fields. unfold recoverBegin, stopPlayback. fields.
      destruct (silenceCurrent_fields (withRecovering true s)) as
        (_ & _ & _ & _ & H & _).
      cbv zeta in H. rewrite H. fields. destruct (isRecovering s); reflexivity.
    + rewrite recoverEnd_recovering. destruct (isRecovering s); reflexivity.
  - (* close() settles *)
    destruct (closing s).
    + destruct (isRecovering s); reflexivity.
    + rewrite recoverEnd_recovering. destruct (isRecovering s); reflexivity.
  - destruct (isRecovering s); reflexivity.
  - destruct (isRecovering s); reflexivity.
  - unfold removeFromQueue.
    destruct (existsb (fun item => Nat.eqb (item_id item) itemId) (audioQueue s));
      fields; destruct (isRecovering s); reflexivity.
  - unfold setVolume. fields.
    destruct (gainNode s); [destruct (negb (isMuted s))|]; fields;
      destruct (isRecovering s); reflexivity.
  - unfold toggleMute. fields. destruct (gainNode s); fields;
      destruct (isRecovering s); reflexivity.
  - unfold stopPlayback. fields.
    destruct (silenceCurrent_fields s) as (_ & _ & _ & _ & H & _).
    cbv zeta in H. rewrite H. destruct (isRecovering s); reflexivity.
  - unfold pauseQueue, stopPlayback. fields.
    destruct (silenceCurrent_fields s) as (_ & _ & _ & _ & H & _).
    cbv zeta in H. rewrite H. destruct (isRecovering s); reflexivity.
  - unfold resumeQueue, hasItemsInQueue, isQueueEmpty.
    destruct (isRecovering s) eqn:Hr.
    + rewrite andb_false_r. exact Hr.
    + rewrite andb_true_r.
      destruct (negb (isPlaying s) && negb (Nat.eqb (length (audioQueue s)) 0)) eqn:Hc.
      * rewrite processQueue_recovering, Hr. unfold isQueueEmpty.
        rewrite Hc. reflexivity.
      * rewrite Hr. reflexivity.
  - rewrite prepareAudioContext_recovering. destruct (isRecovering s); reflexivity.
  - destruct (isRecovering s); reflexivity.
Qed.






End PlaybackHealth.

(** ** Playback queue: retries *)
Module PlaybackRetry.
Import Playback PlaybackSteps.
Open Scope list_scope.
Open Scope Z_scope.

Lemma retries_app (id : nat) (l1 l2 : list Action) :
  retries id (l1 ++ l2) = (retries id l1 + retries id l2)%nat.
Proof. unfold retries. rewrite filter_app, length_app. reflexivity. Qed.

(** Items leave the queue. *)
Lemma books_shrink (q q' enq : list AudioQueueItem) acts nid :
  books q enq acts nid ->
  (forall x, In x q' -> In x q) -> NoDup (map item_id q') ->
  books q' enq acts nid.
Proof.
  intros (H1 & H2 & H3 & H4 & H5 & H6 & H7 & H8) Hsub Hnd.
  repeat split; auto.
Qed.

(** The trail grows by an entry that is not a retry. *)
Lemma books_note (q enq : list AudioQueueItem) acts nid (a : Action) :
  books q enq acts nid -> (forall id, retries id [a] = 0%nat) ->
  books q enq (acts ++ [a]) nid.
Proof.
  intros (H1 & H2 & H3 & H4 & H5 & H6 & H7 & H8) Ha.
  repeat split; auto; intros; rewrite retries_app, Ha, Nat.add_0_r; auto.
Qed.

Lemma retryCountOf_bump (item : AudioQueueItem) :
  retryCountOf (bumpRetry item) = retryCountOf item + 1.
Proof. reflexivity. Qed.

Lemma retries_single (id i : nat) :
  retries id [Retried i] = if Nat.eqb i id then 1%nat else 0%nat.
Proof. unfold retries. cbn. destruct (Nat.eqb i id); reflexivity. Qed.

(** The retry branch: the head goes back with its count raised. *)
Lemma books_retry (item : AudioQueueItem) (rest enq : list AudioQueueItem)
    acts nid :
  books (item :: rest) enq acts nid ->
  retryCountOf item < 2 -> isStreamingChunk item = false ->
  books (bumpRetry item :: rest) enq (acts ++ [Retried (item_id item)]) nid.
Proof.
  intros (H1 & H2 & H3 & H4 & H5 & H6 & H7 & H8) Hlt Hns.
  assert (Hhead : Z.of_nat (retries (item_id item) acts) <= retryCountOf item)
    by (apply H3; left; reflexivity).
  assert (Hfresh : forall x, In x rest -> item_id x <> item_id item).
  { intros x Hx Heq. inversion H2 as [|? ? Hnot _]; subst.
    apply Hnot. rewrite <- Heq. apply in_map. exact Hx. }
  repeat split.
  - intros x [<-|Hx]; [apply (H1 item); left; reflexivity | apply H1; right; exact Hx].
  - exact H2.
  - intros x [<-|Hx]; rewrite retries_app, retries_single.
    + cbn [item_id bumpRetry]. rewrite Nat.eqb_refl, retryCountOf_bump. lia.
    + destruct (Nat.eqb (item_id item) (item_id x)) eqn:E.
      * apply Nat.eqb_eq in E. exfalso. apply (Hfresh x Hx). congruence.
      * rewrite Nat.add_0_r. apply H3. right. exact Hx.
  - intro id. rewrite retries_app, retries_single.
    destruct (Nat.eqb (item_id item) id) eqn:E.
    + apply Nat.eqb_eq in E. subst id. lia.
    + rewrite Nat.add_0_r. apply H4.
  - intros id Hid. rewrite retries_app, retries_single.
    destruct (Nat.eqb (item_id item) id) eqn:E.
    + apply Nat.eqb_eq in E. subst id.
      assert (item_id item < nid)%nat by (apply H1; left; reflexivity). lia.
    + rewrite Nat.add_0_r. apply H5. exact Hid.
  - exact H6.
  - intros x e [<-|Hx] He Hid.
    + apply (H7 item e); [left; reflexivity | exact He | exact Hid].
    + apply H7; [right; exact Hx | exact He | exact Hid].
  - intros e He Hst. rewrite retries_app, retries_single.
    destruct (Nat.eqb (item_id item) (item_id e)) eqn:E.
    + apply Nat.eqb_eq in E.
      assert (isStreamingChunk item = isStreamingChunk e)
        by (apply H7; [left; reflexivity | exact He | exact E]).
      congruence.
    + rewrite Nat.add_0_r. apply H8; assumption.
Qed.

(** An item is accepted. *)
Lemma books_enqueue (q enq : list AudioQueueItem) acts nid
    (item : AudioQueueItem) :
  books q enq acts nid -> item_id item = nid -> 0 <= retryCountOf item ->
  books (q ++ [item]) (enq ++ [item]) acts (S nid).
Proof.
  intros (H1 & H2 & H3 & H4 & H5 & H6 & H7 & H8) Hid Hr.
  repeat split.
  - intros x Hx. apply in_app_or in Hx. destruct Hx as [Hx|[<-|[]]].
    + specialize (H1 x Hx). lia.
    + lia.
  - rewrite map_app. cbn. apply NoDup_app; auto.
    + constructor; [intros []|constructor].
    + intros i Hi [<-|[]]. apply in_map_iff in Hi.
      destruct Hi as (x & Hx1 & Hx2). specialize (H1 x Hx2). lia.
  - intros x Hx. apply in_app_or in Hx. destruct Hx as [Hx|[<-|[]]].
    + apply H3. exact Hx.
    + rewrite H5 by lia. exact Hr.
  - exact H4.
  - intros id Hle. apply H5. lia.
  - intros e He. apply in_app_or in He. destruct He as [He|[<-|[]]].
    + specialize (H6 e He). lia.
    + lia.
  - intros x e Hx He Heq.
    apply in_app_or in Hx. apply in_app_or in He.
    destruct Hx as [Hx|[<-|[]]]; destruct He as [He|[<-|[]]].
    + apply H7; assumption.
    + specialize (H1 x Hx). lia.
    + specialize (H6 e He). lia.
    + reflexivity.
  - intros e He Hst. apply in_app_or in He. destruct He as [He|[<-|[]]].
    + apply H8; assumption.
    + apply H5. lia.
Qed.

Lemma books_tail (item : AudioQueueItem) (rest enq : list AudioQueueItem)
    acts nid :
  books (item :: rest) enq acts nid -> books rest enq acts nid.
Proof.
  intro H. eapply books_shrink; [exact H| |].
  - intros x Hx. right. exact Hx.
  - destruct H as (_ & H2 & _). inversion H2; assumption.
Qed.

Lemma processQueue_books (env : Env) (s : State) :
  bookkeeping s -> bookkeeping (processQueue env s).
Proof.
  intro H. destruct (isPlaying s) eqn:Hp.
  { rewrite processQueue_idle by auto. exact H. }
  destruct (audioQueue s) as [|item rest] eqn:Hq.
  { rewrite processQueue_idle by auto. exact H. }
  destruct (Z.le_gt_cases 5 (errorCount s)) as [He|He].
  { rewrite processQueue_halt; auto; [|congruence].
    unfold bookkeeping. fields. apply books_note; [exact H|reflexivity]. }
  destruct (processQueue_play env s item rest Hp Hq He) as (P1 & P2 & _ & _ & _ & P).
  cbv zeta in *. unfold bookkeeping in *. rewrite P1, P2. rewrite Hq in H.
  destruct (playSucceeds env s (item_audioData item)).
  - destruct P as (Pq & Pa & _). rewrite Pq, Pa.
    apply books_note; [eapply books_tail; exact H | reflexivity].
  - destruct P as (_ & _ & _ & err & _ & P).
    destruct (err_type err); try contradiction.
    + destruct P as (Pq & Pa & _). rewrite Pq, Pa.
      apply books_note; [eapply books_tail; exact H | reflexivity].
    + destruct (retryCountOf item <? 2) eqn:Hr;
        [destruct (isStreamingChunk item) eqn:Hs|];
        destruct P as (Pq & Pa & _); rewrite Pq, Pa.
      * apply books_note; [eapply books_tail; exact H | reflexivity].
      * apply books_retry; [exact H | apply Z.ltb_lt; exact Hr | exact Hs].
      * apply books_note; [eapply books_tail; exact H | reflexivity].
    + destruct (retryCountOf item <? 2) eqn:Hr;
        [destruct (isStreamingChunk item) eqn:Hs|];
        destruct P as (Pq & Pa & _); rewrite Pq, Pa.
      * apply books_note; [eapply books_tail; exact H | reflexivity].
      * apply books_retry; [exact H | apply Z.ltb_lt; exact Hr | exact Hs].
      * apply books_note; [eapply books_tail; exact H | reflexivity].
Qed.

Lemma bookkeeping_same (s s' : State) :
  audioQueue s' = audioQueue s -> enqueued s' = enqueued s ->
  actions s' = actions s -> nextId s' = nextId s ->
  bookkeeping s -> bookkeeping s'.
Proof. unfold bookkeeping. intros -> -> -> ->. auto. Qed.

Lemma stopPlayback_same (s : State) :
  audioQueue (stopPlayback s) = audioQueue s /\
  enqueued (stopPlayback s) = enqueued s /\
  actions (stopPlayback s) = actions s /\
  nextId (stopPlayback s) = nextId s.
Proof.
  unfold stopPlayback. fields.
  destruct (silenceCurrent_fields s) as (Q1 & Q2 & Q3 & _ & _ & _ & Q7 & _).
  auto.
Qed.

Lemma recoverEnd_same (env : Env) (s : State) :
  audioQueue (recoverEnd env s) = audioQueue s /\
  enqueued (recoverEnd env s) = enqueued s /\
  actions (recoverEnd env s) = actions s /\
  nextId (recoverEnd env s) = nextId s.
Proof.
  unfold recoverEnd.
  destruct (if audioContext s then env_close env else None); [fields; auto|].
  set (s0 := if audioContext s then withContext false None s else s).
  assert (H0 : audioQueue s0 = audioQueue s /\ enqueued s0 = enqueued s /\
               actions s0 = actions s /\ nextId s0 = nextId s)
    by (unfold s0; destruct (audioContext s); fields; auto).
  destruct H0 as (Z1 & Z2 & Z3 & Z4). clearbody s0.
  pose proof (initAudioContext_spec env (clearErrors s0)) as H.
  cbv zeta in H.
  destruct (initAudioContext env (clearErrors s0)) as [s2 r].
  cbn [fst snd] in H. destruct H as (I1 & I2 & I3 & _ & _ & _ & _ & I8 & _).
  fields. fields in I1. fields in I2. fields in I3. fields in I8.
  destruct r; [|destruct (hasItemsInQueue s2)]; fields;
    repeat split; congruence.
Qed.

Lemma prepareAudioContext_same (env : Env) (s : State) :
  audioQueue (prepareAudioContext env s) = audioQueue s /\
  enqueued (prepareAudioContext env s) = enqueued s /\
  actions (prepareAudioContext env s) = actions s /\
  nextId (prepareAudioContext env s) = nextId s.
Proof.
  unfold prepareAudioContext.
  pose proof (initAudioContext_spec env s) as H. cbv zeta in H.
  destruct (initAudioContext env s) as [s1 r]. cbn [fst snd] in H.
  destruct H as (I1 & I2 & I3 & _ & _ & _ & _ & I8 & _).
  destruct r; [|destruct (env_suspended env); [destruct (env_resume env)|]];
    fields; auto.
Qed.

Lemma removeFirst_In (itemId : nat) (q : list AudioQueueItem) (x : AudioQueueItem) :
  In x (removeFirst itemId q) -> In x q.
Proof.
  induction q as [|h t IH]; cbn; [auto|].
  destruct (Nat.eqb (item_id h) itemId); cbn; intuition.
Qed.

Lemma removeFirst_NoDup (itemId : nat) (q : list AudioQueueItem) :
  NoDup (map item_id q) -> NoDup (map item_id (removeFirst itemId q)).
Proof.
  induction q as [|h t IH]; cbn; intro H; [exact H|].
  inversion H as [|? ? Hnot Hrest]; subst.
  destruct (Nat.eqb (item_id h) itemId); [exact Hrest|].
  cbn. constructor; [|apply IH; exact Hrest].
  intro Hin. apply Hnot. apply in_map_iff in Hin.
  destruct Hin as (x & Hx1 & Hx2). rewrite <- Hx1.
  apply in_map. eapply removeFirst_In. exact Hx2.
Qed.

(** Every event keeps the bookkeeping. *)
Lemma step_books (s : State) (e : Event) :
  freshMetadata e -> bookkeeping s -> bookkeeping (step s e).
Proof.
  intros Hfresh H.
  destruct e as [env data md|env k|source|env|env| | |itemId|v| | | |env|env|];
    unfold step.
  - (* enqueueAudio *)
    unfold enqueueAudio. destruct data as [|b data]; [exact H|]. cbn [fst].
    set (item := mkItem (nextId s) (b :: data) _ _).
    assert (H1 : bookkeeping (withEnqueued item (withQueue (audioQueue s ++ [item]) s))).
    { unfold bookkeeping. fields. apply books_enqueue; [exact H|reflexivity|].
      unfold retryCountOf, item. cbn [item_metadata].
      destruct md as [m|]; [|cbn; lia].
      cbn in Hfresh. destruct (md_retryCount m); lia. }
    set (s1 := withEnqueued item (withQueue (audioQueue s ++ [item]) s)) in *.
    assert (H2 : bookkeeping (if negb (isPlaying s1) && negb (isRecovering s1)
                              then processQueue env s1 else s1)).
    { destruct (negb (isPlaying s1) && negb (isRecovering s1));
        [apply processQueue_books|]; exact H1. }
    destruct (audioContext s && env_suspended env); [|exact H2].
    match goal with |- bookkeeping (prepareAudioContext env ?x) =>
      destruct (prepareAudioContext_same env x) as (E1 & E2 & E3 & E4) end.
    eapply bookkeeping_same; eauto.
  - (* a timer *)
    destruct (k <? length (timers s))%nat; [|exact H].
    apply processQueue_books. exact H.
  - (* an ended event *)
    destruct (existsb (Nat.eqb source) (awaitingEnded s)); exact H.
  - (* recoverFromErrors *)
    assert (Hb : bookkeeping (recoverBegin s)).
    { unfold recoverBegin.
      destruct (stopPlayback_same (withRecovering true s)) as (E1 & E2 & E3 & E4).
      eapply bookkeeping_same; eauto. }
    destruct (audioContext (recoverBegin s)); [exact Hb|].
    destruct (recoverEnd_same env (recoverBegin s)) as (E1 & E2 & E3 & E4).
    eapply bookkeeping_same; eauto.
  - (* close() settles *)
    destruct (closing s) as [|n]; [exact H|].
    destruct (recoverEnd_same env (withClosing n s)) as (E1 & E2 & E3 & E4).
    eapply bookkeeping_same; eauto.
  - (* clearQueue *)
    unfold clearQueue, bookkeeping. fields.
    eapply books_shrink; [exact H|intros x []|constructor].
  - exact H.
  - (* removeFromQueue *)
    unfold removeFromQueue.
    destruct (existsb (fun item => Nat.eqb (item_id item) itemId) (audioQueue s));
      [|exact H].
    unfold bookkeeping. fields.
    eapply books_shrink; [exact H|apply removeFirst_In|].
    apply removeFirst_NoDup. destruct H as (_ & H2 & _). exact H2.
  - unfold setVolume. fields.
    destruct (gainNode s); [destruct (negb (isMuted s))|]; exact H.
  - unfold toggleMute. fields. destruct (gainNode s); exact H.
  - destruct (stopPlayback_same s) as (E1 & E2 & E3 & E4).
    eapply bookkeeping_same; eauto.
  - destruct (stopPlayback_same s) as (E1 & E2 & E3 & E4).
    eapply bookkeeping_same; eauto.
  - unfold resumeQueue.
    destruct (negb (isPlaying s) && hasItemsInQueue s && negb (isRecovering s));
      [apply processQueue_books|]; exact H.
  - destruct (prepareAudioContext_same env s) as (E1 & E2 & E3 & E4).
    eapply bookkeeping_same; eauto.
  - (* cleanup *)
    unfold cleanup, clearQueue, bookkeeping. fields.
    destruct (stopPlayback_same s) as (E1 & E2 & E3 & E4).
    rewrite E2, E3, E4.
    eapply books_shrink; [exact H|intros x []|constructor].
Qed.

Lemma run_books (trace : list Event) (s : State) :
  Forall freshMetadata trace -> bookkeeping s -> bookkeeping (run s trace).
Proof.
  revert s. induction trace as [|e rest IH]; intros s Hf H; [exact H|].
  inversion Hf; subst. cbn. apply IH; [assumption|].
  apply step_books; assumption.
Qed.

(** C4.  Whatever happens to the queue manager, an item is retried at
    most twice and a streaming item never (items are enqueued without a
    negative [retryCount] of their own).  When the playback of the
    dequeued head fails: a decode error skips the item; a context or
    playback error puts the same item back at the front with its retry
    count raised and a 1000 ms timer, if it was retried fewer than two
    times and is no streaming chunk; a streaming chunk is skipped
    instead, and after two retries the item is given up. *)
Theorem retry_policy (trace : list Event) :
  Forall freshMetadata trace ->
  let s := run init trace in
  (forall item, In item (enqueued s) ->
     (retries (item_id item) (actions s) <= 2)%nat /\
     (isStreamingChunk item = true ->
      retries (item_id item) (actions s) = 0%nat)) /\
  (forall env item rest,
     isPlaying s = false -> audioQueue s = item :: rest -> errorCount s < 5 ->
     playSucceeds env s (item_audioData item) = false ->
     let s' := processQueue env s in
     exists err, lastError s' = Some err /\
       match err_type err with
       | DECODE_ERROR =>
           audioQueue s' = rest /\
           actions s' = actions s ++ [Skipped (item_id item)]
       | CONTEXT_ERROR | PLAYBACK_ERROR =>
           if (retryCountOf item <? 2) && negb (isStreamingChunk item) then
             audioQueue s' = bumpRetry item :: rest /\
             actions s' = actions s ++ [Retried (item_id item)] /\
             timers s' = timers s ++ [1000]
           else
             audioQueue s' = rest /\
             retries (item_id item) (actions s') =
               retries (item_id item) (actions s)
       | _ => False
       end).
Proof.
  intros Hfresh s.
  assert (H : bookkeeping s).
  { apply run_books; [exact Hfresh|].
    unfold bookkeeping, init. cbn [audioQueue enqueued actions nextId].
    unfold books.
    split; [intros x []|]. split; [constructor|]. split; [intros x []|].
    split; [intro id; cbn; lia|]. split; [reflexivity|].
    split; [intros e []|]. split; [intros x e []|intros e []]. }
  split.
  - destruct H as (_ & _ & _ & H4 & _ & _ & _ & H8).
    intros item Hin. split; [apply H4 | apply H8; exact Hin].
  - intros env item rest Hp Hq He Hfail.
    destruct (processQueue_play env s item rest Hp Hq He) as (_ & _ & _ & _ & _ & P).
    cbv zeta in *. rewrite Hfail in P.
    destruct P as (_ & _ & _ & err & Hl & P).
    exists err. split; [exact Hl|].
    destruct (err_type err); try contradiction.
    + destruct P as (Pq & Pa & _). auto.
    + destruct (retryCountOf item <? 2); [destruct (isStreamingChunk item)|];
        cbn [andb negb]; destruct P as (Pq & Pa & Pt); auto;
        (split; [exact Pq|]); rewrite Pa, retries_app; cbn; lia.
    + destruct (retryCountOf item <? 2); [destruct (isStreamingChunk item)|];
        cbn [andb negb]; destruct P as (Pq & Pa & Pt); auto;
        (split; [exact Pq|]); rewrite Pa, retries_app; cbn; lia.
Qed.

Lemma retry_policy_witness :
  let suspended := mkEnv None true None None None None in
  (retries 0
     (actions
        (run init [EvEnqueue suspended [x01] None; EvTimer suspended 0;
                   EvTimer suspended 0; EvTimer suspended 0])) <= 2)%nat.
Proof.
  cbv zeta.
  destruct (retry_policy
              [EvEnqueue (mkEnv None true None None None None) [x01] None;
               EvTimer (mkEnv None true None None None None) 0;
               EvTimer (mkEnv None true None None None None) 0;
               EvTimer (mkEnv None true None None None None) 0])
    as [H _].
  - repeat constructor.
  - destruct (H (mkItem 0 [x01] "websocket" emptyMetadata)) as [Hle _].
    + vm_compute. left. reflexivity.
    + exact Hle.
Defined.

End PlaybackRetry.

(** ** Playback queue: one at a time, first in first out *)
Module PlaybackFifo.
Import Playback PlaybackSteps.
Open Scope list_scope.
Open Scope Z_scope.

Lemma calm_succeeds (env : Env) (s : State) (data : list byte) :
  calm env = true -> data <> [] -> playSucceeds env s data = true.
Proof.
  unfold calm, playSucceeds. intros Hc Hd.
  destruct (env_newContext env); [discriminate|].
  destruct (env_decode env); [discriminate|].
  destruct (env_start env); [discriminate|].
  rewrite Hc. destruct data; [congruence|].
  rewrite orb_true_r. reflexivity.
Qed.

Lemma played_app (l1 l2 : list Action) :
  played (l1 ++ l2) = played l1 ++ played l2.
Proof. apply flat_map_app. Qed.

(** An idle, orderly queue manager with a waiting head plays that head. *)
Lemma processQueue_takes_head (env : Env) (s : State) (item : AudioQueueItem)
    (rest : list AudioQueueItem) :
  calm env = true -> orderly s -> isPlaying s = false ->
  audioQueue s = item :: rest ->
  let s' := processQueue env s in
  orderly s' /\ isPlaying s' = true /\ audioQueue s' = rest /\
  played (actions s') = played (actions s) ++ [item_id item] /\
  S (queueLength s') = queueLength s.
Proof.
  intros Hcalm (O1 & O2 & O3 & O4 & O5 & O6) Hp Hq.
  assert (He : errorCount s < 5) by lia.
  destruct (processQueue_play env s item rest Hp Hq He) as (P1 & P2 & P3 & P4 & P5 & P).
  cbv zeta in *.
  rewrite calm_succeeds in P; [|exact Hcalm|apply O4; rewrite Hq; left; reflexivity].
  destruct P as (Pq & Pa & Pe & Ppl & Pcs & Pns & Pau & Paw & Pt).
  destruct (currentSource s) as [src|] eqn:Hcs; [destruct O6; congruence|].
  destruct O6 as (_ & Oa & Ow).
  assert (Hsil : audible (silenceCurrent s) = []).
  { unfold silenceCurrent. rewrite Hcs. exact Oa. }
  rewrite Hsil in Pau. rewrite Ow in Paw.
  repeat split.
  - rewrite Pe, O1. reflexivity.
  - congruence.
  - exact P5.
  - intros q Hin. apply O4. rewrite Hq. right. rewrite <- Pq. exact Hin.
  - rewrite P1, Pa, Pq, played_app, <- O5, Hq. cbn. rewrite <- app_assoc. reflexivity.
  - rewrite Pcs. auto.
  - exact Ppl.
  - exact Pq.
  - rewrite Pa, played_app. reflexivity.
  - rewrite P5, Pq, O3, Hq. reflexivity.
Qed.

Lemma processQueue_orderly (env : Env) (s : State) :
  calm env = true -> orderly s -> orderly (processQueue env s).
Proof.
  intros Hcalm H. destruct (isPlaying s) eqn:Hp.
  { rewrite processQueue_idle by auto. exact H. }
  destruct (audioQueue s) as [|item rest] eqn:Hq.
  { rewrite processQueue_idle by auto. exact H. }
  apply (processQueue_takes_head env s item rest Hcalm H Hp Hq).
Qed.

(** Accepting an item keeps the order. *)
Lemma push_orderly (s : State) (item : AudioQueueItem) :
  orderly s -> item_audioData item <> [] ->
  orderly (withEnqueued item (withQueue (audioQueue s ++ [item]) s)).
Proof.
  intros (O1 & O2 & O3 & O4 & O5 & O6) Hd. unfold orderly. fields.
  repeat split; auto.
  - intros q Hin. apply in_app_or in Hin. destruct Hin as [Hin|[<-|[]]]; auto.
  - rewrite !map_app, app_assoc, O5. reflexivity.
Qed.

Lemma step_orderly (s : State) (e : Event) :
  smooth e = true -> orderly s -> orderly (step s e).
Proof.
  intros Hs H.
  destruct e as [env data md|env k|source|env|env| | |itemId|v| | | |env|env|];
    try discriminate; unfold step; cbn [smooth] in Hs.
  - destruct data as [|b data]; [discriminate|].
    unfold enqueueAudio. cbn [fst].
    set (item := mkItem (nextId s) (b :: data) _ _).
    assert (H1 : orderly (withEnqueued item (withQueue (audioQueue s ++ [item]) s)))
      by (apply push_orderly; [exact H|discriminate]).
    set (s1 := withEnqueued item (withQueue (audioQueue s ++ [item]) s)) in *.
    assert (Hsus : env_suspended env = false).
    { unfold calm in Hs. destruct (env_newContext env), (env_decode env),
        (env_start env); try discriminate. destruct (env_suspended env); auto. }
    rewrite Hsus, andb_false_r.
    destruct (negb (isPlaying s1) && negb (isRecovering s1));
      [apply processQueue_orderly; assumption | exact H1].
  - destruct (k <? length (timers s))%nat; [|exact H].
    apply processQueue_orderly; [exact Hs|exact H].
  - destruct (existsb (Nat.eqb source) (awaitingEnded s)) eqn:Hex; [|exact H].
    destruct H as (O1 & O2 & O3 & O4 & O5 & O6).
    destruct (currentSource s) as [src|] eqn:Hcs;
      destruct O6 as (Op & Oa & Ow); rewrite Ow in Hex; cbn in Hex;
      [|discriminate].
    rewrite orb_false_r in Hex. apply Nat.eqb_eq in Hex. subst src.
    rewrite Oa, Ow. cbn [filter]. rewrite Nat.eqb_refl. cbn [negb].
    unfold onended, orderly. fields. repeat split; auto.
  - unfold resumeQueue.
    destruct (negb (isPlaying s) && hasItemsInQueue s && negb (isRecovering s));
      [apply processQueue_orderly; assumption | exact H].
Qed.

Lemma run_orderly (trace : list Event) (s : State) :
  forallb smooth trace = true -> orderly s -> orderly (run s trace).
Proof.
  revert s. induction trace as [|e rest IH]; intros s Hs H; [exact H|].
  cbn in Hs. apply andb_true_iff in Hs. destruct Hs as [H1 H2].
  cbn. apply IH; [exact H2|]. apply step_orderly; assumption.
Qed.

Lemma prepareAudioContext_queue (env : Env) (s : State) :
  audioQueue (prepareAudioContext env s) = audioQueue s /\
  actions (prepareAudioContext env s) = actions s /\
  queueLength (prepareAudioContext env s) = queueLength s.
Proof.
  unfold prepareAudioContext.
  pose proof (initAudioContext_spec env s) as H. cbv zeta in H.
  destruct (initAudioContext env s) as [s1 r]. cbn [fst snd] in H.
  destruct H as (I1 & _ & _ & _ & _ & I6 & _ & I8 & _).
  destruct r; [|destruct (env_suspended env); [destruct (env_resume env)|]];
    fields; auto.
Qed.

(** As long as items are only enqueued and played, with no failure and
    no [pauseQueue()], [stopPlayback()] or recovery in between: at most
    one source sounds at any time; the items played so far followed by
    the waiting ones are the enqueued ones in enqueue order, and
    [queueLength] is the number waiting.  An [enqueueAudio] while nothing
    plays starts processing at once (the oldest waiting item, or the new
    one if none waits, begins to play); while an item plays the new one
    is appended and waits; and whenever [processQueue] takes an item it
    is the head of the queue and [queueLength] goes down by one. *)
Lemma uninterrupted_queue_is_fifo (trace : list Event) :
  forallb smooth trace = true ->
  let s := run init trace in
  (length (audible s) <= 1)%nat /\
  played (actions s) ++ map item_id (audioQueue s) = map item_id (enqueued s) /\
  queueLength s = length (audioQueue s) /\
  (forall env b data md,
     calm env = true -> isPlaying s = false ->
     let s' := step s (EvEnqueue env (b :: data) md) in
     isPlaying s' = true /\
     played (actions s') =
       played (actions s) ++ [hd (nextId s) (map item_id (audioQueue s))] /\
     queueLength s' = queueLength s) /\
  (forall env b data md,
     isPlaying s = true ->
     let s' := step s (EvEnqueue env (b :: data) md) in
     played (actions s') = played (actions s) /\
     map item_id (audioQueue s') = map item_id (audioQueue s) ++ [nextId s] /\
     queueLength s' = S (queueLength s)) /\
  (forall env item rest,
     calm env = true -> isPlaying s = false -> audioQueue s = item :: rest ->
     let s' := processQueue env s in
     audioQueue s' = rest /\
     played (actions s') = played (actions s) ++ [item_id item] /\
     S (queueLength s') = queueLength s).
Proof.
  intros Hsmooth s.
  assert (H : orderly s).
  { apply run_orderly; [exact Hsmooth|].
    unfold orderly, init. cbn. repeat split; auto. }
  pose proof H as (O1 & O2 & O3 & O4 & O5 & O6).
  split; [|split; [|split; [|split; [|split]]]].
  - destruct (currentSource s); destruct O6 as (_ & Oa & _); rewrite Oa; cbn; lia.
  - exact O5.
  - exact O3.
  - (* enqueue while idle *)
    intros env b data md Hcalm Hp. unfold step, enqueueAudio. cbn [fst].
    set (item := mkItem (nextId s) (b :: data) _ _).
    assert (H1 : orderly (withEnqueued item (withQueue (audioQueue s ++ [item]) s)))
      by (apply push_orderly; [exact H|discriminate]).
    set (s1 := withEnqueued item (withQueue (audioQueue s ++ [item]) s)) in *.
    assert (Hsus : env_suspended env = false).
    { unfold calm in Hcalm. destruct (env_newContext env), (env_decode env),
        (env_start env); try discriminate. destruct (env_suspended env); auto. }
    rewrite Hsus, andb_false_r.
    change (isPlaying s1) with (isPlaying s).
    change (isRecovering s1) with (isRecovering s).
    rewrite Hp, O2. cbn [negb andb].
    assert (Hlen : queueLength s1 = S (queueLength s)).
    { unfold s1. fields. rewrite length_app, O3. cbn [length]. lia. }
    assert (Hacts : actions s1 = actions s) by reflexivity.
    assert (Hqueue : audioQueue s1 = audioQueue s ++ [item]) by reflexivity.
    assert (Hp1 : isPlaying s1 = false) by exact Hp.
    clearbody s1.
    destruct (audioQueue s) as [|head rest] eqn:Hq.
    + destruct (processQueue_takes_head env s1 item [] Hcalm H1 Hp1 Hqueue)
        as (_ & T1 & _ & T3 & T4).
      cbv zeta in *. rewrite Hacts in T3.
      split; [exact T1|]. split; [exact T3|]. lia.
    + destruct (processQueue_takes_head env s1 head (rest ++ [item]) Hcalm H1 Hp1 Hqueue)
        as (_ & T1 & _ & T3 & T4).
      cbv zeta in *. rewrite Hacts in T3.
      split; [exact T1|]. split; [exact T3|]. lia.
  - (* enqueue while busy *)
    intros env b data md Hp. unfold step, enqueueAudio. cbn [fst].
    set (item := mkItem (nextId s) (b :: data) _ _).
    set (s1 := withEnqueued item (withQueue (audioQueue s ++ [item]) s)).
    change (isPlaying s1) with (isPlaying s). rewrite Hp. cbn [negb andb].
    assert (Hgoal : played (actions s1) = played (actions s) /\
                    map item_id (audioQueue s1) = map item_id (audioQueue s) ++ [nextId s] /\
                    queueLength s1 = S (queueLength s)).
    { unfold s1. fields. rewrite map_app, length_app, O3. cbn.
      repeat split; auto. lia. }
    destruct (audioContext s && env_suspended env); [|exact Hgoal].
    destruct (prepareAudioContext_queue env s1) as (E1 & E2 & E3).
    rewrite E1, E2, E3. exact Hgoal.
  - intros env item rest Hcalm Hp Hq.
    destruct (processQueue_takes_head env s item rest Hcalm H Hp Hq)
      as (_ & _ & T2 & T3 & T4).
    auto.
Qed.

Example uninterrupted_queue_is_fifo_example :
  let s := run init [EvEnqueue quiet [x01] None; EvEnqueue quiet [x02] None;
                     EvEnqueue quiet [x03] None; EvEnded 0; EvTimer quiet 0;
                     EvEnded 1; EvTimer quiet 0] in
  (length (audible s) <= 1)%nat /\
  played (actions s) ++ map item_id (audioQueue s) = map item_id (enqueued s).
Proof.
  cbv zeta.
  destruct (uninterrupted_queue_is_fifo
              [EvEnqueue quiet [x01] None; EvEnqueue quiet [x02] None;
               EvEnqueue quiet [x03] None; EvEnded 0; EvTimer quiet 0;
               EvEnded 1; EvTimer quiet 0]) as (H1 & H2 & _).
  - reflexivity.
  - split; [exact H1 | exact H2].
Qed.

(** C5.  Single flight does not survive the ended event of a source that
    was stopped.  [playAudioBuffer] stops whatever [currentSource] holds
    before it starts a source, but the [onended] handler it installs
    does not look at which source ended (the handler of [AudioStreamer]
    does): it clears [isPlaying] and [currentSource] and arms the timer
    for the next item.  Three items are enqueued; [pauseQueue()] stops
    the first and [resumeQueue()] starts the second.  Then the ended
    event of the first arrives: the second still sounds, yet nothing
    counts as playing.  When the timer fires, the third item starts
    beside the second: two sources sound at once. *)
Theorem stale_ended_starts_a_second_source :
  let resumed := run init [EvEnqueue quiet [x01] None; EvEnqueue quiet [x02] None;
                           EvEnqueue quiet [x03] None; EvPause; EvResume quiet] in
  let ended := step resumed (EvEnded 0) in
  let s := step ended (EvTimer quiet 0) in
  (audible resumed = [1%nat] /\ currentSource resumed = Some 1%nat /\
   isPlaying resumed = true /\ map item_id (audioQueue resumed) = [2%nat]) /\
  (audible ended = [1%nat] /\ currentSource ended = None /\
   isPlaying ended = false /\ timers ended = [100]) /\
  (audible s = [1%nat; 2%nat] /\ (1 < length (audible s))%nat /\
   played (actions s) = [0%nat; 1%nat; 2%nat] /\ errorCount s = 0).
Proof. vm_compute. repeat split; auto. Qed.

End PlaybackFifo.

(** ** Chunk deduplication *)
Module DedupFacts.
Import Dedup.

(** C6 fails as stated: the fingerprint reads only the length and the
    first 16 bytes, so a chunk that arrives after a different chunk with
    the same fingerprint is dropped at its first and at its second
    submission, and is never forwarded. *)
Lemma collision_drops_new_chunk :
  let streamer := Streamer.newStreamer true 24000 in
  let s := feed (mkState [] (Some streamer) true true [])
                [(0%Q, click17); (0%Q, silence17); (0%Q, silence17)] in
  sameBytes silence17 click17 = false /\
  fingerprint silence17 = fingerprint click17 /\
  forwarded s = [click17] /\
  forwardedTimes silence17 s = 0%nat /\
  ~ forwardsOnce.
Proof.
  cbv zeta.
  split; [vm_compute; reflexivity|].
  split; [vm_compute; reflexivity|].
  split; [vm_compute; reflexivity|].
  split; [vm_compute; reflexivity|].
  intro H.
  specialize (H (Streamer.newStreamer true 24000) silence17
                [(0%Q, click17); (0%Q, silence17); (0%Q, silence17)]).
  assert (Hlen : (length [(0%Q, click17); (0%Q, silence17); (0%Q, silence17)]
                  <= 100)%nat) by (cbn; lia).
  assert (Hsub : submittedTimes silence17
                   [(0%Q, click17); (0%Q, silence17); (0%Q, silence17)] = 2%nat)
    by (vm_compute; reflexivity).
  specialize (H Hlen Hsub). vm_compute in H. discriminate.
Qed.

Lemma fingerprint_nonempty (x : list byte) : fingerprint x <> ""%string.
Proof.
  unfold fingerprint.
  destruct (NilEmpty.string_of_uint (Nat.to_uint (length x))); discriminate.
Qed.

Lemma set_has_In (x : string) (m : StringSet) :
  set_has x m = true <-> In x m.
Proof.
  unfold set_has. rewrite existsb_exists. split.
  - intros (y & Hy & E). apply String.eqb_eq in E. subst. exact Hy.
  - intro H. exists x. split; [exact H|apply String.eqb_refl].
Qed.

Lemma set_has_notIn (x : string) (m : StringSet) :
  set_has x m = false <-> ~ In x m.
Proof.
  rewrite <- set_has_In. destruct (set_has x m); split; intro H;
    try discriminate; try (intro; discriminate); auto. exfalso. apply H. reflexivity.
Qed.

Lemma set_delete_absent (x : string) (m : StringSet) :
  ~ In x m -> set_delete x m = m.
Proof.
  unfold set_delete. induction m as [|h t IH]; intro H; [reflexivity|].
  cbn. destruct (String.eqb x h) eqn:E.
  - apply String.eqb_eq in E. subst. exfalso. apply H. left. reflexivity.
  - cbn. f_equal. apply IH. intro Hin. apply H. right. exact Hin.
Qed.

Lemma sameBytes_eq (x y : list byte) : sameBytes x y = true <-> x = y.
Proof.
  revert y. induction x as [|a x IH]; intros [|b y]; cbn; split; intro H;
    try discriminate; try reflexivity.
  - apply andb_true_iff in H. destruct H as [H1 H2].
    apply Byte.byte_dec_bl in H1. apply IH in H2. congruence.
  - injection H as -> ->. apply andb_true_iff. split.
    + apply Byte.byte_dec_lb. reflexivity.
    + apply IH. reflexivity.
Qed.

(** What the cache looks like after a chunk with a new fingerprint [f]:
    [f] joins at the end, and the oldest entry leaves if that makes 101. *)
Lemma cache_after_new (cache : StringSet) (f : string) :
  wellFormedCache cache -> ~ In f cache -> f <> ""%string ->
  let added := set_add f cache in
  let kept :=
    if (100 <? length added)%nat then
      match added with
      | firstItem :: _ =>
          if String.eqb firstItem "" then added else set_delete firstItem added
      | [] => added
      end
    else added in
  kept = (if (length cache <? 100)%nat then cache else tl cache) ++ [f] /\
  wellFormedCache kept.
Proof.
  intros (Hnd & Hlen & Hne) Hf Hfne. cbv zeta.
  unfold set_add. rewrite (proj2 (set_has_notIn f cache) Hf).
  rewrite length_app. cbn [length].
  assert (Hwf : wellFormedCache (cache ++ [f])
                \/ length cache = 100%nat).
  { destruct (Nat.eq_dec (length cache) 100) as [E|E]; [right; exact E|left].
    repeat split.
    - apply NoDup_app; auto.
      + constructor; [intros []|constructor].
      + intros y Hy [<-|[]]. exact (Hf Hy).
    - rewrite length_app. cbn. lia.
    - apply Forall_app. split; [exact Hne|constructor; [exact Hfne|constructor]]. }
  destruct (length cache <? 100)%nat eqn:Hlt.
  - apply Nat.ltb_lt in Hlt.
    assert (H100 : (100 <? length cache + 1)%nat = false) by (apply Nat.ltb_ge; lia).
    rewrite H100. split; [reflexivity|].
    destruct Hwf as [Hwf|E]; [exact Hwf|lia].
  - apply Nat.ltb_ge in Hlt.
    assert (H100 : (100 <? length cache + 1)%nat = true) by (apply Nat.ltb_lt; lia).
    rewrite H100. destruct cache as [|h t]; [cbn in Hlt; lia|].
    cbn [app tl]. inversion Hne as [|? ? Hh Ht]; subst.
    rewrite (proj2 (String.eqb_neq h "") Hh).
    inversion Hnd as [|? ? Hnot Hnd']; subst.
    assert (Hdel : set_delete h (h :: t ++ [f]) = t ++ [f]).
    { unfold set_delete. cbn [filter]. rewrite String.eqb_refl. cbn [negb].
      apply set_delete_absent. intro Hin. apply in_app_or in Hin.
      destruct Hin as [Hin|[<-|[]]]; [exact (Hnot Hin)|].
      apply Hf. left. reflexivity. }
    rewrite Hdel. split; [reflexivity|].
    repeat split.
    + apply NoDup_app; auto.
      * constructor; [intros []|constructor].
      * intros y Hy [<-|[]]. apply Hf. right. exact Hy.
    + rewrite length_app. cbn in *. lia.
    + apply Forall_app. split; [exact Ht|constructor; [exact Hfne|constructor]].
Qed.

Lemma processPCMChunk_duplicate (now : Q) (x : list byte) (md : bool) (s : State) :
  set_has (fingerprint x) (processedChunks s) = true ->
  processPCMChunk now x md s = s.
Proof. unfold processPCMChunk. intros ->. reflexivity. Qed.

Lemma processPCMChunk_new (now : Q) (x : list byte) (md : bool) (s : State) :
  wellFormedCache (processedChunks s) ->
  set_has (fingerprint x) (processedChunks s) = false ->
  let s' := processPCMChunk now x md s in
  processedChunks s' =
    (if (length (processedChunks s) <? 100)%nat
     then processedChunks s else tl (processedChunks s)) ++ [fingerprint x] /\
  wellFormedCache (processedChunks s') /\
  match audioStreamer s with
  | Some _ => forwarded s' = forwarded s ++ [x] /\ audioStreamer s' <> None
  | None => forwarded s' = forwarded s /\ audioStreamer s' = None
  end.
Proof.
  intros Hwf Hnew. unfold processPCMChunk. rewrite Hnew.
  destruct (cache_after_new (processedChunks s) (fingerprint x) Hwf
              (proj1 (set_has_notIn _ _) Hnew) (fingerprint_nonempty x))
    as [Hk Hw].
  cbv zeta in *.
  destruct (audioStreamer s); cbn [processedChunks forwarded audioStreamer];
    (split; [exact Hk|split; [exact Hw|split; [reflexivity|]]]);
    [discriminate|reflexivity].
Qed.

(** One more chunk pushes a cached fingerprint at most one place towards
    the exit, and cannot push it out while fewer than 99 entries are
    behind it. *)
Lemma cachedWithin_step (now : Q) (y : list byte) (md : bool) (s : State)
    (f : string) (k : nat) :
  wellFormedCache (processedChunks s) ->
  cachedWithin f k (processedChunks s) -> (k <= 98)%nat ->
  let s' := processPCMChunk now y md s in
  wellFormedCache (processedChunks s') /\
  cachedWithin f (S k) (processedChunks s').
Proof.
  intros Hwf (older & newer & Hc & Hk) Hk98. cbv zeta.
  destruct (set_has (fingerprint y) (processedChunks s)) eqn:Hy.
  - rewrite processPCMChunk_duplicate by exact Hy.
    split; [exact Hwf|]. exists older, newer. split; [exact Hc|lia].
  - destruct (processPCMChunk_new now y md s Hwf Hy) as (Hp & Hw & _).
    cbv zeta in *. split; [exact Hw|]. rewrite Hp.
    destruct (length (processedChunks s) <? 100)%nat eqn:Hlt.
    + exists older, (newer ++ [fingerprint y]).
      rewrite Hc, <- app_assoc. cbn. split; [reflexivity|].
      rewrite length_app. cbn. lia.
    + apply Nat.ltb_ge in Hlt. rewrite Hc in Hlt |- *.
      rewrite length_app in Hlt. cbn in Hlt.
      destruct older as [|h older']; [cbn in Hlt; lia|].
      cbn [app tl]. exists older', (newer ++ [fingerprint y]).
      rewrite <- app_assoc. cbn. split; [reflexivity|].
      rewrite length_app. cbn. lia.
Qed.

Lemma cachedWithin_In (f : string) (k : nat) (cache : StringSet) :
  cachedWithin f k cache -> set_has f cache = true.
Proof.
  intros (older & newer & -> & _). apply set_has_In.
  apply in_or_app. right. left. reflexivity.
Qed.

(** While the fingerprint of [x] is cached, no chunk that gets through is
    [x]. *)
Lemma forwardedTimes_step (now : Q) (x y : list byte) (md : bool) (s : State) :
  wellFormedCache (processedChunks s) ->
  set_has (fingerprint x) (processedChunks s) = true ->
  forwardedTimes x (processPCMChunk now y md s) = forwardedTimes x s.
Proof.
  intros Hwf Hx.
  destruct (set_has (fingerprint y) (processedChunks s)) eqn:Hy.
  - rewrite processPCMChunk_duplicate by exact Hy. reflexivity.
  - destruct (processPCMChunk_new now y md s Hwf Hy) as (_ & _ & Hf).
    cbv zeta in Hf. unfold forwardedTimes.
    destruct (audioStreamer s); destruct Hf as [Hf _]; rewrite Hf; [|reflexivity].
    rewrite filter_app, length_app. cbn [filter].
    destruct (sameBytes x y) eqn:E; [|cbn; lia].
    apply sameBytes_eq in E. subst y. congruence.
Qed.

Lemma feed_window (x : list byte) (between : list (Q * list byte)) :
  forall (s : State) (k : nat),
    wellFormedCache (processedChunks s) ->
    cachedWithin (fingerprint x) k (processedChunks s) ->
    (k + length between <= 99)%nat ->
    let s' := feed s between in
    wellFormedCache (processedChunks s') /\
    set_has (fingerprint x) (processedChunks s') = true /\
    forwardedTimes x s' = forwardedTimes x s.
Proof.
  induction between as [|c rest IH]; intros s k Hwf Hc Hk.
  - cbn. split; [exact Hwf|].
    split; [eapply cachedWithin_In; exact Hc | reflexivity].
  - cbn [length] in Hk.
    destruct (cachedWithin_step (fst c) (snd c) true s (fingerprint x) k Hwf Hc)
      as [Hw' Hc']; [lia|].
    cbv zeta in *.
    destruct (IH (processPCMChunk (fst c) (snd c) true s) (S k) Hw' Hc') as (R1 & R2 & R3);
      [lia|].
    change (feed s (c :: rest)) with (feed (processPCMChunk (fst c) (snd c) true s) rest).
    split; [exact R1|]. split; [exact R2|].
    rewrite R3. apply forwardedTimes_step; [exact Hwf|].
    eapply cachedWithin_In. exact Hc.
Qed.

(** C6, amended.  The filter keeps the fingerprints (byte length and hex
    of the first 16 bytes) of the chunks it let through, in arrival
    order, at most 100 of them: a new fingerprint joins at the end and
    pushes the oldest out when the cache is full.  A chunk whose
    fingerprint is cached is dropped.  So bytes that arrive while no
    chunk with their fingerprint is cached (and a streamer exists) are
    forwarded, and when the same bytes arrive again with fewer than 100
    chunks in between, they are dropped: forwarded exactly once. *)
Theorem duplicate_forwarded_once (s : State) (streamer : Streamer.State)
    (x : list byte) (between : list (Q * list byte)) (now now' : Q) :
  wellFormedCache (processedChunks s) ->
  audioStreamer s = Some streamer ->
  set_has (fingerprint x) (processedChunks s) = false ->
  (length between < 100)%nat ->
  let s1 := processPCMChunk now x true s in
  let s2 := feed s1 between in
  let s3 := processPCMChunk now' x true s2 in
  forwarded s1 = forwarded s ++ [x] /\
  processedChunks s1 =
    (if (length (processedChunks s) <? 100)%nat
     then processedChunks s else tl (processedChunks s)) ++ [fingerprint x] /\
  s3 = s2 /\
  forwardedTimes x s3 = S (forwardedTimes x s) /\
  wellFormedCache (processedChunks s3).
Proof.
  intros Hwf Hst Hnew Hlen. cbv zeta.
  destruct (processPCMChunk_new now x true s Hwf Hnew) as (Hp & Hw & Hf).
  cbv zeta in *. rewrite Hst in Hf. destruct Hf as [Hf _].
  assert (Hc : cachedWithin (fingerprint x) 0 (processedChunks (processPCMChunk now x true s))).
  { rewrite Hp.
    exists (if (length (processedChunks s) <? 100)%nat
            then processedChunks s else tl (processedChunks s)), [].
    split; [reflexivity|cbn; lia]. }
  destruct (feed_window x between (processPCMChunk now x true s) 0 Hw Hc)
    as (R1 & R2 & R3); [lia|].
  cbv zeta in *.
  rewrite (processPCMChunk_duplicate now' x true _ R2).
  split; [exact Hf|]. split; [exact Hp|]. split; [reflexivity|].
  split; [|exact R1].
  rewrite R3. unfold forwardedTimes. rewrite Hf, filter_app, length_app.
  cbn [filter]. rewrite (proj2 (sameBytes_eq x x) eq_refl). cbn. lia.
Qed.

Lemma duplicate_forwarded_once_witness :
  forwardedTimes silence17
    (processPCMChunk 1 silence17 true
       (feed (processPCMChunk 0 silence17 true
                (mkState [] (Some (Streamer.newStreamer true 24000)) true true []))
             [(0%Q, [x01; x02])])) = 1%nat.
Proof.
  destruct (duplicate_forwarded_once
              (mkState [] (Some (Streamer.newStreamer true 24000)) true true [])
              (Streamer.newStreamer true 24000) silence17 [(0%Q, [x01; x02])] 0 1)
    as (_ & _ & _ & H & _).
  - repeat constructor.
  - reflexivity.
  - reflexivity.
  - cbn. lia.
  - exact H.
Defined.

End DedupFacts.

(** ** Voice activity detection *)
Module VADFacts.
Import VAD.
Open Scope Z_scope.

Lemma voiceStarts_app (l1 l2 : list Emitted) :
  voiceStarts (l1 ++ l2) = (voiceStarts l1 + voiceStarts l2)%nat.
Proof. unfold voiceStarts. rewrite filter_app, length_app. reflexivity. Qed.

(** A loud round while not speaking: the deadline is set if none is
    pending, and kept if one is; nothing else changes. *)
Lemma loud_step (s : State) (e : Z * Event) :
  analyser s = true -> isSpeaking s = false -> loud (vadConfig s) e ->
  let s' := step s e in
  analyser s' = true /\ isSpeaking s' = false /\
  vadConfig s' = vadConfig s /\ onVoiceStart s' = onVoiceStart s /\
  voiceStarts (emitted s') = voiceStarts (emitted s) /\
  voiceTimer s' =
    Some match voiceTimer s with
         | Some due => due
         | None => fst e + voiceTimeout (vadConfig s)
         end.
Proof.
  intros Ha Hs Hl. destruct e as [now ev]. unfold loud in Hl. cbn [snd] in Hl.
  destruct ev as [suspended data| |]; try contradiction.
  destruct suspended; [contradiction|].
  unfold step, analyzeVolume. cbn [fst snd]. rewrite Ha. cbn [negb].
  destruct (onVolumeChange s) eqn:Hv;
    cbn -[averageVolume Qltb Z.add voiceStarts];
    rewrite (proj2 (Qltb_true _ _) Hl);
    unfold handleVoiceActivity; cbn -[averageVolume Qltb Z.add voiceStarts];
    rewrite Hs; destruct (voiceTimer s);
    cbn -[averageVolume Qltb Z.add voiceStarts];
    rewrite ?voiceStarts_app, ?Nat.add_0_r; auto 10.
Qed.

Lemma loud_run (rounds : list (Z * Event)) :
  forall s : State,
    analyser s = true -> isSpeaking s = false ->
    Forall (loud (vadConfig s)) rounds ->
    let s' := run s rounds in
    analyser s' = true /\ isSpeaking s' = false /\
    vadConfig s' = vadConfig s /\ onVoiceStart s' = onVoiceStart s /\
    voiceStarts (emitted s') = voiceStarts (emitted s) /\
    voiceTimer s' =
      match voiceTimer s, rounds with
      | Some due, _ => Some due
      | None, e :: _ => Some (fst e + voiceTimeout (vadConfig s))
      | None, [] => None
      end.
Proof.
  induction rounds as [|e rest IH]; intros s Ha Hs Hl.
  - cbn. destruct (voiceTimer s); auto 10.
  - inversion Hl as [|? ? He Hrest]; subst.
    destruct (loud_step s e Ha Hs He) as (A1 & A2 & A3 & A4 & A5 & A6).
    cbv zeta in *. rewrite <- A3 in Hrest.
    destruct (IH (step s e) A1 A2 Hrest) as (B1 & B2 & B3 & B4 & B5 & B6).
    change (run s (e :: rest)) with (run (step s e) rest).
    cbv zeta in *. rewrite A6 in B6.
    repeat split; try congruence.
    rewrite B6. destruct (voiceTimer s); reflexivity.
Qed.

(** Loud rounds while speaking start no deadline and call nothing but
    [onVolumeChange]. *)
Lemma loud_run_speaking (rounds : list (Z * Event)) :
  forall s : State,
    analyser s = true -> isSpeaking s = true -> voiceTimer s = None ->
    Forall (loud (vadConfig s)) rounds ->
    let s' := run s rounds in
    isSpeaking s' = true /\ voiceTimer s' = None /\
    voiceStarts (emitted s') = voiceStarts (emitted s).
Proof.
  induction rounds as [|e rest IH]; intros s Ha Hs Ht Hl.
  - cbn. auto.
  - inversion Hl as [|? ? He Hrest]; subst.
    change (run s (e :: rest)) with (run (step s e) rest).
    assert (Hstep : analyser (step s e) = true /\ isSpeaking (step s e) = true /\
                    voiceTimer (step s e) = None /\
                    vadConfig (step s e) = vadConfig s /\
                    voiceStarts (emitted (step s e)) = voiceStarts (emitted s)).
    { destruct e as [now ev]. unfold loud in He. cbn [snd] in He.
      destruct ev as [suspended data| |]; try contradiction.
      destruct suspended; [contradiction|].
      unfold step, analyzeVolume. cbn [fst snd]. rewrite Ha. cbn [negb].
      destruct (onVolumeChange s) eqn:Hv;
        cbn -[averageVolume Qltb Z.add voiceStarts];
        rewrite (proj2 (Qltb_true _ _) He);
        unfold handleVoiceActivity; cbn -[averageVolume Qltb Z.add voiceStarts];
        rewrite Hs; cbn -[averageVolume Qltb Z.add voiceStarts];
        rewrite ?voiceStarts_app, ?Nat.add_0_r; auto 10. }
    destruct Hstep as (S1 & S2 & S3 & S4 & S5).
    rewrite <- S4 in Hrest.
    destruct (IH (step s e) S1 S2 S3 Hrest) as (B1 & B2 & B3).
    cbv zeta in *. repeat split; congruence.
Qed.

(** A faint round cancels a pending voice deadline. *)
Lemma faint_step (s : State) (e : Z * Event) :
  analyser s = true -> isSpeaking s = false -> faint (vadConfig s) e ->
  let s' := step s e in
  isSpeaking s' = false /\ voiceTimer s' = None /\
  voiceStarts (emitted s') = voiceStarts (emitted s).
Proof.
  intros Ha Hs Hf. destruct e as [now ev]. unfold faint in Hf. cbn [snd] in Hf.
  destruct ev as [suspended data| |]; try contradiction.
  destruct suspended; [contradiction|].
  unfold step, analyzeVolume. cbn [fst snd]. rewrite Ha. cbn [negb].
  destruct (onVolumeChange s) eqn:Hv;
    cbn -[averageVolume Qltb Z.add voiceStarts];
    rewrite (proj2 (Qltb_false _ _) Hf);
    unfold handleSilence; cbn -[averageVolume Qltb Z.add voiceStarts];
    rewrite Hs; cbn -[averageVolume Qltb Z.add voiceStarts];
    rewrite ?voiceStarts_app, ?Nat.add_0_r; auto.
Qed.

(** C7.  A detector that is running and not speaking is fed rounds whose
    volume is above the threshold.  The voice deadline is set by the
    first of them, [voiceTimeout] after it (an earlier pending deadline
    is kept), and is not moved by the later ones; it can fire no earlier
    than that.  When it fires after only loud rounds, [onVoiceStart] is
    called once and the detector is speaking, and further loud rounds
    call it no more.  When instead a round at or below the threshold
    arrives before the deadline has fired, the deadline is cancelled: it
    cannot fire any more and [onVoiceStart] is not called. *)
Theorem voice_start_debounced (s : State) (first : Z * Event)
    (more after : list (Z * Event)) (t : Z) (silent : Z * Event) :
  analyser s = true -> isSpeaking s = false -> onVoiceStart s = true ->
  Forall (loud (vadConfig s)) (first :: more) ->
  Forall (loud (vadConfig s)) after ->
  faint (vadConfig s) silent ->
  let due := match voiceTimer s with
             | Some pending => pending
             | None => fst first + voiceTimeout (vadConfig s)
             end in
  let held := run s (first :: more) in
  let confirmed := run held ((t, EvVoiceTimer) :: after) in
  let dropped := run held [silent] in
  (voiceTimer held = Some due /\ isSpeaking held = false /\
   voiceStarts (emitted held) = voiceStarts (emitted s) /\
   deliverable held (t, EvVoiceTimer) = (due <=? t)) /\
  (isSpeaking confirmed = true /\ voiceTimer confirmed = None /\
   voiceStarts (emitted confirmed) = S (voiceStarts (emitted s))) /\
  (voiceTimer dropped = None /\ isSpeaking dropped = false /\
   voiceStarts (emitted dropped) = voiceStarts (emitted s) /\
   deliverable dropped (t, EvVoiceTimer) = false /\
   step dropped (t, EvVoiceTimer) = dropped).
Proof.
  intros Ha Hs Hcb Hloud Hafter Hfaint. cbv zeta.
  destruct (loud_run (first :: more) s Ha Hs Hloud) as (L1 & L2 & L3 & L4 & L5 & L6).
  cbv zeta in *.
  assert (Hdue : voiceTimer (run s (first :: more)) =
                 Some match voiceTimer s with
                      | Some pending => pending
                      | None => fst first + voiceTimeout (vadConfig s)
                      end)
    by (rewrite L6; destruct (voiceTimer s); reflexivity).
  split; [|split].
  - split; [exact Hdue|]. split; [exact L2|]. split; [exact L5|].
    unfold deliverable. cbn [snd fst]. rewrite Hdue. reflexivity.
  - change (run (run s (first :: more)) ((t, EvVoiceTimer) :: after))
      with (run (step (run s (first :: more)) (t, EvVoiceTimer)) after).
    set (held := run s (first :: more)) in *. clearbody held.
    assert (Hfire : analyser (step held (t, EvVoiceTimer)) = true /\
                    isSpeaking (step held (t, EvVoiceTimer)) = true /\
                    voiceTimer (step held (t, EvVoiceTimer)) = None /\
                    vadConfig (step held (t, EvVoiceTimer)) = vadConfig s /\
                    voiceStarts (emitted (step held (t, EvVoiceTimer))) =
                      S (voiceStarts (emitted s))).
    { unfold step. cbn [snd]. rewrite Hdue. unfold voiceTimerFired.
      rewrite L2. cbn [onVoiceStart withSpeaking]. rewrite L4, Hcb.
      cbn -[voiceStarts]. rewrite voiceStarts_app, L5. cbn.
      repeat split; auto. lia. }
    destruct Hfire as (F1 & F2 & F3 & F4 & F5).
    rewrite <- F4 in Hafter.
    destruct (loud_run_speaking after _ F1 F2 F3 Hafter) as (R1 & R2 & R3).
    cbv zeta in *. repeat split; congruence.
  - change (run (run s (first :: more)) [silent])
      with (step (run s (first :: more)) silent).
    rewrite <- L3 in Hfaint.
    destruct (faint_step _ silent L1 L2 Hfaint) as (D1 & D2 & D3).
    cbv zeta in *.
    set (dropped := step (run s (first :: more)) silent) in *. clearbody dropped.
    split; [exact D2|]. split; [exact D1|]. split; [congruence|].
    unfold deliverable, step. cbn [snd]. rewrite D2. auto.
Qed.

Lemma voice_start_debounced_witness :
  isSpeaking
    (run (run (setCallbacks true true false (startVAD (init defaultConfig)))
              [(0, EvAnalyze false [xff; xff]); (100, EvAnalyze false [xff; xff])])
         [(200, EvVoiceTimer); (300, EvAnalyze false [xff; xff])]) = true /\
  voiceTimer
    (run (run (setCallbacks true true false (startVAD (init defaultConfig)))
              [(0, EvAnalyze false [xff; xff]); (100, EvAnalyze false [xff; xff])])
         [(150, EvAnalyze false [x00; x00])]) = None.
Proof.
  destruct (voice_start_debounced
              (setCallbacks true true false (startVAD (init defaultConfig)))
              (0, EvAnalyze false [xff; xff])
              [(100, EvAnalyze false [xff; xff])]
              [(300, EvAnalyze false [xff; xff])]
              200
              (150, EvAnalyze false [x00; x00]))
    as (_ & (Hc & _) & (Hd & _)).
  - reflexivity.
  - reflexivity.
  - reflexivity.
  - constructor; [vm_compute; reflexivity|].
    constructor; [vm_compute; reflexivity|constructor].
  - constructor; [vm_compute; reflexivity|constructor].
  - vm_compute. discriminate.
  - split; [exact Hc | exact Hd].
Defined.

End VADFacts.

(** ** The worked examples of the specification *)
Module SpecExamples.

(** Three items of 100, 200 and 150 bytes, no failures: they play in
    enqueue order and [queueLength] goes down by one per item taken. *)
Example three_items_in_order :
  let enqueue := fun n => Playback.EvEnqueue Playback.quiet (repeat x01 n) None in
  let next := [Playback.EvEnded 0; Playback.EvTimer Playback.quiet 0] in
  let s1 := Playback.run Playback.init [enqueue 100; enqueue 200; enqueue 150]%nat in
  let s2 := Playback.run s1 [Playback.EvEnded 0; Playback.EvTimer Playback.quiet 0] in
  let s3 := Playback.run s2 [Playback.EvEnded 1; Playback.EvTimer Playback.quiet 0] in
  (Playback.queueLength s1, Playback.queueLength s2, Playback.queueLength s3) =
    (2, 1, 0)%nat /\
  Playback.played (Playback.actions s3) = [0; 1; 2]%nat /\
  map (fun i => length (Playback.item_audioData i)) (Playback.enqueued s3) =
    [100; 200; 150]%nat.
Proof.
  cbv zeta. split; [|split]; vm_compute; reflexivity.
Qed.

(** Threshold 0.01, voice timeout 300 ms, silence timeout 1500 ms; volume
    0.02 for 400 ms, then 0: one [onVoiceStart], at 300 ms, and one
    [onVoiceEnd], at 1900 ms. *)
Example voice_start_then_end :
  let config := VAD.mkConfig (1 # 100) 1500 300 100 in
  let s := VAD.setCallbacks true true false (VAD.startVAD (VAD.init config)) in
  let loudRound := VAD.EvAnalyze false (xff :: repeat x00 49) in
  let faintRound := VAD.EvAnalyze false (repeat x00 50) in
  let trace :=
    [(0, loudRound); (100, loudRound); (200, loudRound); (300, loudRound);
     (300, VAD.EvVoiceTimer); (400, faintRound); (500, faintRound);
     (1900, VAD.EvSilenceTimer); (2000, faintRound)]%Z in
  (VAD.averageVolume (xff :: repeat x00 49) == 2 # 100)%Q /\
  VAD.feasible s 0 trace = true /\
  VAD.emitted (VAD.run s trace) = [VAD.VoiceStart; VAD.VoiceEnd] /\
  VAD.voiceTimer (VAD.run s (firstn 4 trace)) = Some 300%Z /\
  VAD.silenceTimer (VAD.run s (firstn 7 trace)) = Some 1900%Z.
Proof.
  cbv zeta. split; [|split; [|split; [|split]]]; vm_compute; reflexivity.
Qed.

(** A loop with fuel for two rounds cuts exactly one block from a buffer
    that holds at least one block and less than two. *)
Lemma sliceLoop_one_block (fuel size : nat) (buffer : list Q)
    (queue : list (list Q)) :
  (2 <= fuel)%nat -> (size <= length buffer)%nat ->
  (length buffer < 2 * size)%nat ->
  Streamer.sliceLoop fuel size buffer queue =
  (queue ++ [firstn size buffer], skipn size buffer).
Proof.
  intros Hfuel Hle Hlt.
  destruct fuel as [|[|fuel]]; try lia.
  cbn [Streamer.sliceLoop].
  rewrite (proj2 (Nat.leb_le _ _)) by exact Hle.
  rewrite (proj2 (Nat.leb_gt _ _)) by (rewrite length_skipn; lia).
  reflexivity.
Qed.

(** A streamer at 24000 Hz, one chunk of 16000 bytes (8000 samples): two
    blocks are queued, a full one of 7680 samples and a shorter one of
    320, and no decode error is reported. *)
Example two_blocks_from_8000_samples (chunk : list byte) :
  length chunk = N.to_nat 16000 ->
  let s := Streamer.pushPCM16 chunk (Streamer.newStreamer true 24000) in
  map (@length Q) (Streamer.audioQueue s) = [N.to_nat 7680; N.to_nat 320] /\
  Streamer.errors s = [].
Proof.
  intros Hlen s. subst s. unfold Streamer.pushPCM16.
  rewrite StreamerDecode.processPCM16Chunk_spec.
  change (Streamer.bufferSize (Streamer.newStreamer true 24000)) with (N.to_nat 7680).
  change (Streamer.audioQueue (Streamer.newStreamer true 24000)) with (@nil (list Q)).
  change (Streamer.errors (Streamer.newStreamer true 24000)) with (@nil nat).
  pose proof (StreamerDecode.wellFormed_length chunk) as Hw.
  assert (Hn : length (Streamer.wellFormedSamples chunk) = N.to_nat 8000).
  { rewrite Hw, Hlen.
    replace (N.to_nat 16000) with (N.to_nat 8000 * 2)%nat by lia.
    apply Nat.div_mul. lia. }
  rewrite sliceLoop_one_block by lia.
  assert (Hrest : length (skipn (N.to_nat 7680) (Streamer.wellFormedSamples chunk))
                  = N.to_nat 320).
  { rewrite length_skipn. lia. }
  assert (Hodd : Nat.odd (length chunk) = false).
  { rewrite Hlen. rewrite <- Nat.negb_even.
    replace (N.to_nat 16000) with (2 * N.to_nat 8000)%nat by lia.
    rewrite Nat.even_mul. reflexivity. }
  rewrite Hodd.
  destruct (skipn (N.to_nat 7680) (Streamer.wellFormedSamples chunk)) as [|x rest] eqn:Hs.
  - simpl in Hrest. lia.
  - cbn [Streamer.audioQueue Streamer.errors app map].
    rewrite Hrest, length_firstn. split; [|reflexivity].
    f_equal. lia.
Qed.

End SpecExamples.

(** ** Further properties of the code *)

Module CaptureFacts.
Import Capture.
Open Scope list_scope.
Open Scope Z_scope.

Lemma byteOf_to_N (b : byte) (k : Z) :
  byteOf (Z.of_N (Byte.to_N b) + 256 * k) = b.
Proof.
  unfold byteOf.
  replace ((Z.of_N (Byte.to_N b) + 256 * k) mod 256) with (Z.of_N (Byte.to_N b)).
  - rewrite N2Z.id, Byte.of_to_N. reflexivity.
  - pose proof (Byte.to_N_bounded b) as Hb.
    apply Z.mod_unique with (q := k); lia.
Qed.

Lemma toInt16_inject (v : Z) :
  -32768 <= v <= 32767 -> toInt16 (inject_Z v) = v.
Proof.
  intro Hv. unfold toInt16, truncate. cbn [Qnum Qden inject_Z].
  rewrite Z.quot_1_r.
  destruct (Z_lt_le_dec v 0) as [Hneg|Hpos].
  - replace (v mod 65536) with (v + 65536).
    + destruct (v + 65536 <? 32768) eqn:E; [apply Z.ltb_lt in E; lia | lia].
    + apply Z.mod_unique with (q := -1); lia.
  - rewrite Z.mod_small by lia.
    destruct (v <? 32768) eqn:E; [reflexivity | apply Z.ltb_ge in E; lia].
Qed.

Lemma truncate_scaled (k : Z) :
  truncate (Streamer.normalize k * 32768) = k.
Proof.
  unfold truncate, Streamer.normalize. cbn [Qmult Qnum Qden].
  change (Z.pos (32768 * 1)) with 32768.
  apply Z.quot_mul. lia.
Qed.

Lemma toInt16_scaled (k : Z) :
  -32768 <= k <= 32767 -> toInt16 (Streamer.normalize k * 32768) = k.
Proof.
  intro Hk. unfold toInt16. rewrite truncate_scaled.
  pose proof (toInt16_inject k Hk) as H. unfold toInt16, truncate in H.
  cbn [Qnum Qden inject_Z] in H. rewrite Z.quot_1_r in H. exact H.
Qed.

Lemma int16LE_range (lo hi : byte) :
  -32768 <= Streamer.int16LE lo hi <= 32767.
Proof.
  unfold Streamer.int16LE.
  pose proof (Byte.to_N_bounded lo). pose proof (Byte.to_N_bounded hi).
  cbv zeta.
  destruct (Z.of_N (Byte.to_N lo) + 256 * Z.of_N (Byte.to_N hi) <? 32768) eqn:E;
    [apply Z.ltb_lt in E | apply Z.ltb_ge in E]; lia.
Qed.

Lemma bytes_int16LE (lo hi : byte) :
  byteOf (Streamer.int16LE lo hi) = lo /\
  byteOf (Streamer.int16LE lo hi / 256) = hi.
Proof.
  unfold Streamer.int16LE.
  pose proof (Byte.to_N_bounded lo) as Hlo.
  pose proof (Byte.to_N_bounded hi) as Hhi.
  cbv zeta.
  destruct (Z.of_N (Byte.to_N lo) + 256 * Z.of_N (Byte.to_N hi) <? 32768).
  - split.
    + apply byteOf_to_N.
    + replace ((Z.of_N (Byte.to_N lo) + 256 * Z.of_N (Byte.to_N hi)) / 256)
        with (Z.of_N (Byte.to_N hi) + 256 * 0).
      * apply byteOf_to_N.
      * rewrite Z.add_0_r.
        apply Z.div_unique with (r := Z.of_N (Byte.to_N lo)); lia.
  - split.
    + replace (Z.of_N (Byte.to_N lo) + 256 * Z.of_N (Byte.to_N hi) - 65536)
        with (Z.of_N (Byte.to_N lo) + 256 * (Z.of_N (Byte.to_N hi) - 256)) by lia.
      apply byteOf_to_N.
    + replace ((Z.of_N (Byte.to_N lo) + 256 * Z.of_N (Byte.to_N hi) - 65536) / 256)
        with (Z.of_N (Byte.to_N hi) + 256 * (-1)).
      * apply byteOf_to_N.
      * apply Z.div_unique with (r := Z.of_N (Byte.to_N lo)); lia.
Qed.

Lemma firstn_S_array_set {A : Type} (a : list A) (i : nat) (v : A) :
  (i < length a)%nat -> firstn (S i) (array_set a i v) = firstn i a ++ [v].
Proof.
  revert i. induction a as [|h t IH]; intros i Hi; simpl in Hi; [lia|].
  destruct i as [|j].
  - reflexivity.
  - change (array_set (h :: t) (S j) v) with (h :: array_set t j v).
    change (firstn (S (S j)) (h :: array_set t j v))
      with (h :: firstn (S j) (array_set t j v)).
    rewrite IH by lia. reflexivity.
Qed.

(** One [processChunk] call keeps the buffer discipline: the buffer keeps
    its size, the write index stays inside it, full chunks only are
    posted, and posted chunks followed by the pending samples are the
    converted input. *)
Lemma processChunk_invariant (samples : list Q) (w : Worklet) (size : nat)
    (seen : list Q) :
  (0 < size)%nat ->
  length (buffer w) = size -> (bufferWriteIndex w < size)%nat ->
  Forall (fun chunk => length chunk = size) (posted w) ->
  concat (posted w) ++ firstn (bufferWriteIndex w) (buffer w) =
    map (fun x => toInt16 (x * 32768)) seen ->
  let w' := processChunk samples w in
  length (buffer w') = size /\ (bufferWriteIndex w' < size)%nat /\
  Forall (fun chunk => length chunk = size) (posted w') /\
  concat (posted w') ++ firstn (bufferWriteIndex w') (buffer w') =
    map (fun x => toInt16 (x * 32768)) (seen ++ samples).
Proof.
  intro Hsize. revert w seen.
  induction samples as [|x rest IH]; intros w seen Hlen Hidx Hposted Hdata.
  - cbn [processChunk]. unfold sendIfFull.
    rewrite (proj2 (Nat.leb_gt _ _)) by lia.
    rewrite app_nil_r. auto.
  - cbn [processChunk]. cbv zeta.
    replace (seen ++ x :: rest) with ((seen ++ [x]) ++ rest)
      by (rewrite <- app_assoc; reflexivity).
    apply IH; unfold sendIfFull; cbn [buffer bufferWriteIndex posted];
      rewrite array_set_length, Hlen;
      destruct (size <=? S (bufferWriteIndex w))%nat eqn:Efull;
      unfold sendAndClearBuffer; cbn [buffer bufferWriteIndex posted];
      try (rewrite array_set_length); try assumption; try lia.
    + apply Nat.leb_gt in Efull. lia.
    + apply Forall_app. split; [assumption|]. constructor; [|constructor].
      apply Nat.leb_le in Efull.
      rewrite firstn_all2 by (rewrite array_set_length; lia).
      rewrite array_set_length. exact Hlen.
    + rewrite concat_app. cbn [concat]. rewrite firstn_O, !app_nil_r.
      rewrite firstn_S_array_set by lia.
      rewrite map_app. cbn [map]. rewrite <- Hdata, app_assoc. reflexivity.
    + rewrite firstn_S_array_set by lia.
      rewrite map_app. cbn [map]. rewrite <- Hdata, app_assoc. reflexivity.
Qed.

(** X1.  The recorder worklet drops and reorders nothing: whatever the sizes
    of the render quanta, every chunk it posts holds exactly 2048
    samples, fewer than 2048 are pending, and the posted chunks followed
    by the pending samples are the converted samples of channel 0, in
    order. *)
Theorem worklet_posts_full_chunks (quanta : list (list (list Q))) :
  let w := record quanta in
  Forall (fun chunk => length chunk = N.to_nat 2048) (posted w) /\
  (bufferWriteIndex w < N.to_nat 2048)%nat /\
  concat (posted w) ++ firstn (bufferWriteIndex w) (buffer w) =
    map (fun x => toInt16 (x * 32768)) (channel0Samples quanta).
Proof.
  cbv zeta. unfold record.
  assert (H : forall (qs : list (list (list Q))) (w : Worklet) (seen : list Q),
             length (buffer w) = N.to_nat 2048 ->
             (bufferWriteIndex w < N.to_nat 2048)%nat ->
             Forall (fun chunk => length chunk = N.to_nat 2048) (posted w) ->
             concat (posted w) ++ firstn (bufferWriteIndex w) (buffer w) =
               map (fun x => toInt16 (x * 32768)) seen ->
             let w' := fold_left (fun w input0 => process input0 w) qs w in
             length (buffer w') = N.to_nat 2048 /\
             (bufferWriteIndex w' < N.to_nat 2048)%nat /\
             Forall (fun chunk => length chunk = N.to_nat 2048) (posted w') /\
             concat (posted w') ++ firstn (bufferWriteIndex w') (buffer w') =
               map (fun x => toInt16 (x * 32768)) (seen ++ channel0Samples qs)).
  { induction qs as [|input0 qs IH]; intros w seen Hlen Hidx Hposted Hdata.
    - cbn [fold_left channel0Samples flat_map]. rewrite app_nil_r. auto.
    - cbn [fold_left]. unfold channel0Samples. cbn [flat_map].
      fold (channel0Samples qs). rewrite app_assoc.
      destruct input0 as [|channel0 others].
      + cbn [process]. rewrite app_nil_r. apply IH; assumption.
      + cbn [process].
        destruct (processChunk_invariant channel0 w (N.to_nat 2048) seen)
          as (H1 & H2 & H3 & H4); try assumption; try lia.
        apply IH; assumption. }
  destruct (H quanta newWorklet []) as (_ & H2 & H3 & H4).
  - unfold newWorklet. cbn [buffer]. apply repeat_length.
  - unfold newWorklet. cbn [bufferWriteIndex]. lia.
  - constructor.
  - reflexivity.
  - auto.
Qed.

Lemma reencode_wellFormed (n : nat) (chunk : list byte) :
  (length chunk <= n)%nat -> Nat.even (length chunk) = true ->
  bufferBytes
    (map (fun x => toInt16 (x * 32768)) (Streamer.wellFormedSamples chunk)) =
  chunk.
Proof.
  revert chunk. induction n as [|n IH]; intros chunk Hn Heven.
  - destruct chunk; [reflexivity | simpl in Hn; lia].
  - destruct chunk as [|lo [|hi rest]]; [reflexivity | discriminate |].
    cbn [Streamer.wellFormedSamples map bufferBytes flat_map].
    fold (bufferBytes
            (map (fun x => toInt16 (x * 32768)) (Streamer.wellFormedSamples rest))).
    rewrite IH; [| simpl in Hn; lia | exact Heven].
    rewrite toInt16_scaled by apply int16LE_range.
    destruct (bytes_int16LE lo hi) as [Hlo Hhi]. rewrite Hlo, Hhi. reflexivity.
Qed.

(** X2.  PCM16 round trip between the two ends of the pipeline: what the
    streamer decodes from a chunk of whole samples, the recorder worklet
    encodes back to the very same bytes (and the decoder reports no
    error). *)
Theorem pcm16_decode_encode_round_trip (chunk : list byte) :
  Nat.even (length chunk) = true ->
  snd (Streamer._processPCM16Chunk chunk) = [] /\
  bufferBytes
    (map (fun x => toInt16 (x * 32768))
         (fst (Streamer._processPCM16Chunk chunk))) = chunk.
Proof.
  intro Heven. rewrite StreamerDecode.processPCM16Chunk_spec.
  cbn [fst snd]. rewrite <- Nat.negb_even, Heven. split; [reflexivity|].
  apply (reencode_wellFormed (length chunk)); [lia | exact Heven].
Qed.

Lemma pcm16_decode_encode_round_trip_witness :
  bufferBytes
    (map (fun x => toInt16 (x * 32768))
         (fst (Streamer._processPCM16Chunk [x01; x80; xff; x7f]))) =
  [x01; x80; xff; x7f].
Proof.
  exact (proj2 (pcm16_decode_encode_round_trip [x01; x80; xff; x7f] eq_refl)).
Defined.

(** *** Truncation *)

Lemma Qnum_nonneg (x : Q) : (0 <= x)%Q <-> 0 <= Qnum x.
Proof. unfold Qle. cbn [Qnum Qden]. lia. Qed.

Lemma truncate_floor (x : Q) : 0 <= Qnum x -> truncate x = Qfloor x.
Proof.
  intro H. unfold truncate. destruct x as [n d]. cbn [Qnum Qden Qfloor] in *.
  apply Z.quot_div_nonneg; lia.
Qed.

Lemma truncate_ceiling (x : Q) : Qnum x <= 0 -> truncate x = Qceiling x.
Proof.
  intro H. unfold truncate, Qceiling. destruct x as [n d].
  cbn [Qnum Qden Qfloor Qopp] in *.
  rewrite <- (Z.opp_involutive n) at 1. rewrite Z.quot_opp_l by lia.
  rewrite Z.quot_div_nonneg by lia. reflexivity.
Qed.

Lemma truncate_le (x y : Q) : (x <= y)%Q -> truncate x <= truncate y.
Proof.
  intro Hxy.
  destruct (Z_lt_le_dec (Qnum x) 0) as [Hx|Hx];
    destruct (Z_lt_le_dec (Qnum y) 0) as [Hy|Hy].
  - rewrite !truncate_ceiling by lia. apply Qceiling_resp_le. exact Hxy.
  - rewrite (truncate_ceiling x) by lia. rewrite (truncate_floor y) by lia.
    assert (Qceiling x <= 0).
    { rewrite <- (Qceiling_Z 0). apply Qceiling_resp_le.
      unfold Qle. cbn [Qnum Qden inject_Z]. lia. }
    assert (0 <= Qfloor y).
    { rewrite <- (Qfloor_Z 0). apply Qfloor_resp_le.
      apply Qnum_nonneg. exact Hy. }
    lia.
  - exfalso. apply Qnum_nonneg in Hx.
    assert (0 <= y)%Q by (eapply Qle_trans; eassumption).
    apply Qnum_nonneg in H. lia.
  - rewrite !truncate_floor by lia. apply Qfloor_resp_le. exact Hxy.
Qed.

Lemma truncate_comp (x y : Q) : (x == y)%Q -> truncate x = truncate y.
Proof.
  intro H. apply Z.le_antisymm; apply truncate_le; rewrite H; apply Qle_refl.
Qed.

Lemma truncate_inject (v : Z) : truncate (inject_Z v) = v.
Proof. unfold truncate. cbn [inject_Z Qnum Qden]. apply Z.quot_1_r. Qed.

Lemma truncate_opp (x : Q) : truncate (- x) = - truncate x.
Proof.
  unfold truncate. destruct x as [n d]. cbn [Qopp Qnum Qden].
  apply Z.quot_opp_l. lia.
Qed.

(** Inside the 16-bit range the element store does not wrap. *)
Lemma toInt16_small (x : Q) :
  -32768 <= truncate x <= 32767 -> toInt16 x = truncate x.
Proof.
  intro H. pose proof (toInt16_inject (truncate x) H) as E.
  unfold toInt16 in *. rewrite truncate_inject in E. exact E.
Qed.

Lemma truncate_lt_pos (x : Q) (n : Z) :
  0 < n -> (x < inject_Z n)%Q -> truncate x < n.
Proof.
  intros Hn Hx. destruct (Z_lt_le_dec (Qnum x) 0) as [Hneg|Hpos].
  - rewrite truncate_ceiling by lia.
    assert (Qceiling x <= 0).
    { rewrite <- (Qceiling_Z 0). apply Qceiling_resp_le.
      unfold Qle. cbn [Qnum Qden inject_Z]. lia. }
    lia.
  - rewrite truncate_floor by lia. rewrite Zlt_Qlt.
    eapply Qle_lt_trans; [apply Qfloor_le | exact Hx].
Qed.

(** *** The three conversions *)

(** X3.  The recorder worklet stores [x * 32768] without clamping: a sample in
    [-1, 1) is stored as the integer part of [x * 32768], a sample in
    [1, 2) wraps around to a negative value (full scale 1.0 becomes
    -32768). *)
Theorem worklet_sample_wraps (x : Q) :
  (-1 <= x)%Q -> (x < 2)%Q ->
  toInt16 (x * 32768) =
    (if Qle_bool 1 x then truncate (x * 32768) - 65536
     else truncate (x * 32768)) /\
  (Qle_bool 1 x = true -> toInt16 (x * 32768) < 0).
Proof.
  intros Hlo Hhi.
  assert (Hlow : -32768 <= truncate (x * 32768)).
  { rewrite <- (truncate_inject (-32768)). apply truncate_le.
    change (inject_Z (-32768)) with ((-1) * 32768)%Q.
    apply Qmult_le_compat_r; [exact Hlo | discriminate]. }
  assert (Hhigh : truncate (x * 32768) < 65536).
  { apply truncate_lt_pos; [lia|].
    change (inject_Z 65536) with (2 * 32768)%Q.
    apply Qmult_lt_compat_r; [reflexivity | exact Hhi]. }
  destruct (Qle_bool 1 x) eqn:E1.
  - apply Qle_bool_iff in E1.
    assert (Hge : 32768 <= truncate (x * 32768)).
    { rewrite <- (truncate_inject 32768) at 1. apply truncate_le.
      change (inject_Z 32768) with (1 * 32768)%Q.
      apply Qmult_le_compat_r; [exact E1 | discriminate]. }
    assert (Ht : toInt16 (x * 32768) = truncate (x * 32768) - 65536).
    { unfold toInt16. cbv zeta. rewrite Z.mod_small by lia.
      destruct (truncate (x * 32768) <? 32768) eqn:E;
        [apply Z.ltb_lt in E; lia | reflexivity]. }
    split; [exact Ht | intros _; lia].
  - split; [|discriminate].
    apply toInt16_small.
    assert (Hlt : (x < 1)%Q).
    { apply Qnot_le_lt. intro H. apply Qle_bool_iff in H. congruence. }
    assert (truncate (x * 32768) < 32768).
    { apply truncate_lt_pos; [lia|].
      change (inject_Z 32768) with (1 * 32768)%Q.
      apply Qmult_lt_compat_r; [reflexivity | exact Hlt]. }
    lia.
Qed.

Lemma worklet_sample_wraps_witness :
  toInt16 (1 * 32768) = -32768.
Proof.
  exact (proj1 (worklet_sample_wraps 1 ltac:(discriminate) ltac:(reflexivity))).
Defined.

Lemma clamp_max_min (lo hi x : Q) :
  (lo <= hi)%Q ->
  ((x <= lo)%Q /\ (Qmax lo (Qmin hi x) == lo)%Q) \/
  ((hi <= x)%Q /\ (Qmax lo (Qmin hi x) == hi)%Q) \/
  ((lo <= x)%Q /\ (x <= hi)%Q /\ (Qmax lo (Qmin hi x) == x)%Q).
Proof.
  intro Hlh. destruct (Qlt_le_dec x lo) as [H1|H1].
  - left. split; [apply Qlt_le_weak; exact H1|].
    rewrite (Q.min_r hi x) by (apply Qlt_le_weak; eapply Qlt_le_trans; eassumption).
    apply Q.max_l. apply Qlt_le_weak. exact H1.
  - destruct (Qlt_le_dec hi x) as [H2|H2].
    + right. left. split; [apply Qlt_le_weak; exact H2|].
      rewrite (Q.min_l hi x) by (apply Qlt_le_weak; exact H2).
      apply Q.max_r. exact Hlh.
    + right. right. split; [exact H1|]. split; [exact H2|].
      rewrite (Q.min_r hi x) by exact H2. apply Q.max_r. exact H1.
Qed.

Lemma clamp_min_max (lo hi x : Q) :
  (lo <= hi)%Q ->
  ((x <= lo)%Q /\ (Qmin hi (Qmax lo x) == lo)%Q) \/
  ((hi <= x)%Q /\ (Qmin hi (Qmax lo x) == hi)%Q) \/
  ((lo <= x)%Q /\ (x <= hi)%Q /\ (Qmin hi (Qmax lo x) == x)%Q).
Proof.
  intro Hlh. destruct (Qlt_le_dec x lo) as [H1|H1].
  - left. split; [apply Qlt_le_weak; exact H1|].
    rewrite (Q.max_l lo x) by (apply Qlt_le_weak; exact H1).
    apply Q.min_r. exact Hlh.
  - destruct (Qlt_le_dec hi x) as [H2|H2].
    + right. left. split; [apply Qlt_le_weak; exact H2|].
      rewrite (Q.max_r lo x) by exact H1.
      apply Q.min_l. apply Qlt_le_weak. exact H2.
    + right. right. split; [exact H1|]. split; [exact H2|].
      rewrite (Q.max_r lo x) by exact H1. apply Q.min_r. exact H2.
Qed.

(** X4.  The [onaudioprocess] recorder clamps before it stores: every sample
    becomes the integer part of [x * 32768] limited to the 16-bit range.
    It saturates where the worklet wraps. *)
Theorem onaudioprocess_saturates (inputBuffer : list Q) :
  onaudioprocess inputBuffer =
  map (fun x => Z.max (-32768) (Z.min 32767 (truncate (x * 32768))))
      inputBuffer.
Proof.
  unfold onaudioprocess. apply map_ext. intro x.
  set (y := (x * 32768)%Q).
  assert (Hlo : truncate (-32768) = -32768) by reflexivity.
  assert (Hhi : truncate 32767 = 32767) by reflexivity.
  destruct (clamp_max_min (-32768) 32767 y) as [[Hy E]|[[Hy E]|(Hy1 & Hy2 & E)]];
    [discriminate | | |].
  - rewrite toInt16_small; rewrite (truncate_comp _ _ E), Hlo; [|lia].
    apply truncate_le in Hy. rewrite Hlo in Hy. lia.
  - rewrite toInt16_small; rewrite (truncate_comp _ _ E), Hhi; [|lia].
    apply truncate_le in Hy. rewrite Hhi in Hy. lia.
  - apply truncate_le in Hy1. apply truncate_le in Hy2.
    rewrite Hlo in Hy1. rewrite Hhi in Hy2.
    rewrite toInt16_small; rewrite (truncate_comp _ _ E); lia.
Qed.

(** X5.  [convertFloat32ToInt16] is symmetric about zero: negating the input
    negates the output, and the output stays within [-32767, 32767], so
    it never produces -32768. *)
Theorem convertFloat32ToInt16_symmetric (buffer : list Q) :
  convertFloat32ToInt16 (map Qopp buffer) =
    map Z.opp (convertFloat32ToInt16 buffer) /\
  Forall (fun v => -32767 <= v <= 32767) (convertFloat32ToInt16 buffer).
Proof.
  assert (Hone : forall x : Q,
             let s := Qmin 1 (Qmax (-1) x) in
             -32767 <= truncate (s * 32767) <= 32767 /\
             toInt16 (s * 32767) = truncate (s * 32767)).
  { intros x s.
    assert (Hs : (-1 <= s)%Q /\ (s <= 1)%Q).
    { subst s. split.
      - apply Q.min_glb; [discriminate | apply Q.le_max_l].
      - apply Q.le_min_l. }
    assert (Hb : -32767 <= truncate (s * 32767) <= 32767).
    { split.
      - change (-32767) with (truncate ((-1) * 32767)). apply truncate_le.
        apply Qmult_le_compat_r; [apply Hs | discriminate].
      - change 32767 with (truncate (1 * 32767)) at 2. apply truncate_le.
        apply Qmult_le_compat_r; [apply Hs | discriminate]. }
    split; [exact Hb | apply toInt16_small; lia]. }
  assert (Hneg : forall x : Q,
             (Qmin 1 (Qmax (-1) (- x)) == - Qmin 1 (Qmax (-1) x))%Q).
  { intro x.
    destruct (clamp_min_max (-1) 1 x) as [[Hx E]|[[Hx E]|(Hx1 & Hx2 & E)]];
      [discriminate | | |];
      destruct (clamp_min_max (-1) 1 (- x)) as [[Hy F]|[[Hy F]|(Hy1 & Hy2 & F)]];
      try discriminate; rewrite E, F; try lra. }
  split.
  - unfold convertFloat32ToInt16. rewrite !map_map. apply map_ext. intro x.
    cbv zeta.
    rewrite (proj2 (Hone (- x)%Q)), (proj2 (Hone x)).
    rewrite <- truncate_opp. apply truncate_comp.
    rewrite Hneg. ring.
  - unfold convertFloat32ToInt16. apply Forall_forall. intros v Hv.
    apply in_map_iff in Hv. destruct Hv as (x & Hx & _). subst v.
    cbv zeta. rewrite (proj2 (Hone x)). apply (Hone x).
Qed.

End CaptureFacts.

Module StreamerRunsFacts.
Import Streamer StreamerRuns.
Open Scope list_scope.
Open Scope Q_scope.

(** *** Nothing is lost on the way to the schedule *)

Lemma pushPCM16_rateAccepted (chunk : list byte) (s : State) :
  rateAccepted (pushPCM16 chunk s) = rateAccepted s.
Proof.
  unfold pushPCM16. destruct (_processPCM16Chunk chunk) as [samples errs].
  destruct (sliceLoop _ _ _ _) as [q rest]. reflexivity.
Qed.

(** Whether the context takes the rate does not change. *)
Lemma step_rateAccepted (s : State) (e : Q * Event) :
  rateAccepted (step s e) = rateAccepted s.
Proof.
  destruct e as [now [chunk| | |source| |v| | |]]; unfold step; cbn [fst snd];
    try reflexivity.
  - unfold addPCM16.
    destruct (StreamerDecode.startIfIdle_data now (pushPCM16 chunk s))
      as (_ & _ & _ & _ & _ & Ha).
    cbv zeta in Ha. rewrite Ha. apply pushPCM16_rateAccepted.
  - destruct (StreamerDecode.scheduleNextBuffer_data now (popTimeout s))
      as (_ & _ & _ & _ & _ & Ha).
    exact Ha.
  - destruct (audioQueue s); [reflexivity|].
    destruct (StreamerDecode.scheduleNextBuffer_data now s)
      as (_ & _ & _ & _ & _ & Ha).
    exact Ha.
  - unfold onended, fireComplete.
    cbn [audioQueue endOfQueueAudioSource isStreamComplete].
    destruct (audioQueue s); [destruct (endOfQueueAudioSource s) as [last|]|];
      [destruct (Nat.eqb last source); [destruct (isStreamComplete s)|]| |];
      reflexivity.
  - unfold complete, fireComplete. cbn [audioQueue].
    destruct (audioQueue s); reflexivity.
Qed.

Lemma step_data (s : State) (e : Q * Event) :
  rateAccepted s = true -> keepsQueue e = true ->
  concat (map blk_data (scheduled (step s e))) ++ concat (audioQueue (step s e)) =
  (concat (map blk_data (scheduled s)) ++ concat (audioQueue s)) ++ decoded [e].
Proof.
  intro Hacc.
  destruct e as [now ev]. unfold keepsQueue, step, decoded.
  cbn [fst snd flat_map]. rewrite app_nil_r.
  destruct ev as [chunk| | |source| |v| | |]; intro Hk; try discriminate;
    try (rewrite app_nil_r; reflexivity).
  - unfold addPCM16.
    destruct (StreamerDecode.startIfIdle_data now (pushPCM16 chunk s)) as (Hd & _).
    destruct (StreamerDecode.pushPCM16_data chunk s) as (Hq & Hs & _).
    pose proof (pushPCM16_rateAccepted chunk s) as Ha. rewrite Hacc in Ha.
    cbv zeta in *. rewrite (Hd Ha), Hs, Hq. rewrite app_assoc. reflexivity.
  - rewrite app_nil_r.
    destruct (StreamerDecode.scheduleNextBuffer_data now (popTimeout s)) as (Hd & _).
    exact (Hd Hacc).
  - rewrite app_nil_r. destruct (audioQueue s) eqn:Hq; [rewrite Hq; reflexivity|].
    destruct (StreamerDecode.scheduleNextBuffer_data now s) as (Hd & _).
    cbv zeta in Hd. rewrite (Hd Hacc), Hq. reflexivity.
  - rewrite app_nil_r.
    destruct (StreamerSchedule.onended_fields now source s)
      as (_ & Hs & _ & _ & _ & Hq).
    cbv zeta in *. rewrite Hs, Hq. reflexivity.
  - rewrite app_nil_r. unfold complete, fireComplete. cbn [audioQueue].
    destruct (audioQueue s) eqn:Hq; cbn [scheduled audioQueue]; rewrite ?Hq;
      reflexivity.
Qed.

(** X6.  On a context that takes the sample rate and as long as
    [stop()] is not called, the streamer neither drops, duplicates nor
    reorders audio: the samples of the scheduled blocks followed by those
    of the blocks still queued are exactly the samples of the chunks
    received, in arrival order. *)
Theorem samples_conserved (rate : Q) (trace : list (Q * Event)) :
  forallb keepsQueue trace = true ->
  let s := run (newStreamer true rate) trace in
  concat (map blk_data (scheduled s)) ++ concat (audioQueue s) = decoded trace.
Proof.
  intro Hk.
  assert (H : forall (tr : list (Q * Event)) (s : State),
             rateAccepted s = true ->
             forallb keepsQueue tr = true ->
             concat (map blk_data (scheduled (run s tr))) ++
             concat (audioQueue (run s tr)) =
             (concat (map blk_data (scheduled s)) ++ concat (audioQueue s)) ++
             decoded tr).
  { induction tr as [|e tr IH]; intros s Ha Hs.
    - cbn [run fold_left decoded flat_map]. rewrite app_nil_r. reflexivity.
    - cbn [forallb] in Hs. apply andb_true_iff in Hs. destruct Hs as [He Htr].
      change (run s (e :: tr)) with (run (step s e) tr).
      rewrite (IH _ (eq_trans (step_rateAccepted s e) Ha) Htr),
              (step_data s e Ha He).
      unfold decoded. cbn [flat_map]. rewrite app_nil_r.
      rewrite <- !app_assoc. reflexivity. }
  cbv zeta. rewrite (H trace (newStreamer true rate) eq_refl Hk). reflexivity.
Qed.

Lemma samples_conserved_witness :
  let trace :=
    [(0, EvAdd [x01; x02; x03; x04]); (1 # 100, EvAdd [x05; x06; x07]);
     (1 # 10, EvInterval); (2 # 10, EvComplete)] in
  concat (map blk_data (scheduled (run (newStreamer true 24000) trace))) ++
  concat (audioQueue (run (newStreamer true 24000) trace)) =
  decoded trace.
Proof.
  exact (samples_conserved 24000
           [(0, EvAdd [x01; x02; x03; x04]); (1 # 100, EvAdd [x05; x06; x07]);
            (1 # 10, EvInterval); (2 # 10, EvComplete)] eq_refl).
Defined.

(** *** Block sizes *)

Lemma sliceLoop_sizes (fuel size : nat) (buffer : list Q) (queue : list (list Q)) :
  (0 < size)%nat -> (length buffer <= fuel)%nat ->
  Forall (fun b => (1 <= length b <= size)%nat) queue ->
  let '(q, rest) := sliceLoop fuel size buffer queue in
  Forall (fun b => (1 <= length b <= size)%nat) q /\ (length rest < size)%nat.
Proof.
  intro Hsize. revert buffer queue.
  induction fuel as [|fuel IH]; intros buffer queue Hfuel Hq; cbn [sliceLoop].
  - split; [exact Hq | lia].
  - destruct (size <=? length buffer)%nat eqn:E.
    + apply Nat.leb_le in E. apply IH.
      * rewrite length_skipn. lia.
      * apply Forall_app. split; [exact Hq|]. constructor; [|constructor].
        rewrite length_firstn. lia.
    + apply Nat.leb_gt in E. split; [exact Hq | exact E].
Qed.

Lemma pushPCM16_sizes (chunk : list byte) (s : State) :
  (0 < bufferSize s)%nat ->
  Forall (fun b => (1 <= length b <= bufferSize s)%nat) (audioQueue s) ->
  Forall (fun b => (1 <= length b <= bufferSize s)%nat)
         (audioQueue (pushPCM16 chunk s)) /\
  bufferSize (pushPCM16 chunk s) = bufferSize s /\
  scheduled (pushPCM16 chunk s) = scheduled s.
Proof.
  intros Hsize Hq. unfold pushPCM16.
  destruct (_processPCM16Chunk chunk) as [samples errs].
  pose proof (sliceLoop_sizes (length samples) (bufferSize s) samples
                (audioQueue s) Hsize (Nat.le_refl _) Hq) as Hs.
  destruct (sliceLoop (length samples) (bufferSize s) samples (audioQueue s))
    as [q rest].
  destruct Hs as [Hq' Hrest]. cbv zeta. cbn [audioQueue bufferSize scheduled].
  split; [|split; reflexivity].
  destruct rest as [|x rest]; [exact Hq'|].
  apply Forall_app. split; [exact Hq'|]. constructor; [|constructor].
  cbn [length] in *. lia.
Qed.

Lemma scheduleLoop_sizes (now : Q) (queue : list (list Q)) (s : State) (n : nat) :
  Forall (fun b => (1 <= length b <= n)%nat) queue ->
  Forall (fun b => (1 <= length (blk_data b) <= n)%nat) (scheduled s) ->
  let s' := fst (scheduleLoop now queue s) in
  Forall (fun b => (1 <= length b <= n)%nat) (audioQueue s') /\
  Forall (fun b => (1 <= length (blk_data b) <= n)%nat) (scheduled s') /\
  bufferSize s' = bufferSize s.
Proof.
  revert s. induction queue as [|block rest IH]; intros s Hq Hs;
    cbn [scheduleLoop].
  - cbn [fst audioQueue scheduled bufferSize]. auto.
  - inversion Hq as [|? ? Hb Hrest]; subst.
    destruct (Qltb (scheduledTime s) (now + SCHEDULE_AHEAD_TIME));
      [destruct (createBufferThrows s block)|].
    + cbn [fst audioQueue scheduled bufferSize]. auto.
    + match goal with |- context [scheduleLoop now rest ?st] =>
        destruct (IH st Hrest) as (H1 & H2 & H3)
      end.
      * cbn [scheduled]. apply Forall_app. split; [exact Hs|].
        constructor; [exact Hb | constructor].
      * cbv zeta. cbn [bufferSize] in H3. auto.
    + cbn [fst audioQueue scheduled bufferSize]. auto.
Qed.

Lemma scheduleNextBuffer_sizes (now : Q) (s : State) (n : nat) :
  Forall (fun b => (1 <= length b <= n)%nat) (audioQueue s) ->
  Forall (fun b => (1 <= length (blk_data b) <= n)%nat) (scheduled s) ->
  let s' := scheduleNextBuffer now s in
  Forall (fun b => (1 <= length b <= n)%nat) (audioQueue s') /\
  Forall (fun b => (1 <= length (blk_data b) <= n)%nat) (scheduled s') /\
  bufferSize s' = bufferSize s.
Proof.
  intros Hq Hs. unfold scheduleNextBuffer.
  destruct (scheduleLoop_sizes now (audioQueue s) s n Hq Hs) as (H1 & H2 & H3).
  cbv zeta in *.
  destruct (snd (scheduleLoop now (audioQueue s) s)); [auto|].
  destruct (audioQueue (fst (scheduleLoop now (audioQueue s) s))) eqn:E;
    [destruct (isStreamComplete (fst (scheduleLoop now (audioQueue s) s)))|];
    cbn [audioQueue scheduled bufferSize]; rewrite ?E; auto.
Qed.

(** X7.  No empty buffer is ever created: every block the streamer queues or
    schedules holds at least one sample and at most [bufferSize] (7680)
    samples, whatever the chunk sizes and whatever else happens. *)
Theorem blocks_hold_1_to_7680_samples (accepted : bool) (rate : Q)
    (trace : list (Q * Event)) :
  let s := run (newStreamer accepted rate) trace in
  Forall (fun b => (1 <= length b <= N.to_nat 7680)%nat) (audioQueue s) /\
  Forall (fun b => (1 <= length (blk_data b) <= N.to_nat 7680)%nat)
         (scheduled s).
Proof.
  assert (H : forall (tr : list (Q * Event)) (s : State),
             bufferSize s = N.to_nat 7680 ->
             Forall (fun b => (1 <= length b <= N.to_nat 7680)%nat) (audioQueue s) ->
             Forall (fun b => (1 <= length (blk_data b) <= N.to_nat 7680)%nat)
                    (scheduled s) ->
             Forall (fun b => (1 <= length b <= N.to_nat 7680)%nat)
                    (audioQueue (run s tr)) /\
             Forall (fun b => (1 <= length (blk_data b) <= N.to_nat 7680)%nat)
                    (scheduled (run s tr))).
  { induction tr as [|e tr IH]; intros s Hb Hq Hs; [split; assumption|].
    change (run s (e :: tr)) with (run (step s e) tr).
    destruct e as [now ev]. unfold step. cbn [fst snd].
    destruct ev as [chunk| | |source| |v| | |].
    - unfold addPCM16, startIfIdle.
      destruct (pushPCM16_sizes chunk s) as (H1 & H2 & H3);
        [lia | rewrite Hb; exact Hq |].
      rewrite Hb in H1.
      destruct (isPlaying (pushPCM16 chunk s)).
      + apply IH; [congruence | exact H1 | rewrite H3; exact Hs].
      + match goal with |- context [scheduleNextBuffer now ?st] =>
          destruct (scheduleNextBuffer_sizes now st (N.to_nat 7680))
            as (K1 & K2 & K3)
        end; cbn [audioQueue scheduled bufferSize] in *;
          [exact H1 | rewrite H3; exact Hs |].
        apply IH; [congruence | exact K1 | exact K2].
    - destruct (scheduleNextBuffer_sizes now (popTimeout s) (N.to_nat 7680))
        as (K1 & K2 & K3); [exact Hq | exact Hs |].
      apply IH; [cbn [bufferSize popTimeout] in K3; congruence | exact K1 | exact K2].
    - destruct (audioQueue s) eqn:E.
      + apply IH; [exact Hb | rewrite E; constructor | exact Hs].
      + destruct (scheduleNextBuffer_sizes now s (N.to_nat 7680))
          as (K1 & K2 & K3); [rewrite E; exact Hq | exact Hs |].
        apply IH; [congruence | exact K1 | exact K2].
    - destruct (StreamerSchedule.onended_fields now source s)
        as (_ & Hs' & _ & _ & _ & Hq').
      cbv zeta in *.
      apply IH; [| rewrite Hq'; exact Hq | rewrite Hs'; exact Hs].
      unfold onended, fireComplete.
      cbn [audioQueue endOfQueueAudioSource isStreamComplete].
      destruct (audioQueue s); [destruct (endOfQueueAudioSource s) as [last|]|];
        [destruct (Nat.eqb last source); [destruct (isStreamComplete s)|]| |];
        exact Hb.
    - unfold complete, fireComplete. cbn [audioQueue].
      destruct (audioQueue s) eqn:E; apply IH;
        cbn [bufferSize audioQueue scheduled]; rewrite ?E; assumption.
    - apply IH; assumption.
    - apply IH; [exact Hb | constructor | exact Hs].
    - apply IH; assumption.
    - apply IH; assumption. }
  cbv zeta. apply H; [reflexivity | constructor | constructor].
Qed.

(** *** Blocks in time *)

Lemma chained_backToBack (blocks : list Scheduled) :
  Forall blockOk blocks -> chained blocks -> backToBack blocks.
Proof.
  induction blocks as [|b1 [|b2 rest] IH]; intros Hok Hch; try exact I.
  inversion Hok as [|? ? (_ & He1 & _) Hok']; subst.
  inversion Hok' as [|? ? (Hs2 & _ & _) _]; subst.
  destruct Hch as [Hc Hch'].
  change (backToBack (b1 :: b2 :: rest))
    with (blk_start b1 + blk_duration b1 <= blk_start b2 /\
          (blk_clock b2 <= blk_start b1 + blk_duration b1 ->
           blk_start b2 == blk_start b1 + blk_duration b1) /\
          backToBack (b2 :: rest)).
  split; [|split; [|apply IH; assumption]].
  - rewrite <- He1, <- Hc, Hs2. apply Q.le_max_l.
  - rewrite <- He1, <- Hc, Hs2. intro Hclock. apply Q.max_l. exact Hclock.
Qed.

(** X8.  The blocks of one stream never overlap and leave no gap they could
    avoid: a block starts no earlier than the block before it ends, and
    exactly at that end whenever it is scheduled before that end. *)
Theorem blocks_play_back_to_back (accepted : bool) (rate : Q)
    (trace : list (Q * Event)) :
  0 < rate -> oneStream false trace = true ->
  backToBack (scheduled (run (newStreamer accepted rate) trace)).
Proof.
  intros Hrate Hone.
  assert (H : core (run (newStreamer accepted rate) trace)).
  { apply (StreamerSchedule.run_invariant trace false); [| |exact Hone].
    - unfold core, newStreamer. cbn [sampleRate scheduled scheduledTime].
      repeat split; auto; constructor.
    - intros _. unfold newStreamer. cbn. auto. }
  destruct H as (_ & Hok & _ & _ & Hch & _).
  apply chained_backToBack; assumption.
Qed.

Lemma blocks_play_back_to_back_witness :
  backToBack
    (scheduled
       (run (newStreamer true 24000)
          [(0, EvAdd [x01; x02; x03; x04]); (1 # 100, EvAdd [x05; x06]);
           (1 # 10, EvInterval); (2 # 10, EvComplete)])).
Proof.
  exact (blocks_play_back_to_back true 24000
           [(0, EvAdd [x01; x02; x03; x04]); (1 # 100, EvAdd [x05; x06]);
            (1 # 10, EvInterval); (2 # 10, EvComplete)]
           eq_refl eq_refl).
Defined.

Lemma scheduleLoop_ahead (now : Q) (queue : list (list Q)) (s : State) :
  Forall (fun b => blk_start b < blk_clock b + SCHEDULE_AHEAD_TIME) (scheduled s) ->
  Forall (fun b => blk_start b < blk_clock b + SCHEDULE_AHEAD_TIME)
         (scheduled (fst (scheduleLoop now queue s))).
Proof.
  revert s. induction queue as [|block rest IH]; intros s Hs; cbn [scheduleLoop].
  - exact Hs.
  - destruct (Qltb (scheduledTime s) (now + SCHEDULE_AHEAD_TIME)) eqn:E;
      [|exact Hs].
    destruct (createBufferThrows s block); [exact Hs|].
    apply Qltb_true in E. apply IH. cbn [scheduled].
    apply Forall_app. split; [exact Hs|]. constructor; [|constructor].
    cbn [blk_start blk_clock]. unfold SCHEDULE_AHEAD_TIME in *.
    apply Q.max_lub_lt; [exact E | lra].
Qed.

Lemma scheduleNextBuffer_ahead (now : Q) (s : State) :
  Forall (fun b => blk_start b < blk_clock b + SCHEDULE_AHEAD_TIME) (scheduled s) ->
  Forall (fun b => blk_start b < blk_clock b + SCHEDULE_AHEAD_TIME)
         (scheduled (scheduleNextBuffer now s)).
Proof.
  intro Hs. unfold scheduleNextBuffer.
  pose proof (scheduleLoop_ahead now (audioQueue s) s Hs) as H.
  cbv zeta.
  destruct (snd (scheduleLoop now (audioQueue s) s)); [exact H|].
  destruct (audioQueue (fst (scheduleLoop now (audioQueue s) s)));
    [destruct (isStreamComplete (fst (scheduleLoop now (audioQueue s) s)))|];
    exact H.
Qed.

(** X9.  The streamer never schedules far ahead: every block starts less than
    200 ms ([SCHEDULE_AHEAD_TIME]) after the clock value at which it was
    scheduled, in every run. *)
Theorem blocks_start_within_200ms (accepted : bool) (rate : Q)
    (trace : list (Q * Event)) :
  Forall (fun b => blk_clock b <= blk_start b /\
                   blk_start b < blk_clock b + (2 # 10))
         (scheduled (run (newStreamer accepted rate) trace)).
Proof.
  assert (Hclock : forall (tr : list (Q * Event)) (s : State),
             Forall (fun b => blk_start b = Qmax (blk_cursor b) (blk_clock b))
                    (scheduled s) ->
             Forall (fun b => blk_start b = Qmax (blk_cursor b) (blk_clock b))
                    (scheduled (run s tr))).
  { assert (Hloop : forall now queue s,
               Forall (fun b => blk_start b = Qmax (blk_cursor b) (blk_clock b))
                      (scheduled s) ->
               Forall (fun b => blk_start b = Qmax (blk_cursor b) (blk_clock b))
                      (scheduled (fst (scheduleLoop now queue s)))).
    { intros now queue. induction queue as [|block rest IHq]; intros s Hs;
        cbn [scheduleLoop]; [exact Hs|].
      destruct (Qltb (scheduledTime s) (now + SCHEDULE_AHEAD_TIME)); [|exact Hs].
      destruct (createBufferThrows s block); [exact Hs|].
      apply IHq. cbn [scheduled]. apply Forall_app. split; [exact Hs|].
      constructor; [reflexivity | constructor]. }
    assert (Hnext : forall now s,
               Forall (fun b => blk_start b = Qmax (blk_cursor b) (blk_clock b))
                      (scheduled s) ->
               Forall (fun b => blk_start b = Qmax (blk_cursor b) (blk_clock b))
                      (scheduled (scheduleNextBuffer now s))).
    { intros now s Hs. unfold scheduleNextBuffer.
      pose proof (Hloop now (audioQueue s) s Hs) as H. cbv zeta.
      destruct (snd (scheduleLoop now (audioQueue s) s)); [exact H|].
      destruct (audioQueue (fst (scheduleLoop now (audioQueue s) s)));
        [destruct (isStreamComplete (fst (scheduleLoop now (audioQueue s) s)))|];
        exact H. }
    induction tr as [|e tr IH]; intros s Hs; [exact Hs|].
    change (run s (e :: tr)) with (run (step s e) tr). apply IH.
    destruct e as [now ev]. unfold step. cbn [fst snd].
    destruct ev as [chunk| | |source| |v| | |]; try exact Hs.
    - unfold addPCM16, startIfIdle.
      destruct (StreamerSchedule.pushPCM16_fields chunk s) as (_ & Hsch & _).
      cbv zeta in Hsch.
      destruct (isPlaying (pushPCM16 chunk s)); [rewrite Hsch; exact Hs|].
      apply Hnext. cbn [scheduled]. rewrite Hsch. exact Hs.
    - apply Hnext. exact Hs.
    - destruct (audioQueue s); [exact Hs | apply Hnext; exact Hs].
    - destruct (StreamerSchedule.onended_fields now source s) as (_ & Hsch & _).
      cbv zeta in Hsch. rewrite Hsch. exact Hs.
    - unfold complete, fireComplete. cbn [audioQueue].
      destruct (audioQueue s); exact Hs. }
  assert (Hahead : forall (tr : list (Q * Event)) (s : State),
             Forall (fun b => blk_start b < blk_clock b + SCHEDULE_AHEAD_TIME)
                    (scheduled s) ->
             Forall (fun b => blk_start b < blk_clock b + SCHEDULE_AHEAD_TIME)
                    (scheduled (run s tr))).
  { induction tr as [|e tr IH]; intros s Hs; [exact Hs|].
    change (run s (e :: tr)) with (run (step s e) tr). apply IH.
    destruct e as [now ev]. unfold step. cbn [fst snd].
    destruct ev as [chunk| | |source| |v| | |]; try exact Hs.
    - unfold addPCM16, startIfIdle.
      destruct (StreamerSchedule.pushPCM16_fields chunk s) as (_ & Hsch & _).
      cbv zeta in Hsch.
      destruct (isPlaying (pushPCM16 chunk s)); [rewrite Hsch; exact Hs|].
      apply scheduleNextBuffer_ahead. cbn [scheduled]. rewrite Hsch. exact Hs.
    - apply scheduleNextBuffer_ahead. exact Hs.
    - destruct (audioQueue s); [exact Hs | apply scheduleNextBuffer_ahead; exact Hs].
    - destruct (StreamerSchedule.onended_fields now source s) as (_ & Hsch & _).
      cbv zeta in Hsch. rewrite Hsch. exact Hs.
    - unfold complete, fireComplete. cbn [audioQueue].
      destruct (audioQueue s); exact Hs. }
  pose proof (Hclock trace (newStreamer accepted rate) (Forall_nil _)) as H1.
  pose proof (Hahead trace (newStreamer accepted rate) (Forall_nil _)) as H2.
  apply Forall_forall. intros b Hb.
  rewrite Forall_forall in H1, H2. specialize (H1 b Hb). specialize (H2 b Hb).
  split; [rewrite H1; apply Q.le_max_r | exact H2].
Qed.

(** *** Stopping and waking up *)

(** X10.  [stop()] is final until the next chunk: whatever timers, ended
    events and other calls follow it, nothing more is scheduled, the
    queue stays empty and the streamer stays idle. *)
Theorem stop_schedules_nothing_more (now : Q) (s : State)
    (trace : list (Q * Event)) :
  forallb noChunk trace = true ->
  let s' := run (stop now s) trace in
  scheduled s' = scheduled s /\ audioQueue s' = [] /\ isPlaying s' = false.
Proof.
  intro Hn.
  assert (H : forall (tr : list (Q * Event)) (st : State),
             forallb noChunk tr = true ->
             audioQueue st = [] -> isPlaying st = false ->
             scheduled (run st tr) = scheduled st /\
             audioQueue (run st tr) = [] /\ isPlaying (run st tr) = false).
  { assert (Hnext : forall t st,
               audioQueue st = [] -> isPlaying st = false ->
               scheduled (scheduleNextBuffer t st) = scheduled st /\
               audioQueue (scheduleNextBuffer t st) = [] /\
               isPlaying (scheduleNextBuffer t st) = false).
    { intros t st Hq Hp. unfold scheduleNextBuffer. rewrite Hq.
      cbn [scheduleLoop audioQueue isStreamComplete].
      destruct (isStreamComplete st);
        cbn [scheduled audioQueue isPlaying]; auto. }
    induction tr as [|e tr IH]; intros st Htr Hq Hp; [auto|].
    cbn [forallb] in Htr. apply andb_true_iff in Htr. destruct Htr as [He Htr].
    change (run st (e :: tr)) with (run (step st e) tr).
    assert (Hstep : scheduled (step st e) = scheduled st /\
                    audioQueue (step st e) = [] /\ isPlaying (step st e) = false).
    { destruct e as [t ev]. unfold noChunk in He. unfold step. cbn [fst snd] in *.
      destruct ev as [chunk| | |source| |v| | |]; try discriminate; auto.
      - exact (Hnext t (popTimeout st) Hq Hp).
      - rewrite Hq. auto.
      - destruct (StreamerSchedule.onended_fields t source st)
          as (_ & H1 & _ & H2 & _ & H3).
        cbv zeta in *. rewrite H1, H2, H3. auto.
      - unfold complete, fireComplete. cbn [audioQueue]. rewrite Hq.
        cbn [scheduled audioQueue isPlaying]. auto. }
    destruct Hstep as (H1 & H2 & H3).
    destruct (IH (step st e) Htr H2 H3) as (K1 & K2 & K3).
    rewrite K1, H1. auto. }
  cbv zeta. apply (H trace (stop now s) Hn); reflexivity.
Qed.

Lemma stop_schedules_nothing_more_witness :
  let s := run (newStreamer true 24000) [(0, EvAdd [x01; x02; x03; x04])] in
  let after := [((2 # 10), EvTimeout); ((3 # 10), EvEnded 0%nat);
                ((3 # 10), EvRebuild); ((4 # 10), EvInterval)] in
  scheduled (run (stop (1 # 10) s) after) = scheduled s /\
  audioQueue (run (stop (1 # 10) s) after) = [] /\
  isPlaying (run (stop (1 # 10) s) after) = false.
Proof.
  exact (stop_schedules_nothing_more (1 # 10)
           (run (newStreamer true 24000) [(0, EvAdd [x01; x02; x03; x04])])
           [((2 # 10), EvTimeout); ((3 # 10), EvEnded 0%nat);
            ((3 # 10), EvRebuild); ((4 # 10), EvInterval)] eq_refl).
Defined.

(** On a context that refuses the rate the first chunk already strands
    the stream: [createBuffer] throws out of [addPCM16], which leaves the
    streamer marked as playing with neither a timer nor the polling
    interval, so a later chunk is queued and never scheduled. *)
Example refused_rate_strands_the_queue :
  let s := run (newStreamer false 1000000)
               [(0, EvAdd [x01; x02]); (0, EvAdd [x03; x04])] in
  audioQueue s = [[normalize 1027]] /\ scheduled s = [] /\
  isPlaying s = true /\ timeouts s = [] /\ checkInterval s = false /\
  uncaught s = [0].
Proof. cbv zeta. repeat split; vm_compute; reflexivity. Qed.

(** X11.  On a context that takes the sample rate, queued audio is never
    stranded: in every run, whenever blocks wait in the queue the
    streamer is playing and a wake-up is pending, a scheduling timer or
    the 100 ms polling interval. *)
Theorem queued_blocks_have_a_wakeup (rate : Q) (trace : list (Q * Event)) :
  let s := run (newStreamer true rate) trace in
  audioQueue s <> [] ->
  isPlaying s = true /\ (timeouts s <> [] \/ checkInterval s = true).
Proof.
  assert (Hnext : forall t st,
             ready st ->
             (isPlaying st = false -> audioQueue st = []) ->
             let st' := scheduleNextBuffer t st in
             (isPlaying st' = false -> audioQueue st' = []) /\
             (isPlaying st' = true ->
              timeouts st' <> [] \/ checkInterval st' = true)).
  { intros t st Hr Hidle.
    destruct (StreamerDecode.scheduleNextBuffer_ready t st Hr) as (_ & _ & Hno).
    unfold scheduleNextBuffer. cbv zeta. rewrite Hno.
    destruct (StreamerSchedule.scheduleLoop_fields t (audioQueue st) st)
      as (_ & Hp & _ & _).
    cbv zeta in Hp.
    destruct (audioQueue (fst (scheduleLoop t (audioQueue st) st))) eqn:E;
      [destruct (isStreamComplete (fst (scheduleLoop t (audioQueue st) st)))|];
      cbn [isPlaying audioQueue timeouts checkInterval].
    - split; [intros _; rewrite ?E; reflexivity | discriminate].
    - split; [intros _; rewrite ?E; reflexivity | intros _; right; reflexivity].
    - split.
      + rewrite Hp. intro Hf. specialize (Hidle Hf).
        rewrite Hidle in E. cbn [scheduleLoop audioQueue fst] in E.
        discriminate.
      + intros _. left.
        destruct (timeouts (fst (scheduleLoop t (audioQueue st) st)));
          discriminate. }
  assert (H : forall (tr : list (Q * Event)) (st : State),
             ready st ->
             (isPlaying st = false -> audioQueue st = []) ->
             (isPlaying st = true -> timeouts st <> [] \/ checkInterval st = true) ->
             (isPlaying (run st tr) = false -> audioQueue (run st tr) = []) /\
             (isPlaying (run st tr) = true ->
              timeouts (run st tr) <> [] \/ checkInterval (run st tr) = true)).
  { induction tr as [|e tr IH]; intros st Hr Hidle Hwake; [auto|].
    change (run st (e :: tr)) with (run (step st e) tr).
    destruct (StreamerDecode.step_ready st e Hr) as (Hr' & _).
    revert Hr'.
    destruct e as [t ev]. unfold step. cbn [fst snd].
    destruct ev as [chunk| | |source| |v| | |]; intro Hr'.
    - revert Hr'. unfold addPCM16, startIfIdle.
      destruct (StreamerDecode.pushPCM16_ready chunk st Hr) as (Hrp & _).
      destruct (isPlaying (pushPCM16 chunk st)) eqn:Ep; intro Hr'.
      + apply IH; [exact Hr'|congruence|].
        intros _. unfold pushPCM16.
        destruct (_processPCM16Chunk chunk) as [samples errs].
        destruct (sliceLoop (length samples) (bufferSize st) samples
                    (audioQueue st)) as [q rest].
        cbn [timeouts checkInterval]. apply Hwake.
        revert Ep. unfold pushPCM16.
        destruct (_processPCM16Chunk chunk) as [samples' errs'].
        destruct (sliceLoop (length samples') (bufferSize st) samples'
                    (audioQueue st)) as [q' rest'].
        cbn [isPlaying]. auto.
      + match goal with |- context [scheduleNextBuffer t ?x] =>
          destruct (Hnext t x) as [K1 K2]
        end; [exact Hrp|cbn [isPlaying]; discriminate|].
        apply IH; assumption.
    - destruct (Hnext t (popTimeout st)) as [K1 K2]; [exact Hr|exact Hidle|].
      apply IH; assumption.
    - revert Hr'. destruct (audioQueue st) eqn:E; intro Hr';
        [apply IH; [exact Hr'|intros _; exact E | exact Hwake]|].
      destruct (Hnext t st) as [K1 K2];
        [exact Hr|intro Hf; specialize (Hidle Hf); discriminate|].
      apply IH; assumption.
    - destruct (StreamerSchedule.onended_fields t source st)
        as (_ & _ & _ & H2 & _ & H3).
      cbv zeta in *.
      assert (Ht : timeouts (onended t source st) = timeouts st /\
                   checkInterval (onended t source st) = checkInterval st).
      { unfold onended, fireComplete.
        cbn [audioQueue endOfQueueAudioSource isStreamComplete].
        destruct (audioQueue st); [destruct (endOfQueueAudioSource st) as [last|]|];
          [destruct (Nat.eqb last source); [destruct (isStreamComplete st)|]| |];
          auto. }
      destruct Ht as [Ht1 Ht2].
      apply IH; rewrite ?H2, ?H3, ?Ht1, ?Ht2; assumption.
    - assert (Hc : isPlaying (complete t st) = isPlaying st /\
                   audioQueue (complete t st) = audioQueue st /\
                   timeouts (complete t st) = timeouts st /\
                   checkInterval (complete t st) = checkInterval st).
      { unfold complete, fireComplete. cbn [audioQueue].
        destruct (audioQueue st) eqn:E;
          cbn [isPlaying audioQueue timeouts checkInterval]; rewrite ?E; auto. }
      destruct Hc as (C1 & C2 & C3 & C4).
      apply IH; rewrite ?C1, ?C2, ?C3, ?C4; assumption.
    - apply IH; assumption.
    - apply IH; [exact Hr'|reflexivity | discriminate].
    - apply IH; assumption.
    - apply IH; assumption. }
  cbv zeta. intro Hq.
  destruct (H trace (newStreamer true rate)) as [K1 K2];
    [apply StreamerDecode.newStreamer_ready | reflexivity | discriminate |].
  destruct (isPlaying (run (newStreamer true rate) trace)) eqn:Ep.
  - split; [reflexivity | apply K2; reflexivity].
  - exfalso. apply Hq. apply K1. reflexivity.
Qed.

Lemma queued_blocks_have_a_wakeup_witness :
  let s := run (newStreamer true 24000)
               [(0, EvAdd [x01; x02]); (0, EvAdd [x03; x04])] in
  isPlaying s = true /\ (timeouts s <> [] \/ checkInterval s = true).
Proof.
  apply (queued_blocks_have_a_wakeup 24000
           [(0, EvAdd [x01; x02]); (0, EvAdd [x03; x04])]).
  vm_compute. discriminate.
Defined.

End StreamerRunsFacts.

Module PlaybackRunsFacts.
Import Playback PlaybackSteps PlaybackRuns.
Open Scope list_scope.
Open Scope Z_scope.

(** *** The output stage *)

Lemma mixerOk_same (s s' : State) :
  audioContext s' = audioContext s -> gainNode s' = gainNode s ->
  volume s' = volume s -> isMuted s' = isMuted s ->
  mixerOk s -> mixerOk s'.
Proof. unfold mixerOk. intros -> -> -> ->. auto. Qed.

Lemma initAudioContext_mixer (env : Env) (s : State) :
  mixerOk s -> mixerOk (fst (initAudioContext env s)).
Proof.
  intros (H0 & H1 & Hg). unfold initAudioContext.
  destruct (audioContext s) eqn:Hc.
  - cbn [fst]. unfold mixerOk. rewrite Hc. auto.
  - destruct (env_newContext env); cbn [fst]; unfold mixerOk; fields;
      rewrite ?Hc; auto.
Qed.

Lemma silenceCurrent_mixer (s : State) :
  audioContext (silenceCurrent s) = audioContext s /\
  gainNode (silenceCurrent s) = gainNode s /\
  volume (silenceCurrent s) = volume s /\
  isMuted (silenceCurrent s) = isMuted s.
Proof.
  unfold silenceCurrent. destruct (currentSource s); fields; auto.
Qed.

Lemma playAudioBuffer_mixer (env : Env) (data : list byte) (id : option nat)
    (s : State) :
  mixerOk s -> mixerOk (fst (playAudioBuffer env data id s)).
Proof.
  intro H. apply (initAudioContext_mixer env) in H.
  unfold playAudioBuffer.
  destruct (initAudioContext env s) as [s1 r]. cbn [fst] in H.
  unfold playCatch.
  destruct r as [msg|]; [cbn [fst]; eapply mixerOk_same; [| | | |exact H]; reflexivity|].
  destruct (env_suspended env);
    [cbn [fst]; eapply mixerOk_same; [| | | |exact H]; reflexivity|].
  set (s2 := if isPlaying s1 ||
                match currentSource s1 with Some _ => true | None => false end
             then withPlaying false (silenceCurrent s1) else s1).
  assert (H2 : mixerOk s2).
  { destruct (silenceCurrent_mixer s1) as (E1 & E2 & E3 & E4).
    unfold s2.
    destruct (isPlaying s1 ||
              match currentSource s1 with Some _ => true | None => false end);
      [|exact H].
    eapply mixerOk_same; [| | | |exact H]; fields; assumption. }
  clearbody s2. clear H s1.
  destruct data as [|b data];
    [cbn [fst]; eapply mixerOk_same; [| | | |exact H2]; reflexivity|].
  destruct (env_decode env);
    [cbn [fst]; eapply mixerOk_same; [| | | |exact H2]; reflexivity|].
  destruct (silenceCurrent_mixer (withPlaying true s2)) as (E1 & E2 & E3 & E4).
  fields in E1. fields in E2. fields in E3. fields in E4.
  destruct (env_start env); cbn [fst]; [|destruct id];
    (eapply mixerOk_same; [| | | |exact H2]); fields; assumption.
Qed.

Lemma processQueue_mixer (env : Env) (s : State) :
  mixerOk s -> mixerOk (processQueue env s).
Proof.
  intro H. unfold processQueue.
  destruct (isPlaying s || isQueueEmpty s); [exact H|].
  destruct (5 <=? errorCount s);
    [eapply mixerOk_same; [| | | |exact H]; reflexivity|].
  unfold dequeueAudio. destruct (audioQueue s) as [|item rest];
    [eapply mixerOk_same; [| | | |exact H]; reflexivity|].
  set (s2 := withCurrentPlayingItem (Some item)
               (withCurrentItem (Some item) (withQueue rest s))).
  assert (H2 : mixerOk s2)
    by (eapply mixerOk_same; [| | | |exact H]; reflexivity).
  clearbody s2.
  pose proof (playAudioBuffer_mixer env (item_audioData item)
                (Some (item_id item)) s2 H2) as H3.
  destruct (playAudioBuffer env (item_audioData item) (Some (item_id item)) s2)
    as [s3 r].
  cbn [fst] in H3.
  destruct r as [msg|].
  - destruct (lastError s3) as [audioError|]; [|exact H3].
    destruct (shouldSkipItem audioError);
      [|destruct (shouldRetryItem audioError && (retryCountOf item <? 2));
        [destruct (isStreamingChunk item)|]];
      (eapply mixerOk_same; [| | | |exact H3]); reflexivity.
  - destruct (0 <? errorCount s3); [|exact H3].
    eapply mixerOk_same; [| | | |exact H3]; reflexivity.
Qed.

Lemma prepareAudioContext_mixer (env : Env) (s : State) :
  mixerOk s -> mixerOk (prepareAudioContext env s).
Proof.
  intro H. apply (initAudioContext_mixer env) in H.
  unfold prepareAudioContext.
  destruct (initAudioContext env s) as [s1 r]. cbn [fst] in H.
  destruct r; [|destruct (env_suspended env); [destruct (env_resume env)|]];
    try exact H; (eapply mixerOk_same; [| | | |exact H]); reflexivity.
Qed.

Lemma stopPlayback_mixer (s : State) :
  mixerOk s -> mixerOk (stopPlayback s).
Proof.
  intro H. destruct (silenceCurrent_mixer s) as (E1 & E2 & E3 & E4).
  unfold stopPlayback. eapply mixerOk_same; [| | | |exact H]; fields; assumption.
Qed.

Lemma recoverEnd_mixer (env : Env) (s : State) :
  mixerOk s -> mixerOk (recoverEnd env s).
Proof.
  intro H. unfold recoverEnd.
  destruct (if audioContext s then env_close env else None);
    [eapply mixerOk_same; [| | | |exact H]; reflexivity|].
  set (s0 := clearErrors (if audioContext s then withContext false None s else s)).
  assert (H0 : mixerOk s0).
  { unfold s0. destruct H as (V0 & V1 & Hg).
    destruct (audioContext s) eqn:Hc; unfold mixerOk; fields; rewrite ?Hc; auto. }
  clearbody s0.
  apply (initAudioContext_mixer env) in H0.
  destruct (initAudioContext env s0) as [s2 r]. cbn [fst] in H0.
  destruct r; [|destruct (hasItemsInQueue s2)];
    (eapply mixerOk_same; [| | | |exact H0]); reflexivity.
Qed.

Lemma step_mixer (s : State) (e : Event) : mixerOk s -> mixerOk (step s e).
Proof.
  intro H.
  destruct e as [env data md|env k|source|env|env| | |itemId|v| | | |env|env|];
    unfold step.
  - unfold enqueueAudio. destruct data as [|b data];
      [cbn [fst]; eapply mixerOk_same; [| | | |exact H]; reflexivity|].
    cbn [fst].
    set (item := mkItem (nextId s) (b :: data) _ _).
    set (s1 := withEnqueued item (withQueue (audioQueue s ++ [item]) s)).
    assert (H1 : mixerOk s1)
      by (eapply mixerOk_same; [| | | |exact H]; reflexivity).
    assert (H2 : mixerOk (if negb (isPlaying s1) && negb (isRecovering s1)
                          then processQueue env s1 else s1)).
    { destruct (negb (isPlaying s1) && negb (isRecovering s1));
        [apply processQueue_mixer|]; exact H1. }
    destruct (audioContext s && env_suspended env); [|exact H2].
    apply prepareAudioContext_mixer. exact H2.
  - destruct (k <? length (timers s))%nat; [|exact H].
    apply processQueue_mixer.
    eapply mixerOk_same; [| | | |exact H]; reflexivity.
  - destruct (existsb (Nat.eqb source) (awaitingEnded s)); [|exact H].
    eapply mixerOk_same; [| | | |exact H]; reflexivity.
  - assert (Hb : mixerOk (recoverBegin s)).
    { unfold recoverBegin. apply stopPlayback_mixer.
      eapply mixerOk_same; [| | | |exact H]; reflexivity. }
    destruct (audioContext (recoverBegin s));
      [eapply mixerOk_same; [| | | |exact Hb]; reflexivity|].
    apply recoverEnd_mixer. exact Hb.
  - destruct (closing s) as [|n]; [exact H|].
    apply recoverEnd_mixer.
    eapply mixerOk_same; [| | | |exact H]; reflexivity.
  - eapply mixerOk_same; [| | | |exact H]; reflexivity.
  - eapply mixerOk_same; [| | | |exact H]; reflexivity.
  - unfold removeFromQueue.
    destruct (existsb (fun item => Nat.eqb (item_id item) itemId) (audioQueue s));
      [|exact H].
    eapply mixerOk_same; [| | | |exact H]; reflexivity.
  - destruct H as (V0 & V1 & Hg). unfold setVolume. cbv zeta. fields.
    destruct (clampVolume_range v) as [C0 C1].
    destruct (gainNode s) as [g|] eqn:Eg.
    + destruct (audioContext s) eqn:Ec; [|discriminate].
      destruct (isMuted s) eqn:Em; cbn [negb]; unfold mixerOk; fields;
        rewrite ?Ec, ?Em, ?Eg, ?Hg; auto.
    + destruct (audioContext s) eqn:Ec; [discriminate|].
      unfold mixerOk; fields. rewrite ?Ec, ?Eg. auto.
  - destruct H as (V0 & V1 & Hg). unfold toggleMute. cbv zeta. fields.
    destruct (gainNode s) as [g|] eqn:Eg.
    + destruct (audioContext s) eqn:Ec; [|discriminate].
      unfold mixerOk; fields. rewrite ?Ec. auto.
    + destruct (audioContext s) eqn:Ec; [discriminate|].
      unfold mixerOk; fields. rewrite ?Ec, ?Eg. auto.
  - apply stopPlayback_mixer. exact H.
  - apply stopPlayback_mixer. exact H.
  - unfold resumeQueue.
    destruct (negb (isPlaying s) && hasItemsInQueue s && negb (isRecovering s));
      [apply processQueue_mixer|]; exact H.
  - apply prepareAudioContext_mixer. exact H.
  - apply stopPlayback_mixer in H. destruct H as (V0 & V1 & Hg).
    unfold cleanup, clearQueue, mixerOk. fields. auto.
Qed.

(** X12.  In every run of the queue manager the output stage stays
    consistent: the volume lies in [0, 1], the gain node exists exactly
    while the audio context does, and its gain is 0 while muted and the
    volume otherwise. *)
Theorem gain_follows_volume_and_mute (trace : list Event) :
  mixerOk (run init trace).
Proof.
  assert (H : forall (tr : list Event) (s : State),
             mixerOk s -> mixerOk (run s tr)).
  { induction tr as [|e tr IH]; intros s Hs; [exact Hs|].
    change (run s (e :: tr)) with (run (step s e) tr).
    apply IH, step_mixer, Hs. }
  apply H. unfold mixerOk, init. cbn. repeat split; discriminate.
Qed.

(** *** The queue *)

Lemma queueOk_same (s s' : State) :
  audioQueue s' = audioQueue s -> queueLength s' = queueLength s ->
  0 <= errorCount s' ->
  queueOk s -> queueOk s'.
Proof.
  unfold queueOk. intros -> -> He (H1 & H2 & _). auto.
Qed.

Lemma queueOk_tail (s s' : State) (item : AudioQueueItem)
    (rest : list AudioQueueItem) :
  audioQueue s = item :: rest ->
  audioQueue s' = rest \/ audioQueue s' = bumpRetry item :: rest ->
  queueLength s' = length (audioQueue s') ->
  0 <= errorCount s' ->
  queueOk s -> queueOk s'.
Proof.
  unfold queueOk. intros Hq Hq' Hl He (H1 & H2 & _).
  rewrite Hq in *.
  inversion H2 as [|? ? D1 D2]; subst.
  destruct Hq' as [Hq'|Hq']; rewrite Hq' in *; repeat split; auto;
    try (constructor; assumption).
Qed.

Lemma processQueue_queueOk (env : Env) (s : State) :
  queueOk s -> queueOk (processQueue env s).
Proof.
  intro H. destruct (isPlaying s) eqn:Hp;
    [rewrite processQueue_idle by auto; exact H|].
  destruct (audioQueue s) as [|item rest] eqn:Hq;
    [rewrite processQueue_idle by auto; exact H|].
  assert (Hc : 0 <= errorCount s) by apply H.
  destruct (5 <=? errorCount s) eqn:He.
  - assert (Hne : audioQueue s <> []) by (rewrite Hq; discriminate).
    rewrite (processQueue_halt env s Hp Hne (proj1 (Z.leb_le _ _) He)).
    eapply queueOk_same; [| | |exact H]; fields; auto.
  - apply Z.leb_gt in He.
    destruct (processQueue_play env s item rest Hp Hq He)
      as (_ & Hn & _ & _ & Hl & Hrest).
    cbv zeta in *.
    destruct (playSucceeds env s (item_audioData item)).
    + destruct Hrest as (Hq' & _ & Herr & _).
      eapply (queueOk_tail s _ item rest); eauto.
      rewrite Herr. destruct (0 <? errorCount s); lia.
    + destruct Hrest as (Herr & _ & _ & err & _ & Hcase).
      eapply (queueOk_tail s _ item rest); eauto; [|lia].
      destruct (err_type err); try contradiction;
        try (destruct (retryCountOf item <? 2); [destruct (isStreamingChunk item)|]);
        destruct Hcase as (Hq' & _); auto.
Qed.

Lemma initAudioContext_queueOk (env : Env) (s : State) :
  queueOk s -> queueOk (fst (initAudioContext env s)).
Proof.
  intro H. pose proof (initAudioContext_spec env s) as Hi. cbv zeta in Hi.
  destruct Hi as (I1 & _ & I3 & _ & _ & I6 & _ & _ & _ & _ & _ & _ & _ & Hr).
  assert (Hc : 0 <= errorCount s) by apply H.
  eapply queueOk_same; [exact I1 | exact I6 | | exact H].
  destruct (snd (initAudioContext env s)); [|destruct Hr as (_ & -> & _); exact Hc].
  destruct Hr as (_ & ->). lia.
Qed.

Lemma prepareAudioContext_queueOk (env : Env) (s : State) :
  queueOk s -> queueOk (prepareAudioContext env s).
Proof.
  intro H. apply (initAudioContext_queueOk env) in H.
  unfold prepareAudioContext.
  destruct (initAudioContext env s) as [s1 r]. cbn [fst] in H.
  assert (Hc : 0 <= errorCount s1) by apply H.
  destruct r; [|destruct (env_suspended env); [destruct (env_resume env)|]];
    try exact H; (eapply queueOk_same; [| | |exact H]); fields; try reflexivity; lia.
Qed.

Lemma stopPlayback_queueOk (s : State) :
  queueOk s -> queueOk (stopPlayback s).
Proof.
  intro H. destruct (silenceCurrent_fields s)
    as (E1 & _ & E3 & _ & _ & E6 & _ & E8 & _).
  assert (Hc : 0 <= errorCount s) by apply H.
  unfold stopPlayback. eapply queueOk_same; [| | |exact H]; fields;
    try assumption. rewrite E8. exact Hc.
Qed.

Lemma recoverEnd_queueOk (env : Env) (s : State) :
  queueOk s -> queueOk (recoverEnd env s).
Proof.
  intro H. assert (Hc : 0 <= errorCount s) by apply H. unfold recoverEnd.
  destruct (if audioContext s then env_close env else None);
    [eapply queueOk_same; [| | |exact H]; fields; try reflexivity; lia|].
  set (s0 := clearErrors (if audioContext s then withContext false None s else s)).
  assert (H0 : queueOk s0).
  { unfold s0. destruct (audioContext s);
      (eapply queueOk_same; [| | |exact H]); fields; try reflexivity; lia. }
  clearbody s0.
  apply (initAudioContext_queueOk env) in H0.
  destruct (initAudioContext env s0) as [s2 r]. cbn [fst] in H0.
  assert (Hc2 : 0 <= errorCount s2) by apply H0.
  destruct r; [|destruct (hasItemsInQueue s2)];
    (eapply queueOk_same; [| | |exact H0]); fields; try reflexivity; lia.
Qed.

Lemma step_queueOk (s : State) (e : Event) : queueOk s -> queueOk (step s e).
Proof.
  intro H. assert (Hc : 0 <= errorCount s) by apply H.
  destruct e as [env data md|env k|source|env|env| | |itemId|v| | | |env|env|];
    unfold step.
  - unfold enqueueAudio. destruct data as [|b data];
      [cbn [fst]; eapply queueOk_same; [| | |exact H]; fields;
       try reflexivity; lia|].
    cbn [fst].
    set (item := mkItem (nextId s) (b :: data) _ _).
    set (s1 := withEnqueued item (withQueue (audioQueue s ++ [item]) s)).
    assert (H1 : queueOk s1).
    { destruct H as (H1 & H2 & _). unfold queueOk, s1. fields.
      repeat split; auto.
      apply Forall_app. split; [exact H2|].
      constructor; [discriminate | constructor]. }
    assert (H2 : queueOk (if negb (isPlaying s1) && negb (isRecovering s1)
                          then processQueue env s1 else s1)).
    { destruct (negb (isPlaying s1) && negb (isRecovering s1));
        [apply processQueue_queueOk|]; exact H1. }
    destruct (audioContext s && env_suspended env); [|exact H2].
    apply prepareAudioContext_queueOk. exact H2.
  - destruct (k <? length (timers s))%nat; [|exact H].
    apply processQueue_queueOk.
    eapply queueOk_same; [| | |exact H]; fields; auto.
  - destruct (existsb (Nat.eqb source) (awaitingEnded s)); [|exact H].
    eapply queueOk_same; [| | |exact H]; unfold onended; fields; auto.
  - assert (Hb : queueOk (recoverBegin s)).
    { unfold recoverBegin. apply stopPlayback_queueOk.
      eapply queueOk_same; [| | |exact H]; fields; auto. }
    destruct (audioContext (recoverBegin s)).
    + assert (0 <= errorCount (recoverBegin s)) by apply Hb.
      eapply queueOk_same; [| | |exact Hb]; fields; auto.
    + apply recoverEnd_queueOk. exact Hb.
  - destruct (closing s) as [|n]; [exact H|].
    apply recoverEnd_queueOk.
    eapply queueOk_same; [| | |exact H]; fields; auto.
  - unfold clearQueue, queueOk. fields.
    repeat split; try constructor; lia.
  - eapply queueOk_same; [| | |exact H]; fields; try reflexivity; lia.
  - unfold removeFromQueue.
    destruct (existsb (fun item => Nat.eqb (item_id item) itemId) (audioQueue s));
      [|exact H].
    destruct H as (H1 & H2 & _). unfold queueOk. fields.
    repeat split; auto.
    apply Forall_forall. intros x Hx.
    rewrite Forall_forall in H2. apply H2.
    eapply PlaybackRetry.removeFirst_In. exact Hx.
  - unfold setVolume. cbv zeta. fields.
    destruct (gainNode s); [destruct (negb (isMuted s))|];
      (eapply queueOk_same; [| | |exact H]); fields; auto.
  - unfold toggleMute. cbv zeta. fields.
    destruct (gainNode s);
      (eapply queueOk_same; [| | |exact H]); fields; auto.
  - apply stopPlayback_queueOk. exact H.
  - apply stopPlayback_queueOk. exact H.
  - unfold resumeQueue.
    destruct (negb (isPlaying s) && hasItemsInQueue s && negb (isRecovering s));
      [apply processQueue_queueOk|]; exact H.
  - apply prepareAudioContext_queueOk. exact H.
  - apply stopPlayback_queueOk in H. destruct H as (H1 & H2 & _).
    unfold cleanup, clearQueue, queueOk. fields.
    repeat split; try constructor; lia.
Qed.

(** X13.  In every run of the queue manager the queue stays consistent:
    [queueLength] is the length of the queue, no queued item holds empty
    audio data (so the decoder is never handed an empty buffer from the
    queue), and the error counter is never negative. *)
Theorem queue_stays_consistent (trace : list Event) :
  queueOk (run init trace).
Proof.
  assert (H : forall (tr : list Event) (s : State),
             queueOk s -> queueOk (run s tr)).
  { induction tr as [|e tr IH]; intros s Hs; [exact Hs|].
    change (run s (e :: tr)) with (run (step s e) tr).
    apply IH, step_queueOk, Hs. }
  apply H. unfold queueOk, init. cbn.
  repeat split; try constructor; lia.
Qed.

(** *** Reports *)

(** X15.  [getRecommendations] follows the health of the queue manager: it is
    empty exactly when the manager is healthy and its last error, if
    any, is neither a decode nor a context error; and whenever it
    advises to clear the queue it also advises to run the recovery. *)
Theorem recommendations_follow_health (s : State) :
  (getRecommendations s = [] <->
   isHealthy s = true /\
   forall e, lastError s = Some e ->
             err_type e <> DECODE_ERROR /\ err_type e <> CONTEXT_ERROR) /\
  (In "Consider clearing the queue and restarting"%string (getRecommendations s) ->
   In "Use the recovery function to reset the audio system"%string
      (getRecommendations s)).
Proof.
  unfold getRecommendations, isHealthy. split.
  - split.
    + intro H.
      destruct (3 <? errorCount s) eqn:E3; [discriminate|].
      apply Z.ltb_ge in E3.
      destruct (lastError s) as [[[] msg id]|] eqn:El; try discriminate;
        cbn [app] in H;
        (destruct ((errorCount s <? 3) && negb (isRecovering s)) eqn:Eh;
         [|discriminate]);
        (split; [reflexivity|]); intros e He; inversion He; subst; cbn;
        split; discriminate.
    + intros [Hh Hl]. rewrite Hh. cbn [negb].
      apply andb_true_iff in Hh. destruct Hh as [Hc _].
      apply Z.ltb_lt in Hc.
      rewrite (proj2 (Z.ltb_ge _ _)) by lia.
      destruct (lastError s) as [[[] msg id]|]; try reflexivity;
        destruct (Hl _ eq_refl) as [H1 H2]; cbn in H1, H2; congruence.
  - intro Hin.
    assert (Hc : (3 <? errorCount s) = true).
    { destruct (3 <? errorCount s); [reflexivity|]. exfalso.
      cbn [app] in Hin. apply in_app_or in Hin. destruct Hin as [Hin|Hin].
      - destruct (lastError s) as [[[] msg id]|]; cbn in Hin;
          try contradiction; destruct Hin as [Hin|[]]; discriminate.
      - apply in_app_or in Hin. destruct Hin as [Hin|Hin].
        + destruct (lastError s) as [[[] msg id]|]; cbn in Hin;
            try contradiction; destruct Hin as [Hin|[]]; discriminate.
        + destruct (negb ((errorCount s <? 3) && negb (isRecovering s)));
            cbn in Hin; try contradiction; destruct Hin as [Hin|[]]; discriminate. }
    apply Z.ltb_lt in Hc.
    rewrite (proj2 (Z.ltb_ge (errorCount s) 3)) by lia. cbn [andb negb].
    apply in_or_app. right. apply in_or_app. right. apply in_or_app. right.
    left. reflexivity.
Qed.

End PlaybackRunsFacts.

Module DedupRunsFacts.
Import Dedup DedupFacts.

Lemma split_at_underscore (d1 d2 : Decimal.uint) (h1 h2 : string) :
  (NilEmpty.string_of_uint d1 ++ String "_" h1)%string =
  (NilEmpty.string_of_uint d2 ++ String "_" h2)%string ->
  d1 = d2 /\ h1 = h2.
Proof.
  revert d2. induction d1; intros d2 H; destruct d2; cbn in H;
    try discriminate;
    try (injection H as H; destruct (IHd1 _ H) as [-> ->]; auto).
  injection H as ->. auto.
Qed.

Lemma hexDigit_inj (a b : N) :
  (a < 16)%N -> (b < 16)%N -> hexDigit a = hexDigit b -> a = b.
Proof.
  intros Ha Hb.
  assert (Ea : (a = 0 \/ a = 1 \/ a = 2 \/ a = 3 \/ a = 4 \/ a = 5 \/ a = 6 \/
               a = 7 \/ a = 8 \/ a = 9 \/ a = 10 \/ a = 11 \/ a = 12 \/
               a = 13 \/ a = 14 \/ a = 15)%N) by lia.
  assert (Eb : (b = 0 \/ b = 1 \/ b = 2 \/ b = 3 \/ b = 4 \/ b = 5 \/ b = 6 \/
               b = 7 \/ b = 8 \/ b = 9 \/ b = 10 \/ b = 11 \/ b = 12 \/
               b = 13 \/ b = 14 \/ b = 15)%N) by lia.
  clear Ha Hb.
  repeat (destruct Ea as [->|Ea]); try subst a;
    repeat (destruct Eb as [->|Eb]); try subst b;
    cbn; intro H; try reflexivity; discriminate H.
Qed.

Lemma hexByte_inj (a b : byte) : hexByte a = hexByte b -> a = b.
Proof.
  unfold hexByte. cbv zeta. intro H. injection H as H1 H2.
  pose proof (Byte.to_N_bounded a) as Ha.
  pose proof (Byte.to_N_bounded b) as Hb.
  apply hexDigit_inj in H1;
    [|apply N.Div0.div_lt_upper_bound; lia|apply N.Div0.div_lt_upper_bound; lia].
  apply hexDigit_inj in H2; [|apply N.mod_lt; lia|apply N.mod_lt; lia].
  assert (E : Byte.to_N a = Byte.to_N b).
  { rewrite (N.div_mod (Byte.to_N a) 16), (N.div_mod (Byte.to_N b) 16) by lia.
    rewrite H1, H2. reflexivity. }
  apply (f_equal Byte.of_N) in E. rewrite !Byte.of_to_N in E.
  injection E as ->. reflexivity.
Qed.

Lemma hex_cons (b : byte) (l : list byte) :
  String.concat "" (map hexByte (b :: l)) =
  String (hexDigit (Byte.to_N b / 16))
    (String (hexDigit (Byte.to_N b mod 16)) (String.concat "" (map hexByte l))).
Proof.
  destruct l as [|c l]; reflexivity.
Qed.

Lemma hex_inj (x y : list byte) :
  String.concat "" (map hexByte x) = String.concat "" (map hexByte y) -> x = y.
Proof.
  revert y. induction x as [|a x IH]; intros [|b y] H.
  - reflexivity.
  - rewrite hex_cons in H. discriminate.
  - rewrite hex_cons in H. discriminate.
  - rewrite !hex_cons in H. injection H as H1 H2 H3.
    f_equal; [|exact (IH _ H3)].
    apply hexByte_inj. unfold hexByte. cbv zeta. rewrite H1, H2. reflexivity.
Qed.

(** X16.  Two chunks get the same fingerprint exactly when they have the
    same length and the same first 16 bytes; whatever follows the 16th
    byte is not looked at. *)
Theorem fingerprints_collide_iff (x y : list byte) :
  fingerprint x = fingerprint y <->
  length x = length y /\ firstn 16 x = firstn 16 y.
Proof.
  unfold fingerprint. split.
  - intro H. apply split_at_underscore in H. destruct H as [Hd Hh].
    split.
    + rewrite <- (DecimalNat.Unsigned.of_to (length x)),
              <- (DecimalNat.Unsigned.of_to (length y)).
      rewrite Hd. reflexivity.
    + apply hex_inj. exact Hh.
  - intros [-> ->]. reflexivity.
Qed.

(** A fingerprint that is neither cached nor the one of the chunk that
    comes in is not cached afterwards either. *)
Lemma processPCMChunk_others (now : Q) (x : list byte) (md : bool) (s : State)
    (f : string) :
  wellFormedCache (processedChunks s) ->
  ~ In f (processedChunks s) -> f <> fingerprint x ->
  ~ In f (processedChunks (processPCMChunk now x md s)).
Proof.
  intros Hw Hf Hne.
  destruct (set_has (fingerprint x) (processedChunks s)) eqn:Hd.
  - rewrite (processPCMChunk_duplicate now x md s Hd). exact Hf.
  - destruct (processPCMChunk_new now x md s Hw Hd) as (Hk & _ & _).
    cbv zeta in Hk. rewrite Hk. intro Hin. apply in_app_or in Hin.
    destruct Hin as [Hin|[Hin|[]]]; [|congruence].
    destruct (length (processedChunks s) <? 100)%nat; [exact (Hf Hin)|].
    destruct (processedChunks s); [exact Hin|]. apply Hf. right. exact Hin.
Qed.

(** X17.  Chunks whose fingerprints differ from one another and from those
    in the cache are all forwarded to the streamer, in the order they
    arrive: the filter drops nothing but fingerprints it has seen. *)
Theorem distinct_chunks_all_forwarded (s : State)
    (chunks : list (Q * list byte)) :
  wellFormedCache (processedChunks s) ->
  audioStreamer s <> None ->
  NoDup (map (fun c => fingerprint (snd c)) chunks) ->
  (forall c, In c chunks -> ~ In (fingerprint (snd c)) (processedChunks s)) ->
  forwarded (feed s chunks) = forwarded s ++ map snd chunks.
Proof.
  revert s. induction chunks as [|[now x] chunks IH]; intros s Hw Hst Hnd Hnew.
  - cbn. rewrite app_nil_r. reflexivity.
  - cbn [feed fold_left fst snd map].
    change (fold_left _ chunks ?st) with (feed st chunks).
    assert (Hd : set_has (fingerprint x) (processedChunks s) = false).
    { apply set_has_notIn. apply (Hnew (now, x)). left. reflexivity. }
    destruct (processPCMChunk_new now x true s Hw Hd) as (_ & Hw' & Hf).
    cbv zeta in Hw', Hf.
    destruct (audioStreamer s) as [st|] eqn:Est; [|congruence].
    destruct Hf as (Hf & Hst').
    inversion Hnd as [|f fs Hx Hnd']; subst.
    rewrite IH; auto.
    + rewrite Hf, <- app_assoc. reflexivity.
    + intros c Hc. apply processPCMChunk_others; auto.
      * apply Hnew. right. exact Hc.
      * intro E. apply Hx. cbn [snd]. rewrite <- E.
        apply (in_map (fun c => fingerprint (snd c))). exact Hc.
Qed.

Lemma distinct_chunks_all_forwarded_witness :
  forwarded (feed (mkState [] (Some (Streamer.newStreamer true 24000)) true true [])
               [(0%Q, [x01; x02]); (0%Q, [x03; x04])]) =
  [] ++ [[x01; x02]; [x03; x04]].
Proof.
  refine (distinct_chunks_all_forwarded
            (mkState [] (Some (Streamer.newStreamer true 24000)) true true [])
            [(0%Q, [x01; x02]); (0%Q, [x03; x04])] _ _ _ _).
  - unfold wellFormedCache. cbn. split; [constructor|]. split; [lia|constructor].
  - discriminate.
  - cbn. constructor.
    + cbn. intros [H|[]]. discriminate H.
    + constructor; [intros []|constructor].
  - intros c _ [].
Defined.

End DedupRunsFacts.

Module SocketFacts.
Import Socket.

Lemma scheduleLoop_sampleRate (now : Q) (queue : list (list Q))
    (s : Streamer.State) :
  Streamer.sampleRate (fst (Streamer.scheduleLoop now queue s)) =
  Streamer.sampleRate s.
Proof.
  revert s. induction queue as [|block rest IH]; intro s;
    cbn [Streamer.scheduleLoop]; [reflexivity|].
  destruct (Qltb _ _); [destruct (Streamer.createBufferThrows s block)|];
    [|rewrite IH|]; reflexivity.
Qed.

Lemma scheduleNextBuffer_sampleRate (now : Q) (s : Streamer.State) :
  Streamer.sampleRate (Streamer.scheduleNextBuffer now s) = Streamer.sampleRate s.
Proof.
  unfold Streamer.scheduleNextBuffer. cbv zeta.
  destruct (snd _); [apply scheduleLoop_sampleRate|].
  destruct (Streamer.audioQueue _); [destruct (Streamer.isStreamComplete _)|];
    cbn [Streamer.sampleRate]; apply scheduleLoop_sampleRate.
Qed.

Lemma addPCM16_sampleRate (now : Q) (chunk : list byte) (s : Streamer.State) :
  Streamer.sampleRate (Streamer.addPCM16 now chunk s) = Streamer.sampleRate s.
Proof.
  unfold Streamer.addPCM16, Streamer.startIfIdle.
  destruct (StreamerSchedule.pushPCM16_fields chunk s) as (Hr & _).
  cbv zeta in Hr.
  destruct (Streamer.isPlaying _); [exact Hr|].
  rewrite scheduleNextBuffer_sampleRate. exact Hr.
Qed.

Lemma step_sampleRate (s : Streamer.State) (e : Q * Streamer.Event) :
  Streamer.sampleRate (Streamer.step s e) = Streamer.sampleRate s.
Proof.
  destruct e as [now [chunk| | |source| |v| | |]]; unfold Streamer.step;
    cbn [fst snd].
  - apply addPCM16_sampleRate.
  - rewrite scheduleNextBuffer_sampleRate. reflexivity.
  - destruct (Streamer.audioQueue s); [reflexivity|].
    apply scheduleNextBuffer_sampleRate.
  - apply (StreamerSchedule.onended_fields now source s).
  - unfold Streamer.complete. cbv zeta. cbn [Streamer.audioQueue].
    destruct (Streamer.audioQueue s); reflexivity.
  - reflexivity.
  - reflexivity.
  - reflexivity.
  - reflexivity.
Qed.

Lemma rateOr24000_same (a b : option Q) :
  differentRate a b = false -> rateOr24000 a == rateOr24000 b.
Proof.
  destruct a as [x|], b as [y|]; cbn; try discriminate; [|reflexivity].
  intro H. apply negb_false_iff, Qeq_bool_iff in H.
  destruct (Qeq_bool x 0) eqn:Ex, (Qeq_bool y 0) eqn:Ey; try reflexivity;
    try exact H.
  - apply Qeq_bool_iff in Ex. rewrite H in Ex. apply Qeq_bool_iff in Ex.
    congruence.
  - apply Qeq_bool_iff in Ey. rewrite <- H in Ey. apply Qeq_bool_iff in Ey.
    congruence.
Qed.

Lemma wellFormedCache_nil : Dedup.wellFormedCache [].
Proof.
  unfold Dedup.wellFormedCache. cbn. repeat split; [constructor|lia|constructor].
Qed.

Ltac parts := split; [|split].

Lemma tell_consistent (call : StoreCall) (s : State) :
  consistent s -> consistent (tell call s).
Proof. intro H. exact H. Qed.

Lemma stopStreamer_spec (now : Q) (s : State) :
  let s1 := stopStreamer now s in
  Dedup.audioStreamer (pcm s1) = None /\
  Dedup.processedChunks (pcm s1) = Dedup.processedChunks (pcm s) /\
  Dedup.currentStreamMetadata (pcm s1) = Dedup.currentStreamMetadata (pcm s) /\
  Dedup.isStreamingActive (pcm s1) = Dedup.isStreamingActive (pcm s) /\
  Dedup.forwarded (pcm s1) = Dedup.forwarded (pcm s) /\
  metadataSampleRate s1 = metadataSampleRate s.
Proof.
  unfold stopStreamer.
  destruct (Dedup.audioStreamer (pcm s)) eqn:E; cbn; auto 10.
Qed.

Lemma handleBinary_consistent (now : Q) (data : list byte) (s : State) :
  consistent s -> consistent (handleBinary now data s).
Proof.
  intros Hs. pose proof Hs as (Hf & Hc & Hr). unfold handleBinary.
  destruct (Dedup.currentStreamMetadata (pcm s)) eqn:Hm; [|exact Hs].
  destruct (Dedup.set_has (Dedup.fingerprint data)
              (Dedup.processedChunks (pcm s))) eqn:Hd.
  - rewrite (DedupFacts.processPCMChunk_duplicate now data true (pcm s) Hd).
    destruct s as [p m r pi re sc]. exact Hs.
  - destruct (DedupFacts.processPCMChunk_new now data true (pcm s) Hc Hd)
      as (_ & Hc' & _).
    cbv zeta in Hc'.
    unfold consistent, announcedRate, withPcm in *.
    cbn [pcm metadataSampleRate].
    split; [|split; [exact Hc'|]].
    + unfold Dedup.processPCMChunk. rewrite Hd.
      destruct (Dedup.audioStreamer (pcm s));
        cbn [Dedup.isStreamingActive Dedup.currentStreamMetadata];
        rewrite ?Hm, ?Hf; reflexivity.
    + unfold Dedup.processPCMChunk. rewrite Hd.
      destruct (Dedup.audioStreamer (pcm s)) as [st|];
        cbn [Dedup.audioStreamer Dedup.currentStreamMetadata]; [|exact I].
      intros _. rewrite addPCM16_sampleRate. apply Hr. exact Hm.
Qed.

Lemma step_consistent (s : State) (e : Q * Event) :
  consistent s -> consistent (step s e).
Proof.
  intros Hs. pose proof Hs as (Hf & Hc & Hr).
  destruct e as [now ev]. unfold step. cbn [fst snd].
  destruct ev as [[message|text] date|data|[data|text]| |k failure volume accepted
                  | | |failure|ev].
  - (* a parsed message *)
    unfold handleJSON. destruct (msg_type message).
    + destruct (truthy _); [apply tell_consistent|]; exact Hs.
    + set (s1 := match truthy (msg_content message) with
                   | Some text => tell (AddMessage Store.Response text) s
                   | None => s
                   end).
      assert (H1 : consistent s1)
        by (unfold s1; destruct (truthy _); [apply tell_consistent|]; exact Hs).
      clearbody s1.
      destruct (match currentResponseId s1 with
                | Some id => _ | None => false end); [exact H1|].
      destruct H1 as (_ & H1c & _).
      unfold consistent, announcedRate. cbn.
      parts; try exact H1c; auto.
      destruct (Dedup.audioStreamer (pcm s1)); [discriminate|exact I].
    + unfold audioChunk. cbv zeta.
      destruct (negb (Dedup.isStreamingActive (pcm s)) || _ || _) eqn:Hn.
      * destruct (stopStreamer_spec now s) as (H1 & H2 & H3 & H4 & _ & H6).
        cbv zeta in *.
        unfold consistent, announcedRate. cbn [pcm metadataSampleRate].
        rewrite H1, H2, H3, H4. auto.
      * apply orb_false_iff in Hn. destruct Hn as (Hn & Hd).
        apply orb_false_iff in Hn. destruct Hn as (Ha & Hst).
        apply negb_false_iff in Ha.
        unfold consistent, announcedRate. cbn.
        parts; try exact Hc; auto.
        unfold announcedRate in Hr.
        destruct (Dedup.audioStreamer (pcm s)) as [st|]; [|exact I].
        intros _. rewrite <- Hf, Ha in *. cbn in Hd.
        rewrite (Hr eq_refl). apply rateOr24000_same. exact Hd.
    + unfold finalizePCMStream. apply tell_consistent.
      unfold consistent, announcedRate. cbn.
      destruct (Dedup.audioStreamer (pcm s)) eqn:Est; cbn; rewrite ?Est;
        parts; auto; discriminate.
    + apply tell_consistent. exact Hs.
    + apply tell_consistent. exact Hs.
    + apply tell_consistent. exact Hs.
    + exact Hs.
    + exact Hs.
  - apply tell_consistent. exact Hs.
  - apply handleBinary_consistent. exact Hs.
  - apply handleBinary_consistent. exact Hs.
  - apply tell_consistent. exact Hs.
  - exact Hs.
  - destruct (nth_error (pendingInits s) k) as [rate|]; [|exact Hs].
    unfold initSettled. destruct failure as [text|].
    + apply tell_consistent. exact Hs.
    + unfold consistent, announcedRate. cbn. parts; try exact Hc; auto.
      intros _. reflexivity.
  - destruct (stopStreamer_spec now s) as (H1 & H2 & H3 & H4 & _ & H6).
    cbv zeta in *.
    unfold consistent, announcedRate. cbn. rewrite H1.
    parts; auto. apply wellFormedCache_nil.
  - unfold resetStream.
    destruct (stopStreamer_spec now s) as (H1 & H2 & H3 & H4 & _ & H6).
    cbv zeta in *.
    unfold consistent, announcedRate. cbn. rewrite H1, H2.
    parts; auto.
  - unfold resetStream.
    destruct (stopStreamer_spec now s) as (H1 & H2 & H3 & H4 & _ & H6).
    cbv zeta in *.
    destruct failure; unfold consistent, announcedRate; cbn; rewrite H1, ?H2;
      parts; auto. apply wellFormedCache_nil.
  - destruct (Dedup.audioStreamer (pcm s)) as [st|] eqn:Est; [|exact Hs].
    destruct (fromOutside ev); [|exact Hs].
    unfold consistent, announcedRate, withPcm. cbn.
    parts; auto.
    intro Hm. rewrite step_sampleRate.
    unfold announcedRate in Hr. rewrite Est in Hr. apply Hr. exact Hm.
Qed.

Lemma run_consistent (trace : list (Q * Event)) (s : State) :
  consistent s -> consistent (run s trace).
Proof.
  revert s. induction trace as [|e trace IH]; intros s Hs; [exact Hs|].
  apply IH. apply step_consistent. exact Hs.
Qed.

Lemma cache_wf (trace : list (Q * Event)) :
  Dedup.wellFormedCache (Dedup.processedChunks (pcm (run init trace))).
Proof.
  revert trace.
  assert (H : forall trace s, consistent s -> consistent (run s trace))
    by exact run_consistent.
  intro trace. refine (proj1 (proj2 (H trace init _))).
  unfold consistent, announcedRate. cbn.
  parts; auto. apply wellFormedCache_nil.
Qed.

Lemma init_consistent : consistent init.
Proof.
  unfold consistent, announcedRate. cbn.
  parts; auto. apply wellFormedCache_nil.
Qed.

Lemma oneStream_snoc (c : bool) (history : list (Q * Streamer.Event))
    (e : Q * Streamer.Event) :
  Streamer.oneStream c (history ++ [e]) =
  Streamer.oneStream c history &&
  match snd e with
  | Streamer.EvAdd _ => negb (c || completed history)
  | Streamer.EvStop | Streamer.EvResume => false
  | _ => true
  end.
Proof.
  revert c. induction history as [|x history IH]; intro c.
  - cbn. destruct (snd e); cbn; rewrite ?orb_false_r, ?andb_true_r; reflexivity.
  - cbn [app Streamer.oneStream completed existsb].
    destruct (snd x) eqn:Ex; rewrite ?IH; cbn [orb];
      rewrite ?andb_assoc; try reflexivity.
    destruct (snd e); rewrite ?orb_true_r; reflexivity.
Qed.

Lemma completed_snoc (history : list (Q * Streamer.Event))
    (e : Q * Streamer.Event) :
  completed (history ++ [e]) =
  completed history ||
  match snd e with Streamer.EvComplete => true | _ => false end.
Proof.
  unfold completed. rewrite existsb_app. cbn. rewrite orb_false_r. reflexivity.
Qed.

Lemma run_snoc (s : Streamer.State) (history : list (Q * Streamer.Event))
    (e : Q * Streamer.Event) :
  Streamer.run s (history ++ [e]) = Streamer.step (Streamer.run s history) e.
Proof. unfold Streamer.run. rewrite fold_left_app. reflexivity. Qed.

(** One more call on the current streamer that is neither [stop()] nor
    [resume()], and a chunk only while [complete()] has not been called. *)
Lemma driven_snoc (st : Streamer.State) (e : Q * Streamer.Event) (m m' : bool) :
  (exists accepted rate history,
     st = Streamer.run (Streamer.newStreamer accepted rate) history /\
     Streamer.oneStream false history = true /\
     (m = true -> completed history = false)) ->
  match snd e with
  | Streamer.EvAdd _ => m = true
  | Streamer.EvStop | Streamer.EvResume => False
  | Streamer.EvComplete => m' = false
  | _ => True
  end ->
  (m' = true -> m = true) ->
  exists accepted rate history,
    Streamer.step st e = Streamer.run (Streamer.newStreamer accepted rate) history /\
    Streamer.oneStream false history = true /\
    (m' = true -> completed history = false).
Proof.
  intros (accepted & rate & history & Hst & Ho & Hc) He Hm.
  exists accepted, rate, (history ++ [e]). split; [|split].
  - rewrite run_snoc, Hst. reflexivity.
  - rewrite oneStream_snoc, Ho. cbn [andb orb].
    destruct (snd e); try reflexivity; try contradiction.
    rewrite (Hc He). reflexivity.
  - intro H. rewrite completed_snoc.
    destruct (snd e); try (rewrite orb_false_r; exact (Hc (Hm H)));
      try contradiction. congruence.
Qed.

Lemma step_driven (s : State) (e : Q * Event) :
  consistent s -> drivenAsOneStream s -> drivenAsOneStream (step s e).
Proof.
  intros (Hf & _ & _) Hd. destruct e as [now ev]. unfold step. cbn [fst snd].
  assert (Hstop : forall s0, drivenAsOneStream (stopStreamer now s0) /\
                             Dedup.audioStreamer (pcm (stopStreamer now s0)) = None).
  { intro s0. unfold drivenAsOneStream, stopStreamer.
    destruct (Dedup.audioStreamer (pcm s0)) eqn:E; cbn; rewrite ?E; auto. }
  destruct ev as [[message|text] date|data|[data|text]| |k failure volume accepted
                  | | |failure|ev]; try exact Hd.
  - unfold handleJSON. destruct (msg_type message); try exact Hd.
    + destruct (truthy _); exact Hd.
    + set (s1 := match truthy (msg_content message) with
                 | Some text => tell (AddMessage Store.Response text) s
                 | None => s
                 end).
      assert (H1 : drivenAsOneStream s1)
        by (unfold s1; destruct (truthy _); exact Hd).
      clearbody s1.
      destruct (match currentResponseId s1 with
                | Some id => _ | None => false end); [exact H1|].
      unfold drivenAsOneStream in *. cbn.
      destruct (Dedup.audioStreamer (pcm s1)); [|exact I].
      destruct H1 as (accepted & rate & history & H1 & H2 & _).
      exists accepted, rate, history. repeat split; auto. discriminate.
    + unfold audioChunk. cbv zeta.
      destruct (negb (Dedup.isStreamingActive (pcm s)) || _ || _) eqn:Hn.
      * destruct (Hstop s) as (_ & Hnone).
        unfold drivenAsOneStream. cbn [pcm]. rewrite Hnone. exact I.
      * apply orb_false_iff in Hn. destruct Hn as (Hn & _).
        apply orb_false_iff in Hn. destruct Hn as (Ha & _).
        apply negb_false_iff in Ha. rewrite Hf in Ha.
        unfold drivenAsOneStream in *. cbn.
        destruct (Dedup.audioStreamer (pcm s)); [|exact I].
        destruct Hd as (accepted & rate & history & H1 & H2 & H3).
        exists accepted, rate, history. repeat split; auto.
    + unfold finalizePCMStream, tell, drivenAsOneStream in *. cbn.
      destruct (Dedup.audioStreamer (pcm s)) as [st|] eqn:Est; cbn;
        rewrite ?Est; [|exact I].
      apply (driven_snoc st (now, Streamer.EvComplete)
               (Dedup.currentStreamMetadata (pcm s)) false Hd);
        [reflexivity|discriminate].
  - unfold handleBinary.
    destruct (Dedup.currentStreamMetadata (pcm s)) eqn:Hm; [|exact Hd].
    unfold drivenAsOneStream, withPcm, Dedup.processPCMChunk in *. cbn [pcm].
    destruct (Dedup.set_has _ _); [exact Hd|].
    destruct (Dedup.audioStreamer (pcm s)) as [st|] eqn:Est;
      cbn [Dedup.audioStreamer Dedup.currentStreamMetadata]; [|exact I].
    rewrite ?Hm in *. cbn [orb].
    apply (driven_snoc st (now, Streamer.EvAdd data) true true Hd);
      [reflexivity|auto].
  - unfold handleBinary.
    destruct (Dedup.currentStreamMetadata (pcm s)) eqn:Hm; [|exact Hd].
    unfold drivenAsOneStream, withPcm, Dedup.processPCMChunk in *. cbn [pcm].
    destruct (Dedup.set_has _ _); [exact Hd|].
    destruct (Dedup.audioStreamer (pcm s)) as [st|] eqn:Est;
      cbn [Dedup.audioStreamer Dedup.currentStreamMetadata]; [|exact I].
    rewrite ?Hm in *. cbn [orb].
    apply (driven_snoc st (now, Streamer.EvAdd data) true true Hd);
      [reflexivity|auto].
  - destruct (nth_error (pendingInits s) k) as [rate|]; [|exact Hd].
    unfold initSettled. destruct failure as [text|]; [exact Hd|].
    unfold drivenAsOneStream. cbn.
    exists accepted, (rateOr24000 rate), [(now, Streamer.EvSetVolume volume)].
    repeat split; reflexivity.
  - destruct (Hstop s) as (_ & Hnone).
    unfold drivenAsOneStream. cbn [pcm Dedup.audioStreamer].
    rewrite Hnone. exact I.
  - destruct (Hstop s) as (_ & Hnone). unfold resetStream, dropMetadata.
    unfold drivenAsOneStream. cbn [pcm Dedup.audioStreamer].
    rewrite Hnone. exact I.
  - destruct (Hstop s) as (_ & Hnone). unfold resetStream, dropMetadata.
    destruct failure; unfold drivenAsOneStream; cbn [pcm Dedup.audioStreamer];
      rewrite Hnone; exact I.
  - unfold drivenAsOneStream in *.
    destruct (Dedup.audioStreamer (pcm s)) as [st|] eqn:Est;
      [|rewrite Est; exact I].
    destruct (fromOutside ev) eqn:Ho; [|rewrite Est; exact Hd].
    unfold withPcm. cbn.
    apply (driven_snoc st (now, ev) (Dedup.currentStreamMetadata (pcm s))
             (Dedup.currentStreamMetadata (pcm s)) Hd); [|auto].
    cbn [snd]. destruct ev; try exact I; discriminate.
Qed.

Lemma run_driven (trace : list (Q * Event)) (s : State) :
  consistent s -> drivenAsOneStream s -> drivenAsOneStream (run s trace).
Proof.
  revert s. induction trace as [|e trace IH]; intros s Hs Hd; [exact Hd|].
  apply IH; [apply step_consistent; exact Hs|apply step_driven; assumption].
Qed.

(** X20.  In every run of the message handler the two stream flags agree:
    [isStreamingActive] is true exactly when stream metadata is stored. *)
Theorem stream_flags_agree (trace : list (Q * Event)) :
  let s := run init trace in
  Dedup.isStreamingActive (pcm s) = Dedup.currentStreamMetadata (pcm s).
Proof. exact (proj1 (run_consistent trace init init_consistent)). Qed.

(** X21.  In every run of the message handler the duplicate cache holds at
    most 100 fingerprints, each once and none empty, whatever arrives
    and however often the connection is reset. *)
Theorem cache_never_exceeds_100 (trace : list (Q * Event)) :
  Dedup.wellFormedCache (Dedup.processedChunks (pcm (run init trace))).
Proof. exact (proj1 (proj2 (run_consistent trace init init_consistent))). Qed.

(** X19.  Whenever metadata is stored and a streamer exists, the streamer
    was built for the sample rate the metadata announces, or for
    24000 Hz when it announces none (or zero): chunks are never played
    at another rate than the announced one. *)
Theorem streamer_has_announced_rate (trace : list (Q * Event))
    (streamer : Streamer.State) :
  let s := run init trace in
  Dedup.currentStreamMetadata (pcm s) = true ->
  Dedup.audioStreamer (pcm s) = Some streamer ->
  Streamer.sampleRate streamer == rateOr24000 (metadataSampleRate s).
Proof.
  intros s Hm Hst.
  destruct (run_consistent trace init init_consistent) as (_ & _ & Hr).
  unfold announcedRate in Hr. fold s in Hr. rewrite Hst in Hr.
  exact (Hr Hm).
Qed.

Lemma streamer_has_announced_rate_witness :
  let trace :=
    [(0, EvText (Parsed_ok (mkMessage Msg_audio_chunk None None (Some 16000))) 0%Z);
     (0, EvInitSettled 0 None 1 true)] in
  Streamer.sampleRate
    (Streamer.setVolume 1 (Streamer.newStreamer true 16000)) ==
  rateOr24000 (metadataSampleRate (run init trace)).
Proof.
  intro trace.
  exact (streamer_has_announced_rate trace _ eq_refl eq_refl).
Defined.

(** X18.  The handler drives every streamer through the life of one stream.
    In every run, the current streamer is what a new streamer becomes
    under a history of calls and events in which no chunk follows
    [complete()] and neither [stop()] nor [resume()] occurs: a streamer
    that was completed or stopped never gets another chunk, the next
    stream gets a new one. *)
Theorem streamer_lives_one_stream (trace : list (Q * Event)) :
  match Dedup.audioStreamer (pcm (run init trace)) with
  | Some streamer =>
      exists accepted rate history,
        streamer = Streamer.run (Streamer.newStreamer accepted rate) history /\
        Streamer.oneStream false history = true
  | None => True
  end.
Proof.
  pose proof (run_driven trace init init_consistent I) as H.
  unfold drivenAsOneStream in H.
  destruct (Dedup.audioStreamer (pcm (run init trace))); [|exact I].
  destruct H as (accepted & rate & history & H1 & H2 & _).
  exists accepted, rate, history. auto.
Qed.

(** X22.  A chunk that arrives while metadata is stored but the streamer is
    still being created is lost for good: it is not forwarded, and when
    the same bytes arrive again after the streamer exists they are
    dropped as a duplicate. *)
Theorem chunk_lost_while_streamer_is_created (trace : list (Q * Event))
    (t1 t2 t3 : Q) (data : list byte) (k : nat) (volume : Q)
    (accepted : bool) :
  let s := run init trace in
  Dedup.currentStreamMetadata (pcm s) = true ->
  Dedup.audioStreamer (pcm s) = None ->
  let s' := run s [(t1, EvBinary data); (t2, EvInitSettled k None volume accepted);
                   (t3, EvBinary data)] in
  Dedup.forwarded (pcm s') = Dedup.forwarded (pcm s).
Proof.
  intros s Hm Hst s'.
  pose proof (cache_wf trace) as Hc. fold s in Hc.
  assert (H1 : Dedup.forwarded (pcm (step s (t1, EvBinary data))) =
               Dedup.forwarded (pcm s) /\
               Dedup.set_has (Dedup.fingerprint data)
                 (Dedup.processedChunks (pcm (step s (t1, EvBinary data))))
               = true /\
               Dedup.currentStreamMetadata (pcm (step s (t1, EvBinary data)))
               = true).
  { unfold step, handleBinary. cbn [fst snd]. rewrite Hm.
    unfold withPcm. cbn [pcm].
    destruct (Dedup.set_has (Dedup.fingerprint data)
                (Dedup.processedChunks (pcm s))) eqn:Hd.
    - rewrite (DedupFacts.processPCMChunk_duplicate _ _ _ _ Hd). auto.
    - destruct (DedupFacts.processPCMChunk_new t1 data true (pcm s) Hc Hd)
        as (Hk & _ & Hf).
      cbv zeta in Hk, Hf. rewrite Hst in Hf. destruct Hf as (Hf & Hn).
      split; [exact Hf|]. split.
      + rewrite Hk. unfold Dedup.set_has. rewrite existsb_app. cbn.
        rewrite String.eqb_refl. apply orb_true_r.
      + unfold Dedup.processPCMChunk. rewrite Hd, Hst. cbn. exact Hm. }
  destruct H1 as (Hf1 & Hin & Hm1).
  set (s1 := step s (t1, EvBinary data)) in *.
  assert (H2 : Dedup.forwarded (pcm (step s1 (t2, EvInitSettled k None volume accepted)))
               = Dedup.forwarded (pcm s1) /\
               Dedup.processedChunks
                 (pcm (step s1 (t2, EvInitSettled k None volume accepted)))
               = Dedup.processedChunks (pcm s1)).
  { unfold step. cbn [fst snd].
    destruct (nth_error (pendingInits s1) k); [|auto].
    unfold initSettled. cbn. auto. }
  destruct H2 as (Hf2 & Hc2).
  set (s2 := step s1 (t2, EvInitSettled k None volume accepted)) in *.
  unfold s'. change (run s _) with (step s2 (t3, EvBinary data)).
  unfold step, handleBinary. cbn [fst snd].
  destruct (Dedup.currentStreamMetadata (pcm s2)); [|congruence].
  rewrite <- Hc2 in Hin.
  rewrite (DedupFacts.processPCMChunk_duplicate _ _ _ _ Hin).
  unfold withPcm. cbn [pcm]. congruence.
Qed.

Lemma chunk_lost_while_streamer_is_created_witness :
  let trace :=
    [(0, EvText (Parsed_ok (mkMessage Msg_audio_chunk None None (Some 16000))) 0%Z);
     (0, EvInitSettled 0 None 1 true);
     (1, EvText (Parsed_ok (mkMessage Msg_audio_chunk None None (Some 24000))) 0%Z)] in
  Dedup.forwarded
    (pcm (run (run init trace)
            [(2, EvBinary [x01; x02]); (3, EvInitSettled 0 None 1 true);
             (4, EvBinary [x01; x02])])) =
  Dedup.forwarded (pcm (run init trace)).
Proof.
  intro trace.
  exact (chunk_lost_while_streamer_is_created trace 2 3 4 [x01; x02] 0%nat 1
           true eq_refl eq_refl).
Defined.

End SocketFacts.

Module VADRunsFacts.
Import VAD VADRuns.
Open Scope Z_scope.

Lemma voiceEvents_app (l1 l2 : list Emitted) :
  voiceEvents (l1 ++ l2) = voiceEvents l1 ++ voiceEvents l2.
Proof. unfold voiceEvents. apply filter_app. Qed.

Lemma alternates_app (b : bool) (l1 l2 : list Emitted) :
  alternates b (l1 ++ l2) =
  match alternates b l1 with
  | Some b' => alternates b' l2
  | None => None
  end.
Proof.
  revert b. induction l1 as [|[| |v] l1 IH]; intro b; cbn; auto;
    destruct b; auto.
Qed.

(** What a round above the threshold does. *)
Lemma loud_round (s : State) (e : Z * Event) :
  analyser s = true -> loud (vadConfig s) e ->
  let s' := step s e in
  analyser s' = true /\ vadConfig s' = vadConfig s /\
  onVoiceStart s' = onVoiceStart s /\ onVoiceEnd s' = onVoiceEnd s /\
  isSpeaking s' = isSpeaking s /\ silenceTimer s' = None /\
  voiceTimer s' =
    (if isSpeaking s then voiceTimer s
     else Some match voiceTimer s with
               | Some due => due
               | None => fst e + voiceTimeout (vadConfig s)
               end) /\
  voiceEvents (emitted s') = voiceEvents (emitted s).
Proof.
  intros Ha Hl. destruct e as [now ev]. unfold loud in Hl. cbn [snd] in Hl.
  destruct ev as [suspended data| |]; try contradiction.
  destruct suspended; [contradiction|].
  unfold step, analyzeVolume. cbn [fst snd]. rewrite Ha. cbn [negb].
  destruct (onVolumeChange s) eqn:Hv;
    cbn -[averageVolume Qltb Z.add voiceEvents];
    rewrite (proj2 (Qltb_true _ _) Hl);
    unfold handleVoiceActivity; cbn -[averageVolume Qltb Z.add voiceEvents];
    destruct (isSpeaking s); destruct (voiceTimer s);
    cbn -[averageVolume Qltb Z.add voiceEvents];
    rewrite ?voiceEvents_app, ?app_nil_r; auto 10.
Qed.

(** What a round at or below the threshold does. *)
Lemma faint_round (s : State) (e : Z * Event) :
  analyser s = true -> faint (vadConfig s) e ->
  let s' := step s e in
  analyser s' = true /\ vadConfig s' = vadConfig s /\
  onVoiceStart s' = onVoiceStart s /\ onVoiceEnd s' = onVoiceEnd s /\
  isSpeaking s' = isSpeaking s /\ voiceTimer s' = None /\
  silenceTimer s' =
    (if isSpeaking s
     then Some match silenceTimer s with
               | Some due => due
               | None => fst e + silenceTimeout (vadConfig s)
               end
     else silenceTimer s) /\
  voiceEvents (emitted s') = voiceEvents (emitted s).
Proof.
  intros Ha Hf. destruct e as [now ev]. unfold faint in Hf. cbn [snd] in Hf.
  destruct ev as [suspended data| |]; try contradiction.
  destruct suspended; [contradiction|].
  unfold step, analyzeVolume. cbn [fst snd]. rewrite Ha. cbn [negb].
  destruct (onVolumeChange s) eqn:Hv;
    cbn -[averageVolume Qltb Z.add voiceEvents];
    rewrite (proj2 (Qltb_false _ _) Hf);
    unfold handleSilence; cbn -[averageVolume Qltb Z.add voiceEvents];
    destruct (isSpeaking s); destruct (silenceTimer s);
    cbn -[averageVolume Qltb Z.add voiceEvents];
    rewrite ?voiceEvents_app, ?app_nil_r; auto 10.
Qed.

(** Every analysis round that gets as far as the volume is one or the
    other. *)
Lemma round_cases (s : State) (now : Z) (suspended : bool) (data : list byte) :
  step s (now, EvAnalyze suspended data) = s \/
  analyser s = true /\
  (loud (vadConfig s) (now, EvAnalyze suspended data) \/
   faint (vadConfig s) (now, EvAnalyze suspended data)).
Proof.
  unfold step, analyzeVolume, loud, faint. cbn [fst snd].
  destruct (analyser s); [|left; reflexivity].
  destruct suspended; [left; reflexivity|]. right. split; [reflexivity|].
  destruct (Qlt_le_dec (volumeThreshold (vadConfig s)) (averageVolume data));
    auto.
Qed.

(** Faint rounds while speaking. *)
Lemma faint_run_speaking (rounds : list (Z * Event)) :
  forall s : State,
    analyser s = true -> isSpeaking s = true ->
    Forall (faint (vadConfig s)) rounds ->
    let s' := run s rounds in
    analyser s' = true /\ isSpeaking s' = true /\
    vadConfig s' = vadConfig s /\ onVoiceEnd s' = onVoiceEnd s /\
    voiceEvents (emitted s') = voiceEvents (emitted s) /\
    silenceTimer s' =
      match silenceTimer s, rounds with
      | Some due, _ => Some due
      | None, e :: _ => Some (fst e + silenceTimeout (vadConfig s))
      | None, [] => None
      end.
Proof.
  induction rounds as [|e rest IH]; intros s Ha Hs Hl.
  - cbn. destruct (silenceTimer s); auto 10.
  - inversion Hl as [|? ? He Hrest]; subst.
    destruct (faint_round s e Ha He) as (A1 & A2 & _ & A4 & A5 & _ & A7 & A8).
    cbv zeta in *. rewrite Hs in A5, A7. rewrite <- A2 in Hrest.
    destruct (IH (step s e) A1 A5 Hrest) as (B1 & B2 & B3 & B4 & B5 & B6).
    change (run s (e :: rest)) with (run (step s e) rest).
    cbv zeta in *. rewrite A7 in B6.
    repeat split; try congruence.
    rewrite B6. destruct (silenceTimer s); reflexivity.
Qed.

(** Faint rounds while not speaking and with no silence deadline. *)
Lemma faint_run_silent (rounds : list (Z * Event)) :
  forall s : State,
    analyser s = true -> isSpeaking s = false -> silenceTimer s = None ->
    Forall (faint (vadConfig s)) rounds ->
    let s' := run s rounds in
    isSpeaking s' = false /\ silenceTimer s' = None /\
    voiceEvents (emitted s') = voiceEvents (emitted s).
Proof.
  induction rounds as [|e rest IH]; intros s Ha Hs Ht Hl.
  - cbn. auto.
  - inversion Hl as [|? ? He Hrest]; subst.
    destruct (faint_round s e Ha He) as (A1 & A2 & _ & _ & A5 & _ & A7 & A8).
    cbv zeta in *. rewrite Hs in A5, A7. rewrite <- A2 in Hrest.
    rewrite Ht in A7.
    destruct (IH (step s e) A1 A5 A7 Hrest) as (B1 & B2 & B3).
    change (run s (e :: rest)) with (run (step s e) rest).
    cbv zeta in *. repeat split; congruence.
Qed.

(** X23.  The end of speech is debounced like its start.  A detector that
    is running and speaking is fed rounds at or below the threshold.
    The silence deadline is set by the first of them, [silenceTimeout]
    after it (an earlier pending deadline is kept), and is not moved by
    the later ones; it can fire no earlier than that.  When it fires,
    [onVoiceEnd] is called once, the detector stops speaking, and
    further faint rounds call nothing.  When instead a round above the
    threshold arrives first, the deadline is cancelled: it cannot fire
    any more, the detector goes on speaking and [onVoiceEnd] is not
    called. *)
Theorem voice_end_debounced (s : State) (first : Z * Event)
    (more after : list (Z * Event)) (t : Z) (noisy : Z * Event) :
  analyser s = true -> isSpeaking s = true -> onVoiceEnd s = true ->
  Forall (faint (vadConfig s)) (first :: more) ->
  Forall (faint (vadConfig s)) after ->
  loud (vadConfig s) noisy ->
  let due := match silenceTimer s with
             | Some pending => pending
             | None => fst first + silenceTimeout (vadConfig s)
             end in
  let held := run s (first :: more) in
  let over := run held ((t, EvSilenceTimer) :: after) in
  let resumed := run held [noisy] in
  (silenceTimer held = Some due /\ isSpeaking held = true /\
   voiceEvents (emitted held) = voiceEvents (emitted s) /\
   deliverable held (t, EvSilenceTimer) = (due <=? t)) /\
  (isSpeaking over = false /\ silenceTimer over = None /\
   voiceEvents (emitted over) = voiceEvents (emitted s) ++ [VoiceEnd]) /\
  (silenceTimer resumed = None /\ isSpeaking resumed = true /\
   voiceEvents (emitted resumed) = voiceEvents (emitted s) /\
   deliverable resumed (t, EvSilenceTimer) = false /\
   step resumed (t, EvSilenceTimer) = resumed).
Proof.
  intros Ha Hs Hcb Hfaint Hafter Hloud. cbv zeta.
  destruct (faint_run_speaking (first :: more) s Ha Hs Hfaint)
    as (L1 & L2 & L3 & L4 & L5 & L6).
  cbv zeta in *.
  assert (Hdue : silenceTimer (run s (first :: more)) =
                 Some match silenceTimer s with
                      | Some pending => pending
                      | None => fst first + silenceTimeout (vadConfig s)
                      end)
    by (rewrite L6; destruct (silenceTimer s); reflexivity).
  split; [|split].
  - split; [exact Hdue|]. split; [exact L2|]. split; [exact L5|].
    unfold deliverable. cbn [snd fst]. rewrite Hdue. reflexivity.
  - change (run (run s (first :: more)) ((t, EvSilenceTimer) :: after))
      with (run (step (run s (first :: more)) (t, EvSilenceTimer)) after).
    set (held := run s (first :: more)) in *. clearbody held.
    assert (Hfire : analyser (step held (t, EvSilenceTimer)) = true /\
                    isSpeaking (step held (t, EvSilenceTimer)) = false /\
                    silenceTimer (step held (t, EvSilenceTimer)) = None /\
                    vadConfig (step held (t, EvSilenceTimer)) = vadConfig s /\
                    voiceEvents (emitted (step held (t, EvSilenceTimer))) =
                      voiceEvents (emitted s) ++ [VoiceEnd]).
    { unfold step. cbn [snd]. rewrite Hdue. unfold silenceTimerFired.
      rewrite L2. cbn [onVoiceEnd withSpeaking]. rewrite L4, Hcb.
      cbn -[voiceEvents]. rewrite voiceEvents_app, L5. cbn.
      repeat split; auto. }
    destruct Hfire as (F1 & F2 & F3 & F4 & F5).
    rewrite <- F4 in Hafter.
    destruct (faint_run_silent after _ F1 F2 F3 Hafter) as (R1 & R2 & R3).
    cbv zeta in *. repeat split; congruence.
  - change (run (run s (first :: more)) [noisy])
      with (step (run s (first :: more)) noisy).
    rewrite <- L3 in Hloud.
    destruct (loud_round _ noisy L1 Hloud)
      as (_ & _ & _ & _ & D5 & D6 & _ & D8).
    cbv zeta in *.
    set (resumed := step (run s (first :: more)) noisy) in *. clearbody resumed.
    split; [exact D6|]. split; [congruence|]. split; [congruence|].
    unfold deliverable, step. cbn [snd]. rewrite D6. auto.
Qed.

Lemma voice_end_debounced_witness :
  let s := forceSpeaking true
             (setCallbacks true true false (startVAD (init defaultConfig))) in
  isSpeaking
    (run (run s [(0, EvAnalyze false [x00; x00]); (100, EvAnalyze false [x00; x00])])
         [(1500, EvSilenceTimer); (1600, EvAnalyze false [x00; x00])]) = false /\
  silenceTimer
    (run (run s [(0, EvAnalyze false [x00; x00]); (100, EvAnalyze false [x00; x00])])
         [(150, EvAnalyze false [xff; xff])]) = None.
Proof.
  intro s.
  destruct (voice_end_debounced s
              (0, EvAnalyze false [x00; x00])
              [(100, EvAnalyze false [x00; x00])]
              [(1600, EvAnalyze false [x00; x00])]
              1500
              (150, EvAnalyze false [xff; xff]))
    as (_ & (Hc & _) & (Hd & _)).
  - reflexivity.
  - reflexivity.
  - reflexivity.
  - constructor; [vm_compute; discriminate|].
    constructor; [vm_compute; discriminate|constructor].
  - constructor; [vm_compute; discriminate|constructor].
  - vm_compute. reflexivity.
  - split; [exact Hc | exact Hd].
Defined.

(** One step keeps the two callbacks, extends the log, and changes
    [isSpeaking] only together with the matching call. *)
Lemma step_alternates (s : State) (e : Z * Event) :
  onVoiceStart s = true -> onVoiceEnd s = true ->
  let s' := step s e in
  onVoiceStart s' = true /\ onVoiceEnd s' = true /\
  exists new, emitted s' = emitted s ++ new /\
              alternates (isSpeaking s) new = Some (isSpeaking s').
Proof.
  intros H1 H2. destruct e as [now [suspended data| |]]; cbv zeta.
  - unfold step, analyzeVolume. cbn [fst snd].
    destruct (analyser s);
      [|cbn; repeat split; auto; exists []; rewrite app_nil_r; auto].
    destruct suspended;
      [cbn; repeat split; auto; exists []; rewrite app_nil_r; auto|].
    cbn [negb].
    destruct (onVolumeChange s);
      cbn -[averageVolume Qltb Z.add];
      destruct (Qltb _ _);
      unfold handleVoiceActivity, handleSilence;
      cbn -[averageVolume Qltb Z.add];
      destruct (isSpeaking s); destruct (voiceTimer s);
      destruct (silenceTimer s); cbn -[averageVolume Qltb Z.add];
      repeat split; auto;
      first [ exists []; rewrite app_nil_r; split; reflexivity
            | eexists; split; reflexivity ].
  - unfold step. cbn [snd].
    destruct (voiceTimer s);
      [|repeat split; auto; exists []; rewrite app_nil_r; auto].
    unfold voiceTimerFired.
    destruct (isSpeaking s) eqn:Hs; cbn; rewrite ?H1; cbn; rewrite ?Hs;
      repeat split; auto;
      first [ exists []; rewrite app_nil_r; split; reflexivity
            | eexists; split; reflexivity ].
  - unfold step. cbn [snd].
    destruct (silenceTimer s);
      [|repeat split; auto; exists []; rewrite app_nil_r; auto].
    unfold silenceTimerFired.
    destruct (isSpeaking s) eqn:Hs; cbn; rewrite ?H2; cbn; rewrite ?Hs;
      repeat split; auto;
      first [ exists []; rewrite app_nil_r; split; reflexivity
            | eexists; split; reflexivity ].
Qed.

Lemma run_alternates (trace : list (Z * Event)) :
  forall (s : State) (b : bool),
    onVoiceStart s = true -> onVoiceEnd s = true ->
    alternates b (emitted s) = Some (isSpeaking s) ->
    alternates b (emitted (run s trace)) = Some (isSpeaking (run s trace)).
Proof.
  induction trace as [|e trace IH]; intros s b H1 H2 Hs; [exact Hs|].
  change (run s (e :: trace)) with (run (step s e) trace).
  destruct (step_alternates s e H1 H2) as (H1' & H2' & new & Hn & Ha).
  cbv zeta in *. apply IH; auto.
  rewrite Hn, alternates_app, Hs. exact Ha.
Qed.

(** X24.  With both voice callbacks registered, the calls of a running
    detector take turns whatever the microphone delivers and whenever
    the timers fire: [onVoiceStart] comes first, no callback is called
    twice in a row, and [isSpeaking] is true exactly when the last call
    was [onVoiceStart]. *)
Theorem voice_calls_alternate (config : VADConfig) (volumeChange : bool)
    (trace : list (Z * Event)) :
  let s := run (setCallbacks true true volumeChange (startVAD (init config)))
               trace in
  alternates false (emitted s) = Some (isSpeaking s).
Proof.
  cbv zeta. apply run_alternates; reflexivity.
Qed.

(** A voice deadline is pending only while not speaking, a silence
    deadline only while speaking. *)
Lemma step_phase (s : State) (e : Z * Event) :
  (if isSpeaking s then voiceTimer s = None else silenceTimer s = None) ->
  if isSpeaking (step s e) then voiceTimer (step s e) = None
  else silenceTimer (step s e) = None.
Proof.
  intro H. destruct e as [now [suspended data| |]].
  - destruct (round_cases s now suspended data)
      as [->|(Ha & [Hl|Hf])]; [exact H| |].
    + destruct (loud_round s _ Ha Hl) as (_ & _ & _ & _ & A5 & A6 & A7 & _).
      cbv zeta in *. rewrite A5. destruct (isSpeaking s); congruence.
    + destruct (faint_round s _ Ha Hf) as (_ & _ & _ & _ & A5 & A6 & A7 & _).
      cbv zeta in *. rewrite A5. destruct (isSpeaking s); congruence.
  - unfold step. cbn [snd].
    destruct (voiceTimer s) eqn:Ht; [|destruct (isSpeaking s); assumption].
    unfold voiceTimerFired.
    destruct (isSpeaking s) eqn:Hs; [discriminate|].
    destruct (onVoiceStart s) eqn:Hc; cbn; rewrite ?Hc; reflexivity.
  - unfold step. cbn [snd].
    destruct (silenceTimer s) eqn:Ht; [|destruct (isSpeaking s); assumption].
    unfold silenceTimerFired.
    destruct (isSpeaking s) eqn:Hs; [|discriminate].
    destruct (onVoiceEnd s) eqn:Hc; cbn; rewrite ?Hc; reflexivity.
Qed.

(** X25.  In every run of a started detector a voice deadline is pending
    only while it is not speaking and a silence deadline only while it
    is speaking; the two timers are never pending together. *)
Theorem timers_follow_phase (config : VADConfig)
    (voiceStart voiceEnd volumeChange : bool) (trace : list (Z * Event)) :
  let s := run (setCallbacks voiceStart voiceEnd volumeChange
                  (startVAD (init config))) trace in
  (if isSpeaking s then voiceTimer s = None else silenceTimer s = None) /\
  (voiceTimer s = None \/ silenceTimer s = None).
Proof.
  cbv zeta.
  assert (H : forall tr s,
             (if isSpeaking s then voiceTimer s = None
              else silenceTimer s = None) ->
             if isSpeaking (run s tr) then voiceTimer (run s tr) = None
             else silenceTimer (run s tr) = None).
  { induction tr as [|e tr IH]; intros s Hs; [exact Hs|].
    apply IH. apply step_phase. exact Hs. }
  match goal with |- context [run ?s0 trace] =>
    pose proof (H trace s0 eq_refl) as Hp end.
  split; [exact Hp|].
  destruct (isSpeaking _); auto.
Qed.

End VADRunsFacts.

Module VolumeWorkletFacts.
Import VolumeWorklet.

Section Facts.

Variable sqrt : Q -> Q.

Lemma takeTurns_app (b : bool) (l1 l2 : list Called) :
  takeTurns b (l1 ++ l2) =
  match takeTurns b l1 with
  | Some b' => takeTurns b' l2
  | None => None
  end.
Proof.
  revert b. induction l1 as [|[v| |] l1 IH]; intro b; cbn; auto;
    destruct b; auto.
Qed.

Lemma deliver_app (s : State) (m1 m2 : list Message) :
  deliver s (m1 ++ m2) = deliver (deliver s m1) m2.
Proof. apply fold_left_app. Qed.

(** One call of [process] posts messages that, once handled, leave the
    main thread with the flag of the processor and calls that take
    turns. *)
Lemma process_turns (q : Quantum) (p : Processor) (s : State) :
  st_onVoiceStart s = true -> st_onVoiceEnd s = true ->
  st_isSpeaking s = isSpeaking p ->
  let p' := process sqrt (q_input q) (q_stamp q) (q_currentTime q) p in
  exists new,
    posted p' = posted p ++ new /\
    let s' := deliver s new in
    st_onVoiceStart s' = true /\ st_onVoiceEnd s' = true /\
    st_isSpeaking s' = isSpeaking p' /\
    exists calls, st_called s' = st_called s ++ calls /\
                  takeTurns (st_isSpeaking s) calls = Some (st_isSpeaking s').
Proof.
  intros H1 H2 Hs. cbv zeta. unfold process.
  destruct (q_input q) as [[|samples rest]|];
    try (exists []; rewrite app_nil_r; cbn; repeat split; auto;
         exists []; rewrite app_nil_r; auto).
  cbv zeta. cbn [volumeThreshold isSpeaking voiceStart silenceStart post
                 silenceTimeout voiceTimeout posted lastVoiceTime].
  destruct (above (volumeThreshold p) (volumeOf sqrt samples)).
  - destruct (isSpeaking p) eqn:Hp;
      [|destruct (voiceStart p =? 0)%Z;
        [|destruct (Qle_bool (voiceTimeout p) _)]];
      cbn [volumeThreshold isSpeaking voiceStart silenceStart
           silenceTimeout voiceTimeout posted lastVoiceTime];
      rewrite <- ?app_assoc;
      eexists; (split; [reflexivity|]);
      cbn [deliver fold_left handleWorkletMessage app];
      destruct (st_onVolumeChange s) eqn:Hv; cbn; rewrite ?H1, ?Hv; cbn;
      rewrite ?Hs; repeat split; auto;
      first [ exists []; rewrite app_nil_r; split; reflexivity
            | eexists; rewrite <- ?app_assoc; split; reflexivity ].
  - destruct (isSpeaking p) eqn:Hp;
      [destruct (silenceStart p =? 0)%Z;
        [|destruct (Qle_bool (silenceTimeout p) _)]|];
      cbn [volumeThreshold isSpeaking voiceStart silenceStart
           silenceTimeout voiceTimeout posted lastVoiceTime];
      rewrite <- ?app_assoc;
      eexists; (split; [reflexivity|]);
      cbn [deliver fold_left handleWorkletMessage app];
      destruct (st_onVolumeChange s) eqn:Hv; cbn; rewrite ?H2, ?Hv; cbn;
      rewrite ?Hs; repeat split; auto;
      first [ exists []; rewrite app_nil_r; split; reflexivity
            | eexists; rewrite <- ?app_assoc; split; reflexivity ].
Qed.

Lemma render_turns (quanta : list Quantum) :
  forall (p : Processor) (s : State),
    st_onVoiceStart s = true -> st_onVoiceEnd s = true ->
    st_isSpeaking s = isSpeaking p ->
    let p' := render sqrt p quanta in
    exists new,
      posted p' = posted p ++ new /\
      let s' := deliver s new in
      st_isSpeaking s' = isSpeaking p' /\
      exists calls, st_called s' = st_called s ++ calls /\
                    takeTurns (st_isSpeaking s) calls = Some (st_isSpeaking s').
Proof.
  induction quanta as [|q quanta IH]; intros p s H1 H2 Hs; cbv zeta.
  - exists []. rewrite app_nil_r. cbn. repeat split; auto.
    exists []. rewrite app_nil_r. auto.
  - destruct (process_turns q p s H1 H2 Hs)
      as (new1 & Hp1 & H1' & H2' & Hs' & calls1 & Hc1 & Ht1).
    cbv zeta in *.
    destruct (IH _ _ H1' H2' Hs') as (new2 & Hp2 & Hs2 & calls2 & Hc2 & Ht2).
    cbv zeta in *.
    exists (new1 ++ new2).
    change (render sqrt p (q :: quanta))
      with (render sqrt (process sqrt (q_input q) (q_stamp q)
                           (q_currentTime q) p) quanta).
    rewrite Hp2, Hp1, <- app_assoc. split; [reflexivity|].
    rewrite deliver_app. split; [exact Hs2|].
    exists (calls1 ++ calls2). rewrite Hc2, Hc1, <- app_assoc.
    split; [reflexivity|].
    rewrite takeTurns_app, Ht1. exact Ht2.
Qed.

Lemma process_loud (q : Quantum) (p : Processor) :
  loudCall sqrt p q ->
  let p' := process sqrt (q_input q) (q_stamp q) (q_currentTime q) p in
  volumeThreshold p' = volumeThreshold p /\
  voiceTimeout p' = voiceTimeout p /\
  exists v,
    if isSpeaking p then
      isSpeaking p' = true /\ voiceStart p' = voiceStart p /\
      posted p' = posted p ++ [MsgVolume v (q_stamp q)]
    else if (voiceStart p =? 0)%Z then
      isSpeaking p' = false /\ voiceStart p' = q_currentTime q /\
      posted p' = posted p ++ [MsgVolume v (q_stamp q)]
    else if Qle_bool (voiceTimeout p)
              (inject_Z (q_currentTime q - voiceStart p)) then
      isSpeaking p' = true /\ voiceStart p' = 0%Z /\
      posted p' = posted p ++ [MsgVolume v (q_stamp q);
                               MsgVoiceStart (q_currentTime q)]
    else
      isSpeaking p' = false /\ voiceStart p' = voiceStart p /\
      posted p' = posted p ++ [MsgVolume v (q_stamp q)].
Proof.
  intros (samples & rest & Hi & Ha). cbv zeta. unfold process. rewrite Hi.
  cbv zeta. cbn [volumeThreshold isSpeaking voiceStart silenceStart post
                 silenceTimeout voiceTimeout posted lastVoiceTime].
  rewrite Ha.
  destruct (isSpeaking p) eqn:Hp;
    [|destruct (voiceStart p =? 0)%Z;
      [|destruct (Qle_bool (voiceTimeout p) _)]];
    cbn [volumeThreshold isSpeaking voiceStart silenceStart
         silenceTimeout voiceTimeout posted lastVoiceTime];
    rewrite <- ?app_assoc; repeat split; auto; eexists; repeat split; eauto.
Qed.

Lemma process_faint (q : Quantum) (p : Processor) :
  faintCall sqrt p q -> isSpeaking p = false ->
  let p' := process sqrt (q_input q) (q_stamp q) (q_currentTime q) p in
  isSpeaking p' = false /\ voiceStart p' = 0%Z /\
  exists v, posted p' = posted p ++ [MsgVolume v (q_stamp q)].
Proof.
  intros (samples & rest & Hi & Ha) Hp. cbv zeta. unfold process. rewrite Hi.
  cbv zeta. cbn [volumeThreshold isSpeaking voiceStart silenceStart post
                 silenceTimeout voiceTimeout posted lastVoiceTime].
  rewrite Ha, Hp. cbn. repeat split; auto. eexists. reflexivity.
Qed.

(** Loud calls that all come early leave the count running. *)
Lemma render_early (more : list Quantum) :
  forall (p : Processor) (since : Z),
    isSpeaking p = false -> voiceStart p = since -> since <> 0%Z ->
    Forall (early sqrt p since) more ->
    let p' := render sqrt p more in
    volumeThreshold p' = volumeThreshold p /\
    voiceTimeout p' = voiceTimeout p /\
    isSpeaking p' = false /\ voiceStart p' = since /\
    exists volumes, posted p' = posted p ++ volumes /\
                    forallb isVolume volumes = true.
Proof.
  induction more as [|q more IH]; intros p since Hp Hv Hne Hall; cbv zeta.
  - cbn. repeat split; auto. exists []. rewrite app_nil_r. auto.
  - inversion Hall as [|? ? [Hl He] Hrest]; subst.
    destruct (process_loud q p Hl) as (A1 & A2 & v & A3).
    cbv zeta in *. rewrite Hp in A3.
    rewrite (proj2 (Z.eqb_neq _ _) Hne) in A3.
    assert (Hq : Qle_bool (voiceTimeout p)
                   (inject_Z (q_currentTime q - voiceStart p)) = false).
    { destruct (Qle_bool _ _) eqn:E; [|reflexivity].
      apply Qle_bool_iff in E. exfalso. exact (Qlt_not_le _ _ He E). }
    rewrite Hq in A3. destruct A3 as (A3 & A4 & A5).
    change (render sqrt p (q :: more))
      with (render sqrt (process sqrt (q_input q) (q_stamp q)
                           (q_currentTime q) p) more).
    set (p1 := process sqrt (q_input q) (q_stamp q) (q_currentTime q) p) in *.
    assert (Hrest' : Forall (early sqrt p1 (voiceStart p)) more).
    { eapply Forall_impl; [|exact Hrest].
      intros a [(x & r & Hi & Ha) Hb]. split.
      - exists x, r. rewrite A1. auto.
      - rewrite A2. exact Hb. }
    destruct (IH p1 (voiceStart p) A3 A4 Hne Hrest')
      as (B1 & B2 & B3 & B4 & volumes & B5 & B6).
    cbv zeta in *. repeat split; try congruence.
    exists (MsgVolume v (q_stamp q) :: volumes).
    rewrite B5, A5, <- app_assoc. split; [reflexivity|]. exact B6.
Qed.

End Facts.

(** X26.  Whatever the microphone delivers, once the main thread has
    handled the messages of the worklet in the order they were posted,
    its [onVoiceStart] and [onVoiceEnd] calls have taken turns
    ([onVoiceStart] first), and its [isSpeaking] equals that of the
    processor. *)
Theorem worklet_calls_take_turns (sqrt : Q -> Q) (options : ProcessorOptions)
    (volumeChange : bool) (quanta : list Quantum) :
  let p := render sqrt (newProcessor options) quanta in
  let s := deliver (listening true true volumeChange) (posted p) in
  takeTurns false (st_called s) = Some (st_isSpeaking s) /\
  st_isSpeaking s = isSpeaking p.
Proof.
  cbv zeta.
  destruct (render_turns sqrt quanta (newProcessor options)
              (listening true true volumeChange) eq_refl eq_refl eq_refl)
    as (new & Hp & Hs & calls & Hc & Ht).
  cbv zeta in *. cbn [posted newProcessor app] in Hp. rewrite Hp.
  cbn [st_called listening app] in Hc. rewrite Hc.
  split; [exact Ht|exact Hs].
Qed.

(** X27.  The worklet confirms voice only when it lasts.  From a
    processor that is not speaking and not counting, the first loud call
    only notes its time; loud calls that come less than [voiceTimeout]
    later change nothing and post nothing but the volume; the first
    loud call at least [voiceTimeout] after the noted time posts
    [voiceStart] and sets [isSpeaking].  A call that is not loud resets
    the count instead, and nothing is confirmed. *)
Theorem worklet_voice_start_debounced (sqrt : Q -> Q) (p : Processor)
    (first : Quantum) (more : list Quantum) (late silent : Quantum) :
  isSpeaking p = false -> voiceStart p = 0%Z -> q_currentTime first <> 0%Z ->
  loudCall sqrt p first ->
  Forall (early sqrt p (q_currentTime first)) more ->
  loudCall sqrt p late ->
  (voiceTimeout p <= inject_Z (q_currentTime late - q_currentTime first))%Q ->
  faintCall sqrt p silent ->
  let held := render sqrt p (first :: more) in
  let confirmed := render sqrt held [late] in
  let dropped := render sqrt held [silent] in
  (isSpeaking held = false /\ voiceStart held = q_currentTime first /\
   exists volumes, posted held = posted p ++ volumes /\
                   forallb isVolume volumes = true) /\
  (isSpeaking confirmed = true /\
   exists v, posted confirmed =
             posted held ++ [MsgVolume v (q_stamp late);
                             MsgVoiceStart (q_currentTime late)]) /\
  (isSpeaking dropped = false /\ voiceStart dropped = 0%Z /\
   exists v, posted dropped = posted held ++ [MsgVolume v (q_stamp silent)]).
Proof.
  intros Hp Hv Hne Hfirst Hmore Hlate Hdue Hsilent. cbv zeta.
  change (render sqrt p (first :: more))
    with (render sqrt (process sqrt (q_input first) (q_stamp first)
                         (q_currentTime first) p) more).
  destruct (process_loud sqrt first p Hfirst) as (A1 & A2 & v1 & A3).
  cbv zeta in *. rewrite Hp, Hv in A3. cbn in A3.
  destruct A3 as (A3 & A4 & A5).
  set (p1 := process sqrt (q_input first) (q_stamp first)
               (q_currentTime first) p) in *.
  assert (Hmore' : Forall (early sqrt p1 (q_currentTime first)) more).
  { eapply Forall_impl; [|exact Hmore].
    intros a [(x & r & Hi & Ha) Hb]. split.
    - exists x, r. rewrite A1. auto.
    - rewrite A2. exact Hb. }
  destruct (render_early sqrt more p1 (q_currentTime first) A3 A4 Hne Hmore')
    as (B1 & B2 & B3 & B4 & volumes & B5 & B6).
  cbv zeta in *.
  set (held := render sqrt p1 more) in *. clearbody held.
  split; [|split].
  - split; [exact B3|]. split; [exact B4|].
    exists (MsgVolume v1 (q_stamp first) :: volumes).
    rewrite B5, A5, <- app_assoc. split; [reflexivity|exact B6].
  - assert (Hl : loudCall sqrt held late).
    { destruct Hlate as (x & r & Hi & Ha). exists x, r.
      rewrite B1, A1. auto. }
    destruct (process_loud sqrt late held Hl) as (_ & _ & v & C3).
    cbv zeta in C3. rewrite B3, B4 in C3.
    rewrite (proj2 (Z.eqb_neq _ _) Hne) in C3.
    rewrite B2, A2 in C3.
    rewrite (proj2 (Qle_bool_iff _ _) Hdue) in C3.
    destruct C3 as (C3 & _ & C5).
    split; [exact C3|]. exists v. exact C5.
  - assert (Hf : faintCall sqrt held silent).
    { destruct Hsilent as (x & r & Hi & Ha). exists x, r.
      rewrite B1, A1. auto. }
    exact (process_faint sqrt silent held Hf B3).
Qed.

Lemma worklet_voice_start_debounced_witness :
  let sqrt := fun x : Q => x in
  let loudCall := fun t => mkQuantum (Some [[1%Q]]) t t in
  let p := newProcessor (mkOptions 0 0 0) in
  isSpeaking (render sqrt (render sqrt p [loudCall 1000%Z; loudCall 1100%Z])
                          [loudCall 1300%Z]) = true.
Proof.
  intros sqrt loudCall p.
  refine (proj1 (proj1 (proj2
    (worklet_voice_start_debounced sqrt p (loudCall 1000%Z) [loudCall 1100%Z]
       (loudCall 1300%Z) (mkQuantum (Some [[0%Q]]) 1400%Z 1400%Z)
       eq_refl eq_refl _ _ _ _ _ _)))).
  - discriminate.
  - exists [1%Q], []. split; reflexivity.
  - constructor; [|constructor]. split.
    + exists [1%Q], []. split; reflexivity.
    + reflexivity.
  - exists [1%Q], []. split; reflexivity.
  - vm_compute. discriminate.
  - exists [0%Q], []. split; reflexivity.
Defined.

End VolumeWorkletFacts.

Module StoreFacts.
Import Store.
Open Scope list_scope.
Open Scope Z_scope.

Lemma lastN_short {A : Type} (n : nat) (a : list A) :
  (length a <= n)%nat -> lastN n a = a.
Proof.
  intro H. unfold lastN. replace (length a - n)%nat with 0%nat by lia.
  reflexivity.
Qed.

Lemma lastN_length {A : Type} (n : nat) (a : list A) :
  (length (lastN n a) <= n)%nat.
Proof. unfold lastN. rewrite length_skipn. lia. Qed.

Lemma lastN_snoc {A : Type} (n : nat) (a : list A) (x : A) :
  (0 < n)%nat -> lastN n (lastN n a ++ [x]) = lastN n (a ++ [x]).
Proof.
  intro Hn. unfold lastN.
  rewrite !length_app, length_skipn.
  change (length [x]) with 1%nat.
  destruct (Nat.le_gt_cases (length a) n) as [Hs|Hl].
  - replace (length a - n)%nat with 0%nat by lia. rewrite skipn_O.
    replace (length a - 0 + 1 - n)%nat with (length a + 1 - n)%nat by lia.
    reflexivity.
  - replace (length a - (length a - n) + 1 - n)%nat with 1%nat by lia.
    replace (length a + 1 - n)%nat with (1 + (length a - n))%nat by lia.
    rewrite !skipn_app, length_skipn, skipn_skipn.
    replace (1 - (length a - (length a - n)))%nat with 0%nat by lia.
    replace (1 + (length a - n) - length a)%nat with 0%nat by lia.
    reflexivity.
Qed.

(** What [addMessage] leaves in the list: the last 100 of the old
    messages followed by the new one. *)
Lemma addMessage_messages (now : Z) (type : MessageType) (content : string)
    (s : State) :
  messages (addMessage now type content s) =
  lastN 100 (messages s ++ [mkMessage type content now]).
Proof.
  unfold addMessage. cbv zeta. cbn [messages withMessages].
  destruct (100 <? length (messages s ++ [mkMessage type content now]))%nat eqn:E.
  - reflexivity.
  - apply Nat.ltb_ge in E. rewrite lastN_short by exact E. reflexivity.
Qed.

Lemma setError_errorHistory (now : Z) (code message : string)
    (details : option string) (s : State) :
  errorHistory (setError now code message details s) =
  lastN 20 (errorHistory s ++ [mkAppError code message details now]).
Proof.
  unfold setError, addNotification. cbv zeta. cbn [errorHistory].
  destruct (20 <? length (errorHistory s ++ [mkAppError code message details now]))%nat
    eqn:E.
  - reflexivity.
  - apply Nat.ltb_ge in E. rewrite lastN_short by exact E. reflexivity.
Qed.

Ltac store_cases e :=
  destruct e as [now [status|status|status|status|newVolume| |text|text|text
                     | | |type content| |code message details| |type content
                     |timestamp| |status|view| | | ]];
  unfold step; cbn [fst snd].

(** X28.  The message list is a sliding window: after any sequence of store
    actions it holds the last 100 of the messages added since the list
    was last cleared, oldest first. *)
Theorem messages_keep_last_100 (trace : list (Z * Event)) :
  messages (run init trace) = lastN 100 (logged [] trace) /\
  (length (messages (run init trace)) <= 100)%nat.
Proof.
  assert (H : forall (tr : list (Z * Event)) (s : State) (acc : list SystemMessage),
             messages s = lastN 100 acc ->
             messages (run s tr) = lastN 100 (logged acc tr)).
  { induction tr as [|e tr IH]; intros s acc Hs; [exact Hs|].
    change (run s (e :: tr)) with (run (step s e) tr).
    store_cases e; cbn [logged]; apply IH;
      try exact Hs;
      try (unfold setConnectionStatus, setConnectingStatus; cbv zeta;
           destruct status; exact Hs);
      try reflexivity.
    - unfold updateTranscription. rewrite addMessage_messages.
      cbn [messages withTexts]. rewrite Hs. apply lastN_snoc. lia.
    - unfold updateSystemResponse. cbv zeta. rewrite addMessage_messages.
      cbn [messages withTexts]. rewrite Hs. apply lastN_snoc. lia.
    - rewrite addMessage_messages. rewrite Hs. apply lastN_snoc. lia.
    - unfold removalTimerFired. destruct (removals s); exact Hs. }
  assert (E : messages (run init trace) = lastN 100 (logged [] trace))
    by (apply H; reflexivity).
  split; [exact E | rewrite E; apply lastN_length].
Qed.

(** X29.  The error history is a sliding window over the whole life of the
    store: it holds the last 20 errors ever passed to [setError], oldest
    first; no other action, [resetState] included, changes it. *)
Theorem errorHistory_keeps_last_20 (trace : list (Z * Event)) :
  errorHistory (run init trace) = lastN 20 (reported trace) /\
  (length (errorHistory (run init trace)) <= 20)%nat.
Proof.
  assert (H : forall (tr : list (Z * Event)) (s : State) (acc : list AppError),
             errorHistory s = lastN 20 acc ->
             errorHistory (run s tr) = lastN 20 (acc ++ reported tr)).
  { induction tr as [|e tr IH]; intros s acc Hs.
    - cbn [reported run fold_left]. rewrite app_nil_r. exact Hs.
    - change (run s (e :: tr)) with (run (step s e) tr).
      store_cases e; cbn [reported];
        try (apply IH; first
               [ exact Hs
               | unfold setConnectionStatus, setConnectingStatus; cbv zeta;
                 destruct status; exact Hs
               | unfold removalTimerFired; destruct (removals s); exact Hs ]).
      replace (acc ++ mkAppError code message details now :: reported tr)
        with ((acc ++ [mkAppError code message details now]) ++ reported tr)
        by (rewrite <- app_assoc; reflexivity).
      apply IH. rewrite setError_errorHistory, Hs. apply lastN_snoc. lia. }
  assert (E : errorHistory (run init trace) = lastN 20 (reported trace))
    by (apply (H trace init []); reflexivity).
  split; [exact E | rewrite E; apply lastN_length].
Qed.

Lemma count_spliceFirst (t t' : Z) (l : list SystemMessage) :
  count_occ Z.eq_dec (map msg_timestamp (spliceFirst t l)) t' =
  if Z.eq_dec t t'
  then pred (count_occ Z.eq_dec (map msg_timestamp l) t')
  else count_occ Z.eq_dec (map msg_timestamp l) t'.
Proof.
  induction l as [|n rest IH]; cbn [spliceFirst map].
  - destruct (Z.eq_dec t t'); reflexivity.
  - destruct (msg_timestamp n =? t) eqn:E.
    + apply Z.eqb_eq in E. cbn [count_occ].
      destruct (Z.eq_dec t t') as [Ett|Ett].
      * destruct (Z.eq_dec (msg_timestamp n) t'); [reflexivity | congruence].
      * destruct (Z.eq_dec (msg_timestamp n) t'); [congruence | reflexivity].
    + apply Z.eqb_neq in E. cbn [map count_occ]. rewrite IH.
      destruct (Z.eq_dec t t') as [Ett|Ett].
      * destruct (Z.eq_dec (msg_timestamp n) t'); [congruence | reflexivity].
      * destruct (Z.eq_dec (msg_timestamp n) t'); reflexivity.
Qed.

(** X30.  No notification outlives its timer: at any moment every notification
    shown still has an auto-remove timer of its own pending (counted per
    time stamp), so once no timer is pending no notification is left. *)
Theorem notifications_have_timers (trace : list (Z * Event)) :
  let s := run init trace in
  (forall t : Z,
     (count_occ Z.eq_dec (map msg_timestamp (notifications s)) t <=
      count_occ Z.eq_dec (removals s) t)%nat) /\
  (removals s = [] -> notifications s = []).
Proof.
  assert (H : forall (tr : list (Z * Event)) (s : State),
             (forall t : Z,
                (count_occ Z.eq_dec (map msg_timestamp (notifications s)) t <=
                 count_occ Z.eq_dec (removals s) t)%nat) ->
             forall t : Z,
               (count_occ Z.eq_dec
                  (map msg_timestamp (notifications (run s tr))) t <=
                count_occ Z.eq_dec (removals (run s tr)) t)%nat).
  { induction tr as [|e tr IH]; intros s Hs; [exact Hs|].
    change (run s (e :: tr)) with (run (step s e) tr).
    apply IH. intro t.
    store_cases e;
      try exact (Hs t);
      try (unfold setConnectionStatus, setConnectingStatus; cbv zeta;
           destruct status; exact (Hs t)).
    - unfold setError, addNotification. cbv zeta.
      cbn [notifications removals]. rewrite map_app, !count_occ_app.
      specialize (Hs t). cbn [map msg_timestamp]. lia.
    - unfold addNotification. cbn [notifications removals].
      rewrite map_app, !count_occ_app.
      specialize (Hs t). cbn [map msg_timestamp]. lia.
    - unfold removeNotification. cbn [notifications removals].
      rewrite count_spliceFirst. specialize (Hs t).
      destruct (Z.eq_dec timestamp t); lia.
    - unfold clearNotifications. cbn [notifications removals map count_occ]. lia.
    - unfold resetState. cbn [notifications removals map count_occ]. lia.
    - unfold removalTimerFired. pose proof (Hs t) as Ht. revert Ht.
      destruct (removals s) as [|due rest] eqn:Er; intro Ht.
      + rewrite Er. exact Ht.
      + unfold removeNotification. cbn [notifications removals].
        rewrite count_spliceFirst. cbn [count_occ] in Ht.
        destruct (Z.eq_dec due t); lia. }
  cbv zeta.
  assert (Hc := H trace init (fun t => Nat.le_refl _)).
  split; [exact Hc|].
  intro Hr. destruct (notifications (run init trace)) as [|n rest] eqn:En;
    [reflexivity|].
  specialize (Hc (msg_timestamp n)). rewrite Hr in Hc.
  cbn [map count_occ] in Hc.
  destruct (Z.eq_dec (msg_timestamp n) (msg_timestamp n)); [lia | congruence].
Qed.

End StoreFacts.
